(** * SmoothControls: the orbital camera controller of the vendored
      model-viewer component

    A shallow embedding of [SmoothControls] (the class carried by
    [wwwroot/lib/google/model-viewer/lib/features/environment.d.ts]) and the
    properties of its orbit, zoom, gating and touch-intent logic.
    The product catalogue of the web application ([ProductService] and the
    controller actions that use it) follows the controller.

    Numbers.  JavaScript numbers are IEEE-754 doubles.  They are embedded as
    real numbers extended with the three special values the controller
    really computes with ([Infinity], [-Infinity] and [NaN]: the default
    options carry infinite bounds, and [adjustOrbit] tests [isFinite] of a
    quotient that may be [x/0] or [0/0]).  Rounding is not modelled and zero
    carries no sign (a zero divisor behaves as [+0]). *)

From Stdlib Require Import Reals Lra Lia ZArith List Bool.
From Stdlib Require String.
Import ListNotations.

Set Implicit Arguments.

(* ================================================================== *)
(** ** JavaScript numbers *)

Module JS.

Inductive num : Type :=
| NaN
| NegInf
| PosInf
| Fin (r : R).

Definition Rltb (a b : R) : bool := if Rlt_dec a b then true else false.
Definition Reqb (a b : R) : bool := if Req_dec_T a b then true else false.

(** [-x] *)
Definition neg (a : num) : num :=
  match a with
  | NaN => NaN
  | NegInf => PosInf
  | PosInf => NegInf
  | Fin r => Fin (- r)
  end.

(** [a + b] *)
Definition add (a b : num) : num :=
  match a, b with
  | NaN, _ | _, NaN => NaN
  | PosInf, NegInf | NegInf, PosInf => NaN
  | PosInf, _ | _, PosInf => PosInf
  | NegInf, _ | _, NegInf => NegInf
  | Fin x, Fin y => Fin (x + y)
  end.

(** [a - b] *)
Definition sub (a b : num) : num := add a (neg b).

(** The infinity of the sign of [r], [NaN] for [r = 0]. *)
Definition inf_times (pos : bool) (r : R) : num :=
  if Reqb r 0 then NaN
  else if xorb pos (Rltb 0 r) then NegInf else PosInf.

(** [a * b] *)
Definition mul (a b : num) : num :=
  match a, b with
  | NaN, _ | _, NaN => NaN
  | PosInf, PosInf | NegInf, NegInf => PosInf
  | PosInf, NegInf | NegInf, PosInf => NegInf
  | PosInf, Fin r | Fin r, PosInf => inf_times true r
  | NegInf, Fin r | Fin r, NegInf => inf_times false r
  | Fin x, Fin y => Fin (x * y)
  end.

(** [a / b]; a zero divisor is [+0]. *)
Definition div (a b : num) : num :=
  match a, b with
  | NaN, _ | _, NaN => NaN
  | (PosInf | NegInf), (PosInf | NegInf) => NaN
  | PosInf, Fin r => if Rltb r 0 then NegInf else PosInf
  | NegInf, Fin r => if Rltb r 0 then PosInf else NegInf
  | Fin _, (PosInf | NegInf) => Fin 0
  | Fin x, Fin y =>
      if Reqb y 0
      then (if Reqb x 0 then NaN else if Rltb 0 x then PosInf else NegInf)
      else Fin (x / y)
  end.

(** [a < b] *)
Definition lt (a b : num) : bool :=
  match a, b with
  | NaN, _ | _, NaN => false
  | _, NegInf => false
  | NegInf, _ => true
  | PosInf, _ => false
  | Fin _, PosInf => true
  | Fin x, Fin y => Rltb x y
  end.

(** [a > b] *)
Definition gt (a b : num) : bool := lt b a.

(** [a === b] ([==] coincides with it on two numbers) *)
Definition strict_eq (a b : num) : bool :=
  match a, b with
  | NegInf, NegInf | PosInf, PosInf => true
  | Fin x, Fin y => Reqb x y
  | _, _ => false
  end.

(** [a !== b] *)
Definition strict_ne (a b : num) : bool := negb (strict_eq a b).

Definition isFinite (a : num) : bool :=
  match a with Fin _ => true | _ => false end.

Definition Math_min (a b : num) : num :=
  match a, b with
  | NaN, _ | _, NaN => NaN
  | _, _ => if lt b a then b else a
  end.

Definition Math_max (a b : num) : num :=
  match a, b with
  | NaN, _ | _, NaN => NaN
  | _, _ => if lt a b then b else a
  end.

Definition Math_abs (a : num) : num :=
  match a with
  | NaN => NaN
  | NegInf | PosInf => PosInf
  | Fin r => Fin (Rabs r)
  end.

Definition Math_sign (a : num) : num :=
  match a with
  | NaN => NaN
  | NegInf => Fin (-1)
  | PosInf => Fin 1
  | Fin r => if Reqb r 0 then Fin 0 else if Rltb 0 r then Fin 1 else Fin (-1)
  end.

Definition Math_floor (a : num) : num :=
  match a with
  | Fin r => Fin (IZR (Zfloor r))
  | other => other
  end.

Definition Math_exp (a : num) : num :=
  match a with
  | NaN => NaN
  | NegInf => Fin 0
  | PosInf => PosInf
  | Fin r => Fin (exp r)
  end.

Definition Math_log (a : num) : num :=
  match a with
  | NaN | NegInf => NaN
  | PosInf => PosInf
  | Fin r => if Reqb r 0 then NegInf else if Rltb 0 r then Fin (ln r) else NaN
  end.

Definition Math_sqrt (a : num) : num :=
  match a with
  | NaN | NegInf => NaN
  | PosInf => PosInf
  | Fin r => if Rltb r 0 then NaN else Fin (sqrt r)
  end.

Definition Math_PI : num := Fin PI.

(** The order of the extended reals; [NaN] is not comparable. *)
Definition le (a b : num) : Prop :=
  match a, b with
  | NaN, _ | _, NaN => False
  | NegInf, _ | _, PosInf => True
  | Fin x, Fin y => (x <= y)%R
  | _, _ => False
  end.

Definition is_number (a : num) : Prop := a <> NaN.

End JS.

Export JS.

Declare Scope js_scope.
Delimit Scope js_scope with js.
Bind Scope js_scope with num.
Notation "a + b" := (JS.add a b) : js_scope.
Notation "a - b" := (JS.sub a b) : js_scope.
Notation "a * b" := (JS.mul a b) : js_scope.
Notation "a / b" := (JS.div a b) : js_scope.
Notation "- a" := (JS.neg a) : js_scope.
Notation "a <? b" := (JS.lt a b) (at level 70) : js_scope.
Notation "a >? b" := (JS.gt a b) (at level 70) : js_scope.
Notation "a === b" := (JS.strict_eq a b) (at level 70) : js_scope.
Notation "a !== b" := (JS.strict_ne a b) (at level 70) : js_scope.

(** A decimal literal of the source. *)
Coercion Fin : R >-> num.

Open Scope R_scope.

(* ================================================================== *)
(** ** Control flow: mutable controller state and thrown exceptions *)

(** The exceptions that can leave a method: a configuration error raised
    by [clamp], and the [TypeError] of reading a property of [undefined]. *)
Inductive exn : Type := ConfigError | TypeError.

(** How a call completes: normally with a value, or abruptly. *)
Inductive completion (A : Type) : Type :=
| Normal (a : A)
| Throw (e : exn).
Arguments Throw {A} e.

(** A method body: it reads and mutates the object [St]; what it mutated
    before throwing stays mutated. *)
Definition M (St A : Type) : Type := St -> completion A * St.

Definition ret {St A} (a : A) : M St A := fun s => (Normal a, s).

Definition bind {St A B} (m : M St A) (k : A -> M St B) : M St B :=
  fun s =>
    match m s with
    | (Normal a, s') => k a s'
    | (Throw e, s') => (Throw e, s')
    end.

Definition gets {St A} (f : St -> A) : M St A := fun s => (Normal (f s), s).
Definition modify {St} (f : St -> St) : M St unit := fun s => (Normal tt, f s).
Definition throw {St A} (e : exn) : M St A := fun s => (Throw e, s).

(** A pure helper that may throw, called from a method. *)
Definition call {St A} (c : completion A) : M St A := fun s => (c, s).

(** [if (b) { m }] *)
Definition when {St} (b : bool) (m : M St unit) : M St unit :=
  if b then m else ret tt.

Declare Scope monad_scope.
Delimit Scope monad_scope with monad.
Notation "x <- m ;; k" := (bind m (fun x => k))
  (at level 61, m at next level, right associativity) : monad_scope.
Notation "m ;; k" := (bind m (fun _ => k))
  (at level 61, right associativity) : monad_scope.
Notation "m >>= k" := (bind m k) (at level 62, left associativity) : monad_scope.
Open Scope monad_scope.

(** The object after running a method, and how the method completed. *)
Definition exec {St A} (m : M St A) (s : St) : St := snd (m s).
Definition result {St A} (m : M St A) (s : St) : completion A := fst (m s).

(** A method leaves an aspect [f] of the object as it was, however it
    completes. *)
Definition preserves {St A B} (f : St -> A) (m : M St B) : Prop :=
  forall s, f (exec m s) = f s.

(* ================================================================== *)
(** ** Helpers imported by the controller *)

(** Modelled from the spec: [clamp] of [../utilities.js], which is not among
    the sources.  "Standard clamp; [min > max] is a configuration error
    (reported, not silently swapped)": the report is the exception
    [ConfigError], the one way a helper that returns a number can report to
    its caller. *)
Definition clamp (value lowerLimit upperLimit : num) : completion num :=
  if (lowerLimit >? upperLimit)%js then Throw ConfigError
  else Normal (Math_max lowerLimit (Math_min upperLimit value)).

(** three.js [Spherical]: the constructor's defaults are radius 1, phi 0,
    theta 0. *)
Record Spherical : Type := mkSpherical {
  radius : num;
  phi : num;
  theta : num
}.

Definition new_Spherical : Spherical := mkSpherical (Fin 1) (Fin 0) (Fin 0).

(** Modelled from the spec: the epsilon of [makeSafe] below, three.js's
    [EPS = 0.000001]. *)
Definition EPS : R := 1 / 1000000.

(** Modelled from the spec: three.js [Spherical.makeSafe], which is not
    among the sources.  It "clamps polar into (eps, pi - eps)", as a clamp
    does: a polar angle below [EPS] becomes [EPS], one above [pi - EPS]
    becomes [pi - EPS]; radius and azimuth are left alone. *)
Definition makeSafe (sp : Spherical) : Spherical :=
  mkSpherical (radius sp)
    (Math_max (Fin EPS) (Math_min (Math_PI - Fin EPS)%js (phi sp)))
    (theta sp).

(** [Damper] of [./Damper.js] is not among the sources: the controller is
    verified against any implementation of the interface it uses.  A damper
    is an object (it may keep a velocity between calls), so [update] returns
    the new value together with the damper after the call. *)
Class DamperClass : Type := {
  Damper : Type;
  new_Damper : Damper;
  Damper_update : Damper -> num -> num -> num -> num -> num * Damper;
  Damper_setDecayTime : Damper -> num -> Damper;
  SETTLING_TIME : num
}.

(* ================================================================== *)
(** ** Data model *)

Inductive InteractionPolicy : Type :=
| always_allow
| allow_when_focused
| other_policy.

Inductive TouchAction : Type := pan_x | pan_y | none.

Record Options : Type := mkOptions {
  minimumRadius : num;
  maximumRadius : num;
  minimumPolarAngle : num;
  maximumPolarAngle : num;
  minimumAzimuthalAngle : num;
  maximumAzimuthalAngle : num;
  minimumFieldOfView : num;
  maximumFieldOfView : num;
  interactionPolicy : InteractionPolicy;
  touchAction : TouchAction
}.

Definition DEFAULT_OPTIONS : Options := {|
  minimumRadius := Fin 0;
  maximumRadius := PosInf;
  minimumPolarAngle := Fin (PI / 8);
  maximumPolarAngle := Fin (PI - PI / 8);
  minimumAzimuthalAngle := NegInf;
  maximumAzimuthalAngle := PosInf;
  minimumFieldOfView := Fin 10;
  maximumFieldOfView := Fin 45;
  interactionPolicy := always_allow;
  touchAction := pan_y
|}.

(** The argument of [applyOptions]: an object that carries some of the
    option keys. *)
Record PartialOptions : Type := mkPartial {
  p_minimumRadius : option num;
  p_maximumRadius : option num;
  p_minimumPolarAngle : option num;
  p_maximumPolarAngle : option num;
  p_minimumAzimuthalAngle : option num;
  p_maximumAzimuthalAngle : option num;
  p_minimumFieldOfView : option num;
  p_maximumFieldOfView : option num;
  p_interactionPolicy : option InteractionPolicy;
  p_touchAction : option TouchAction
}.

(** A default parameter: the argument, or the default when it is omitted. *)
Definition or_default {A} (arg : option A) (dflt : A) : A :=
  match arg with Some a => a | None => dflt end.

(** [Object.assign(target, source)] on option objects. *)
Definition Object_assign (target : Options) (source : PartialOptions) : Options := {|
  minimumRadius := or_default (p_minimumRadius source) (minimumRadius target);
  maximumRadius := or_default (p_maximumRadius source) (maximumRadius target);
  minimumPolarAngle :=
    or_default (p_minimumPolarAngle source) (minimumPolarAngle target);
  maximumPolarAngle :=
    or_default (p_maximumPolarAngle source) (maximumPolarAngle target);
  minimumAzimuthalAngle :=
    or_default (p_minimumAzimuthalAngle source) (minimumAzimuthalAngle target);
  maximumAzimuthalAngle :=
    or_default (p_maximumAzimuthalAngle source) (maximumAzimuthalAngle target);
  minimumFieldOfView :=
    or_default (p_minimumFieldOfView source) (minimumFieldOfView target);
  maximumFieldOfView :=
    or_default (p_maximumFieldOfView source) (maximumFieldOfView target);
  interactionPolicy :=
    or_default (p_interactionPolicy source) (interactionPolicy target);
  touchAction := or_default (p_touchAction source) (touchAction target)
|}.

(** Constants *)
Definition KEYBOARD_ORBIT_INCREMENT : num := Fin (PI / 8).
Definition ZOOM_SENSITIVITY : num := Fin (4 / 100).

Module KeyCode.
Definition PAGE_UP : Z := 33.
Definition PAGE_DOWN : Z := 34.
Definition LEFT : Z := 37.
Definition UP : Z := 38.
Definition RIGHT : Z := 39.
Definition DOWN : Z := 40.
End KeyCode.

Inductive ChangeSource : Type := USER_INTERACTION | NONE.

(** A mouse event or a touch point, as far as the controller reads it. *)
Record Pointer : Type := mkPointer {
  clientX : num;
  clientY : num
}.

Inductive EventType : Type :=
| mousemove | mousedown | mouseup
| touchstart | touchmove | touchend
| wheel | keydown.

(** [/^touch(start|end|move)$/.test(event.type)] *)
Definition TOUCH_EVENT_RE_test (t : EventType) : bool :=
  match t with
  | touchstart | touchend | touchmove => true
  | _ => false
  end.

Record Event : Type := mkEvent {
  type : EventType;
  pointer : Pointer;           (* clientX, clientY of a mouse event *)
  touches : list Pointer;
  deltaY : num;
  deltaMode : Z;
  keyCode : Z;
  cancelable : bool
}.

(** What the controller does to the outside: the events it dispatches and
    the calls of [event.preventDefault()]. *)
Inductive Effect : Type :=
| change (source : ChangeSource)
| pointer_change_start (p : Pointer)
| pointer_change_end (p : Pointer)
| preventDefault.

Inductive TouchMode : Type := rotate | zoom | scroll.

Inductive Cursor : Type := cursor_unset | grab | grabbing.

(** The element the controller is bound to: its cursor style, its height
    and whether it is its root node's [activeElement]. *)
Record Element : Type := mkElement {
  cursor : Cursor;
  clientHeight : num;
  isActiveElement : bool
}.

(** [new Euler(x, y, z, 'YXZ')] *)
Record Euler : Type := mkEuler { euler_x : num; euler_y : num; euler_z : num }.

(** The camera: the spherical its position was last set from, its rotation,
    its field of view and clip planes, and how often its projection matrix
    was recomputed. *)
Record Camera : Type := mkCamera {
  position : Spherical;
  rotation : Euler;
  fov : num;
  near : num;
  far : num;
  aspect : num;
  projectionUpdates : nat
}.

Definition set_radius (v : num) (sp : Spherical) : Spherical :=
  mkSpherical v (phi sp) (theta sp).
Definition set_phi (v : num) (sp : Spherical) : Spherical :=
  mkSpherical (radius sp) v (theta sp).
Definition set_theta (v : num) (sp : Spherical) : Spherical :=
  mkSpherical (radius sp) (phi sp) v.

(* ================================================================== *)
(** ** The controller *)

Section Controls.

Context {damper : DamperClass}.

(** The fields of a [SmoothControls] instance.  [wheelListener] records
    whether [onWheel] is registered on the element (the other listeners are
    registered exactly when [_interactionEnabled]); [log] collects the
    effects on the outside, newest first. *)
Record SmoothControls : Type := mkControls {
  camera : Camera;
  element : Element;
  sensitivity : num;
  _interactionEnabled : bool;
  wheelListener : bool;
  _disableZoom : bool;
  isUserChange : bool;
  isUserPointing : bool;
  spherical : Spherical;
  goalSpherical : Spherical;
  thetaDamper : Damper;
  phiDamper : Damper;
  radiusDamper : Damper;
  fovDamper : Damper;
  logFov : num;
  goalLogFov : num;
  pointerIsDown : bool;
  lastPointerPosition : Pointer;
  touchMode : TouchMode;
  touchDecided : bool;
  lastTouches : option (list Pointer);
  _options : Options;
  log : list Effect
}.

Definition set_camera (v : Camera) (s : SmoothControls) : SmoothControls :=
  mkControls v (element s) (sensitivity s) (_interactionEnabled s)
    (wheelListener s) (_disableZoom s) (isUserChange s) (isUserPointing s)
    (spherical s) (goalSpherical s) (thetaDamper s) (phiDamper s)
    (radiusDamper s) (fovDamper s) (logFov s) (goalLogFov s)
    (pointerIsDown s) (lastPointerPosition s) (touchMode s)
    (touchDecided s) (lastTouches s) (_options s) (log s).

Definition set_element (v : Element) (s : SmoothControls) : SmoothControls :=
  mkControls (camera s) v (sensitivity s) (_interactionEnabled s)
    (wheelListener s) (_disableZoom s) (isUserChange s) (isUserPointing s)
    (spherical s) (goalSpherical s) (thetaDamper s) (phiDamper s)
    (radiusDamper s) (fovDamper s) (logFov s) (goalLogFov s)
    (pointerIsDown s) (lastPointerPosition s) (touchMode s)
    (touchDecided s) (lastTouches s) (_options s) (log s).

Definition set_interactionEnabled (v : bool) (s : SmoothControls) : SmoothControls :=
  mkControls (camera s) (element s) (sensitivity s) v (wheelListener s)
    (_disableZoom s) (isUserChange s) (isUserPointing s) (spherical s)
    (goalSpherical s) (thetaDamper s) (phiDamper s) (radiusDamper s)
    (fovDamper s) (logFov s) (goalLogFov s) (pointerIsDown s)
    (lastPointerPosition s) (touchMode s) (touchDecided s) (lastTouches s)
    (_options s) (log s).

Definition set_wheelListener (v : bool) (s : SmoothControls) : SmoothControls :=
  mkControls (camera s) (element s) (sensitivity s) (_interactionEnabled s)
    v (_disableZoom s) (isUserChange s) (isUserPointing s) (spherical s)
    (goalSpherical s) (thetaDamper s) (phiDamper s) (radiusDamper s)
    (fovDamper s) (logFov s) (goalLogFov s) (pointerIsDown s)
    (lastPointerPosition s) (touchMode s) (touchDecided s) (lastTouches s)
    (_options s) (log s).

Definition set_disableZoom (v : bool) (s : SmoothControls) : SmoothControls :=
  mkControls (camera s) (element s) (sensitivity s) (_interactionEnabled s)
    (wheelListener s) v (isUserChange s) (isUserPointing s) (spherical s)
    (goalSpherical s) (thetaDamper s) (phiDamper s) (radiusDamper s)
    (fovDamper s) (logFov s) (goalLogFov s) (pointerIsDown s)
    (lastPointerPosition s) (touchMode s) (touchDecided s) (lastTouches s)
    (_options s) (log s).

Definition set_isUserChange (v : bool) (s : SmoothControls) : SmoothControls :=
  mkControls (camera s) (element s) (sensitivity s) (_interactionEnabled s)
    (wheelListener s) (_disableZoom s) v (isUserPointing s) (spherical s)
    (goalSpherical s) (thetaDamper s) (phiDamper s) (radiusDamper s)
    (fovDamper s) (logFov s) (goalLogFov s) (pointerIsDown s)
    (lastPointerPosition s) (touchMode s) (touchDecided s) (lastTouches s)
    (_options s) (log s).

Definition set_isUserPointing (v : bool) (s : SmoothControls) : SmoothControls :=
  mkControls (camera s) (element s) (sensitivity s) (_interactionEnabled s)
    (wheelListener s) (_disableZoom s) (isUserChange s) v (spherical s)
    (goalSpherical s) (thetaDamper s) (phiDamper s) (radiusDamper s)
    (fovDamper s) (logFov s) (goalLogFov s) (pointerIsDown s)
    (lastPointerPosition s) (touchMode s) (touchDecided s) (lastTouches s)
    (_options s) (log s).

Definition set_spherical (v : Spherical) (s : SmoothControls) : SmoothControls :=
  mkControls (camera s) (element s) (sensitivity s) (_interactionEnabled s)
    (wheelListener s) (_disableZoom s) (isUserChange s) (isUserPointing s)
    v (goalSpherical s) (thetaDamper s) (phiDamper s) (radiusDamper s)
    (fovDamper s) (logFov s) (goalLogFov s) (pointerIsDown s)
    (lastPointerPosition s) (touchMode s) (touchDecided s) (lastTouches s)
    (_options s) (log s).

Definition set_goalSpherical (v : Spherical) (s : SmoothControls) : SmoothControls :=
  mkControls (camera s) (element s) (sensitivity s) (_interactionEnabled s)
    (wheelListener s) (_disableZoom s) (isUserChange s) (isUserPointing s)
    (spherical s) v (thetaDamper s) (phiDamper s) (radiusDamper s)
    (fovDamper s) (logFov s) (goalLogFov s) (pointerIsDown s)
    (lastPointerPosition s) (touchMode s) (touchDecided s) (lastTouches s)
    (_options s) (log s).

Definition set_thetaDamper (v : Damper) (s : SmoothControls) : SmoothControls :=
  mkControls (camera s) (element s) (sensitivity s) (_interactionEnabled s)
    (wheelListener s) (_disableZoom s) (isUserChange s) (isUserPointing s)
    (spherical s) (goalSpherical s) v (phiDamper s) (radiusDamper s)
    (fovDamper s) (logFov s) (goalLogFov s) (pointerIsDown s)
    (lastPointerPosition s) (touchMode s) (touchDecided s) (lastTouches s)
    (_options s) (log s).

Definition set_phiDamper (v : Damper) (s : SmoothControls) : SmoothControls :=
  mkControls (camera s) (element s) (sensitivity s) (_interactionEnabled s)
    (wheelListener s) (_disableZoom s) (isUserChange s) (isUserPointing s)
    (spherical s) (goalSpherical s) (thetaDamper s) v (radiusDamper s)
    (fovDamper s) (logFov s) (goalLogFov s) (pointerIsDown s)
    (lastPointerPosition s) (touchMode s) (touchDecided s) (lastTouches s)
    (_options s) (log s).

Definition set_radiusDamper (v : Damper) (s : SmoothControls) : SmoothControls :=
  mkControls (camera s) (element s) (sensitivity s) (_interactionEnabled s)
    (wheelListener s) (_disableZoom s) (isUserChange s) (isUserPointing s)
    (spherical s) (goalSpherical s) (thetaDamper s) (phiDamper s) v
    (fovDamper s) (logFov s) (goalLogFov s) (pointerIsDown s)
    (lastPointerPosition s) (touchMode s) (touchDecided s) (lastTouches s)
    (_options s) (log s).

Definition set_fovDamper (v : Damper) (s : SmoothControls) : SmoothControls :=
  mkControls (camera s) (element s) (sensitivity s) (_interactionEnabled s)
    (wheelListener s) (_disableZoom s) (isUserChange s) (isUserPointing s)
    (spherical s) (goalSpherical s) (thetaDamper s) (phiDamper s)
    (radiusDamper s) v (logFov s) (goalLogFov s) (pointerIsDown s)
    (lastPointerPosition s) (touchMode s) (touchDecided s) (lastTouches s)
    (_options s) (log s).

Definition set_logFov (v : num) (s : SmoothControls) : SmoothControls :=
  mkControls (camera s) (element s) (sensitivity s) (_interactionEnabled s)
    (wheelListener s) (_disableZoom s) (isUserChange s) (isUserPointing s)
    (spherical s) (goalSpherical s) (thetaDamper s) (phiDamper s)
    (radiusDamper s) (fovDamper s) v (goalLogFov s) (pointerIsDown s)
    (lastPointerPosition s) (touchMode s) (touchDecided s) (lastTouches s)
    (_options s) (log s).

Definition set_goalLogFov (v : num) (s : SmoothControls) : SmoothControls :=
  mkControls (camera s) (element s) (sensitivity s) (_interactionEnabled s)
    (wheelListener s) (_disableZoom s) (isUserChange s) (isUserPointing s)
    (spherical s) (goalSpherical s) (thetaDamper s) (phiDamper s)
    (radiusDamper s) (fovDamper s) (logFov s) v (pointerIsDown s)
    (lastPointerPosition s) (touchMode s) (touchDecided s) (lastTouches s)
    (_options s) (log s).

Definition set_pointerIsDown (v : bool) (s : SmoothControls) : SmoothControls :=
  mkControls (camera s) (element s) (sensitivity s) (_interactionEnabled s)
    (wheelListener s) (_disableZoom s) (isUserChange s) (isUserPointing s)
    (spherical s) (goalSpherical s) (thetaDamper s) (phiDamper s)
    (radiusDamper s) (fovDamper s) (logFov s) (goalLogFov s) v
    (lastPointerPosition s) (touchMode s) (touchDecided s) (lastTouches s)
    (_options s) (log s).

Definition set_lastPointerPosition (v : Pointer) (s : SmoothControls) : SmoothControls :=
  mkControls (camera s) (element s) (sensitivity s) (_interactionEnabled s)
    (wheelListener s) (_disableZoom s) (isUserChange s) (isUserPointing s)
    (spherical s) (goalSpherical s) (thetaDamper s) (phiDamper s)
    (radiusDamper s) (fovDamper s) (logFov s) (goalLogFov s)
    (pointerIsDown s) v (touchMode s) (touchDecided s) (lastTouches s)
    (_options s) (log s).

Definition set_touchMode (v : TouchMode) (s : SmoothControls) : SmoothControls :=
  mkControls (camera s) (element s) (sensitivity s) (_interactionEnabled s)
    (wheelListener s) (_disableZoom s) (isUserChange s) (isUserPointing s)
    (spherical s) (goalSpherical s) (thetaDamper s) (phiDamper s)
    (radiusDamper s) (fovDamper s) (logFov s) (goalLogFov s)
    (pointerIsDown s) (lastPointerPosition s) v (touchDecided s)
    (lastTouches s) (_options s) (log s).

Definition set_touchDecided (v : bool) (s : SmoothControls) : SmoothControls :=
  mkControls (camera s) (element s) (sensitivity s) (_interactionEnabled s)
    (wheelListener s) (_disableZoom s) (isUserChange s) (isUserPointing s)
    (spherical s) (goalSpherical s) (thetaDamper s) (phiDamper s)
    (radiusDamper s) (fovDamper s) (logFov s) (goalLogFov s)
    (pointerIsDown s) (lastPointerPosition s) (touchMode s) v
    (lastTouches s) (_options s) (log s).

Definition set_lastTouches (v : option (list Pointer)) (s : SmoothControls) : SmoothControls :=
  mkControls (camera s) (element s) (sensitivity s) (_interactionEnabled s)
    (wheelListener s) (_disableZoom s) (isUserChange s) (isUserPointing s)
    (spherical s) (goalSpherical s) (thetaDamper s) (phiDamper s)
    (radiusDamper s) (fovDamper s) (logFov s) (goalLogFov s)
    (pointerIsDown s) (lastPointerPosition s) (touchMode s)
    (touchDecided s) v (_options s) (log s).

Definition set_options (v : Options) (s : SmoothControls) : SmoothControls :=
  mkControls (camera s) (element s) (sensitivity s) (_interactionEnabled s)
    (wheelListener s) (_disableZoom s) (isUserChange s) (isUserPointing s)
    (spherical s) (goalSpherical s) (thetaDamper s) (phiDamper s)
    (radiusDamper s) (fovDamper s) (logFov s) (goalLogFov s)
    (pointerIsDown s) (lastPointerPosition s) (touchMode s)
    (touchDecided s) (lastTouches s) v (log s).

Definition set_log (v : list Effect) (s : SmoothControls) : SmoothControls :=
  mkControls (camera s) (element s) (sensitivity s) (_interactionEnabled s)
    (wheelListener s) (_disableZoom s) (isUserChange s) (isUserPointing s)
    (spherical s) (goalSpherical s) (thetaDamper s) (phiDamper s)
    (radiusDamper s) (fovDamper s) (logFov s) (goalLogFov s)
    (pointerIsDown s) (lastPointerPosition s) (touchMode s)
    (touchDecided s) (lastTouches s) (_options s) v.

Definition Method (A : Type) : Type := M SmoothControls A.

(** [this.dispatchEvent(e)] and [event.preventDefault()] *)
Definition emit (e : Effect) : Method unit :=
  modify (fun s => set_log (e :: log s) s).

(** [get canInteract()] *)
Definition canInteract (s : SmoothControls) : bool :=
  match interactionPolicy (_options s) with
  | allow_when_focused => isActiveElement (element s)
  | always_allow => true
  | other_policy => false
  end.

(** Wraps to between -pi and pi *)
Definition wrapAngle (radians : num) : num :=
  let normalized := ((radians + Math_PI) / (Fin 2 * Math_PI))%js in
  let wrapped := (normalized - Math_floor normalized)%js in
  (wrapped * Fin 2 * Math_PI - Math_PI)%js.

Definition pixelLengthToSphericalAngle (pixelLength : num) : Method num :=
  h <- gets (fun s => clientHeight (element s)) ;;
  ret (Fin 2 * Math_PI * pixelLength / h)%js.

Definition twoTouchDistance (touchOne touchTwo : Pointer) : num :=
  let xDelta := (clientX touchTwo - clientX touchOne)%js in
  let yDelta := (clientY touchTwo - clientY touchOne)%js in
  Math_sqrt (xDelta * xDelta + yDelta * yDelta)%js.

(** Set the absolute orbital goal of the camera.  Returns true if invoking
    the method will result in the camera changing position and/or rotation,
    otherwise false. *)
Definition setOrbit (goalTheta goalPhi goalRadius : option num) : Method bool :=
  g <- gets goalSpherical ;;
  let goalTheta := or_default goalTheta (theta g) in
  let goalPhi := or_default goalPhi (phi g) in
  let goalRadius := or_default goalRadius (radius g) in
  o <- gets _options ;;
  nextTheta <- call (clamp goalTheta (minimumAzimuthalAngle o)
                                     (maximumAzimuthalAngle o)) ;;
  when (negb (isFinite (minimumAzimuthalAngle o)) &&
        negb (isFinite (maximumAzimuthalAngle o)))
    (modify (fun s =>
       set_spherical
         (set_theta
            (wrapAngle (theta (spherical s) - nextTheta) + nextTheta)%js
            (spherical s)) s)) ;;
  nextPhi <- call (clamp goalPhi (minimumPolarAngle o) (maximumPolarAngle o)) ;;
  nextRadius <- call (clamp goalRadius (minimumRadius o) (maximumRadius o)) ;;
  if (nextTheta === theta g)%js && (nextPhi === phi g)%js &&
     (nextRadius === radius g)%js
  then ret false
  else
    modify (fun s => set_goalSpherical
                       (mkSpherical nextRadius nextPhi nextTheta) s) ;;
    modify (fun s => set_goalSpherical (makeSafe (goalSpherical s)) s) ;;
    modify (set_isUserChange false) ;;
    ret true.

(** Subset of setOrbit() above, which only sets the camera's radius. *)
Definition setRadius (radius : num) : Method unit :=
  modify (fun s => set_goalSpherical (set_radius radius (goalSpherical s)) s) ;;
  _ <- setOrbit None None None ;;
  ret tt.

(** Sets the goal field of view for the camera *)
Definition setFieldOfView (fov : num) : Method unit :=
  o <- gets _options ;;
  fov <- call (clamp fov (minimumFieldOfView o) (maximumFieldOfView o)) ;;
  modify (set_goalLogFov (Math_log fov)).

(** Configure the options of the controls: they are merged with what is
    configured already, and the clamping is evaluated again. *)
Definition applyOptions (options : PartialOptions) : Method unit :=
  modify (fun s => set_options (Object_assign (_options s) options) s) ;;
  _ <- setOrbit None None None ;;
  l <- gets goalLogFov ;;
  setFieldOfView (Math_exp l).

(** Adjust the orbital position of the camera relative to its current
    orbital position.  Does not let the theta goal get more than pi ahead of
    the current theta, which ensures interpolation continues in the
    direction of the delta.  The deltaZoom parameter adjusts both the field
    of view and the orbit radius such that they progress across their
    allowed ranges in sync. *)
Definition adjustOrbit (deltaTheta deltaPhi deltaZoom : num) : Method unit :=
  g <- gets goalSpherical ;;
  o <- gets _options ;;
  cur <- gets spherical ;;
  l <- gets goalLogFov ;;
  let dTheta := (theta cur - theta g)%js in
  let dThetaLimit := (Math_PI - Fin (1 / 1000))%js in
  c <- call (clamp deltaTheta (- dThetaLimit - dTheta)%js
                              (dThetaLimit - dTheta)%js) ;;
  let goalTheta := (theta g - c)%js in
  let goalPhi := (phi g - deltaPhi)%js in
  let deltaRatio :=
    if (deltaZoom === Fin 0)%js then Fin 0
    else
      (((if (deltaZoom >? Fin 0)%js then maximumRadius o else minimumRadius o)
        - radius g) /
       (Math_log (if (deltaZoom >? Fin 0)%js then maximumFieldOfView o
                  else minimumFieldOfView o) - l))%js in
  let goalRadius :=
    (radius g +
     deltaZoom *
       Math_min (if isFinite deltaRatio then deltaRatio else PosInf)
                (maximumRadius o - minimumRadius o))%js in
  _ <- setOrbit (Some goalTheta) (Some goalPhi) (Some goalRadius) ;;
  when (deltaZoom !== Fin 0)%js
    (l' <- gets goalLogFov ;;
     setFieldOfView (Math_exp (l' + deltaZoom)%js)).

Definition isStationary (s : SmoothControls) : bool :=
  (theta (goalSpherical s) === theta (spherical s))%js &&
  (phi (goalSpherical s) === phi (spherical s))%js &&
  (radius (goalSpherical s) === radius (spherical s))%js &&
  (goalLogFov s === logFov s)%js.

Definition moveCamera : Method unit :=
  modify (fun s => set_spherical (makeSafe (spherical s)) s) ;;
  modify (fun s =>
    let sp := spherical s in
    let c := camera s in
    set_camera
      (mkCamera sp (mkEuler (phi sp - Math_PI / Fin 2)%js (theta sp) (Fin 0))
                (fov c) (near c) (far c) (aspect c) (projectionUpdates c)) s) ;;
  s <- gets (fun s => s) ;;
  when (fov (camera s) !== Math_exp (logFov s))%js
    (modify (fun s =>
       let c := camera s in
       set_camera (mkCamera (position c) (rotation c) (Math_exp (logFov s))
                     (near c) (far c) (aspect c) (S (projectionUpdates c))) s)) ;;
  u <- gets isUserChange ;;
  emit (change (if u then USER_INTERACTION else NONE)).

(** Update controls: the camera interpolates its position and rotation
    until it lines up with the goal.  Time and delta are in milliseconds. *)
Definition update (_time delta : num) : Method unit :=
  s <- gets (fun s => s) ;;
  if isStationary s then ret tt
  else
    let o := _options s in
    let dTheta := (theta (spherical s) - theta (goalSpherical s))%js in
    when ((Math_abs dTheta >? Math_PI)%js &&
          negb (isFinite (minimumAzimuthalAngle o)) &&
          negb (isFinite (maximumAzimuthalAngle o)))
      (modify (fun s =>
         set_spherical
           (set_theta (theta (spherical s) - Math_sign dTheta * Fin 2 * Math_PI)%js
                      (spherical s)) s)) ;;
    modify (fun s =>
      let (v, d) := Damper_update (thetaDamper s) (theta (spherical s))
                      (theta (goalSpherical s)) delta Math_PI in
      set_thetaDamper d (set_spherical (set_theta v (spherical s)) s)) ;;
    modify (fun s =>
      let (v, d) := Damper_update (phiDamper s) (phi (spherical s))
                      (phi (goalSpherical s)) delta (maximumPolarAngle o) in
      set_phiDamper d (set_spherical (set_phi v (spherical s)) s)) ;;
    modify (fun s =>
      let (v, d) := Damper_update (radiusDamper s) (radius (spherical s))
                      (radius (goalSpherical s)) delta (maximumRadius o) in
      set_radiusDamper d (set_spherical (set_radius v (spherical s)) s)) ;;
    modify (fun s =>
      let (v, d) := Damper_update (fovDamper s) (logFov s) (goalLogFov s)
                      delta (Fin 1) in
      set_fovDamper d (set_logFov v s)) ;;
    moveCamera.

(** Move the camera instantly instead of accelerating toward the goal. *)
Definition jumpToGoal : Method unit := update (Fin 0) SETTLING_TIME.

Definition userAdjustOrbit (deltaTheta deltaPhi deltaZoom : num) : Method unit :=
  k <- gets sensitivity ;;
  adjustOrbit (deltaTheta * k)%js (deltaPhi * k)%js deltaZoom ;;
  modify (set_isUserChange true) ;;
  emit (change USER_INTERACTION).

Definition handleSinglePointerMove (pointer : option Pointer) : Method unit :=
  match pointer with
  | None => throw TypeError
  | Some p =>
      last <- gets lastPointerPosition ;;
      deltaTheta <- pixelLengthToSphericalAngle (clientX p - clientX last)%js ;;
      deltaPhi <- pixelLengthToSphericalAngle (clientY p - clientY last)%js ;;
      modify (set_lastPointerPosition (mkPointer (clientX p) (clientY p))) ;;
      pointing <- gets isUserPointing ;;
      when (negb pointing)
        (modify (set_isUserPointing true) ;;
         emit (pointer_change_start p)) ;;
      userAdjustOrbit deltaTheta deltaPhi (Fin 0)
  end.

Definition handleSinglePointerDown (pointer : option Pointer) : Method unit :=
  match pointer with
  | None => throw TypeError
  | Some p =>
      modify (set_lastPointerPosition (mkPointer (clientX p) (clientY p))) ;;
      modify (fun s =>
        set_element (mkElement grabbing (clientHeight (element s))
                                (isActiveElement (element s))) s)
  end.

(** The tail of [onPointerMove], after the touch/mouse branches. *)
Definition preventDefault_if_cancelable (event : Event) : Method unit :=
  when (cancelable event) (emit preventDefault).

Definition onPointerMove (event : Event) : Method unit :=
  s <- gets (fun s => s) ;;
  if negb (pointerIsDown s) || negb (canInteract s) then ret tt
  else if TOUCH_EVENT_RE_test (type event) then
    match touchMode s with
    | zoom =>
        match lastTouches s with
        | None => throw TypeError
        | Some lastTouches =>
            match lastTouches, touches event with
            | l0 :: l1 :: _, t0 :: t1 :: _ =>
                let lastTouchDistance := twoTouchDistance l0 l1 in
                let touchDistance := twoTouchDistance t0 t1 in
                let deltaZoom :=
                  (ZOOM_SENSITIVITY * (lastTouchDistance - touchDistance)
                   / Fin 10)%js in
                userAdjustOrbit (Fin 0) (Fin 0) deltaZoom
            | _, _ => ret tt
            end
        end ;;
        modify (set_lastTouches (Some (touches event))) ;;
        preventDefault_if_cancelable event
    | rotate =>
        let touchAction := touchAction (_options s) in
        let move :=
          handleSinglePointerMove (nth_error (touches event) 0) ;;
          modify (set_lastTouches (Some (touches event))) ;;
          preventDefault_if_cancelable event in
        if negb (touchDecided s) &&
           match touchAction with none => false | _ => true end
        then
          modify (set_touchDecided true) ;;
          match nth_error (touches event) 0 with
          | None => throw TypeError
          | Some t0 =>
              let last := lastPointerPosition s in
              let dx := Math_abs (clientX t0 - clientX last)%js in
              let dy := Math_abs (clientY t0 - clientY last)%js in
              (* If motion is mostly vertical, assume scrolling is the
                 intent. *)
              if match touchAction with
                 | pan_y => (dy >? dx)%js
                 | pan_x => (dx >? dy)%js
                 | none => false
                 end
              then modify (set_touchMode scroll)
              else move
          end
        else move
    | scroll => ret tt
    end
  else
    handleSinglePointerMove (Some (pointer event)) ;;
    preventDefault_if_cancelable event.

Definition onPointerDown (event : Event) : Method unit :=
  modify (set_pointerIsDown true) ;;
  modify (set_isUserPointing false) ;;
  if TOUCH_EVENT_RE_test (type event) then
    modify (set_touchDecided false) ;;
    match touches event with
    | [_; _] =>
        dz <- gets _disableZoom ;;
        modify (set_touchMode (if dz then scroll else zoom))
    | ts =>
        modify (set_touchMode rotate) ;;
        handleSinglePointerDown (nth_error ts 0)
    end ;;
    modify (set_lastTouches (Some (touches event)))
  else
    handleSinglePointerDown (Some (pointer event)).

Definition onPointerUp (_event : Event) : Method unit :=
  modify (fun s =>
    set_element (mkElement grab (clientHeight (element s))
                           (isActiveElement (element s))) s) ;;
  modify (set_pointerIsDown false) ;;
  pointing <- gets isUserPointing ;;
  when pointing
    (last <- gets lastPointerPosition ;;
     emit (pointer_change_end last)).

Definition onWheel (event : Event) : Method unit :=
  s <- gets (fun s => s) ;;
  if negb (canInteract s) then ret tt
  else
    let deltaZoom :=
      (deltaY event * (if (deltaMode event =? 1)%Z then Fin 18 else Fin 1)
       * ZOOM_SENSITIVITY / Fin 30)%js in
    userAdjustOrbit (Fin 0) (Fin 0) deltaZoom ;;
    preventDefault_if_cancelable event.

Definition onKeyDown (event : Event) : Method unit :=
  (* We track if the key is actually one we respond to, so as not to
     accidentally clobber unrelated key inputs. *)
  let k := keyCode event in
  (if (k =? KeyCode.PAGE_UP)%Z then
     userAdjustOrbit (Fin 0) (Fin 0) ZOOM_SENSITIVITY ;; ret true
   else if (k =? KeyCode.PAGE_DOWN)%Z then
     userAdjustOrbit (Fin 0) (Fin 0) (Fin (-1) * ZOOM_SENSITIVITY)%js ;; ret true
   else if (k =? KeyCode.UP)%Z then
     userAdjustOrbit (Fin 0) (- KEYBOARD_ORBIT_INCREMENT)%js (Fin 0) ;; ret true
   else if (k =? KeyCode.DOWN)%Z then
     userAdjustOrbit (Fin 0) KEYBOARD_ORBIT_INCREMENT (Fin 0) ;; ret true
   else if (k =? KeyCode.LEFT)%Z then
     userAdjustOrbit (- KEYBOARD_ORBIT_INCREMENT)%js (Fin 0) (Fin 0) ;; ret true
   else if (k =? KeyCode.RIGHT)%Z then
     userAdjustOrbit KEYBOARD_ORBIT_INCREMENT (Fin 0) (Fin 0) ;; ret true
   else ret false) >>= fun relevantKey =>
  when (relevantKey && cancelable event) (emit preventDefault).

(** The field initialisers of the constructor. *)
Definition fresh (camera : Camera) (element : Element) : SmoothControls := {|
  camera := camera;
  element := element;
  sensitivity := Fin 1;
  _interactionEnabled := false;
  wheelListener := false;
  _disableZoom := false;
  isUserChange := false;
  isUserPointing := false;
  spherical := new_Spherical;
  goalSpherical := new_Spherical;
  thetaDamper := new_Damper;
  phiDamper := new_Damper;
  radiusDamper := new_Damper;
  fovDamper := new_Damper;
  logFov := Math_log (maximumFieldOfView DEFAULT_OPTIONS);
  goalLogFov := Math_log (maximumFieldOfView DEFAULT_OPTIONS);
  pointerIsDown := false;
  lastPointerPosition := mkPointer (Fin 0) (Fin 0);
  touchMode := rotate;
  touchDecided := false;
  lastTouches := None;
  _options := DEFAULT_OPTIONS;
  log := []
|}.

(** [new SmoothControls(camera, element)] *)
Definition constructor (camera : Camera) (element : Element)
  : completion unit * SmoothControls :=
  (_ <- setOrbit (Some (Fin 0)) (Some (Fin (PI / 2))) (Some (Fin 1)) ;;
   setFieldOfView (Fin 100) ;;
   jumpToGoal) (fresh camera element).

Definition set_cursor (c : Cursor) (s : SmoothControls) : SmoothControls :=
  set_element (mkElement c (clientHeight (element s))
                         (isActiveElement (element s))) s.

Definition enableInteraction : Method unit :=
  enabled <- gets _interactionEnabled ;;
  when (negb enabled)
    (dz <- gets _disableZoom ;;
     when (negb dz) (modify (set_wheelListener true)) ;;
     modify (set_cursor grab) ;;
     modify (set_interactionEnabled true)).

Definition disableInteraction : Method unit :=
  enabled <- gets _interactionEnabled ;;
  when enabled
    (dz <- gets _disableZoom ;;
     when (negb dz) (modify (set_wheelListener false)) ;;
     modify (set_cursor cursor_unset) ;;
     modify (set_interactionEnabled false)).

(** [set disableZoom(disable)] *)
Definition set_disableZoom_prop (disable : bool) : Method unit :=
  dz <- gets _disableZoom ;;
  when (negb (eqb dz disable))
    (modify (set_disableZoom disable) ;;
     modify (set_wheelListener (negb disable))).

Definition getCameraSpherical : Method Spherical := gets spherical.

Definition getFieldOfView : Method num := gets (fun s => fov (camera s)).

Definition updateNearFar (nearPlane farPlane : num) : Method unit :=
  modify (fun s =>
    let c := camera s in
    set_camera
      (mkCamera (position c) (rotation c) (fov c)
         (Math_max nearPlane (farPlane / Fin 1000)%js) farPlane (aspect c)
         (S (projectionUpdates c))) s).

Definition updateAspect (aspect : num) : Method unit :=
  modify (fun s =>
    let c := camera s in
    set_camera
      (mkCamera (position c) (rotation c) (fov c) (near c) (far c) aspect
         (S (projectionUpdates c))) s).

Definition setDamperDecayTime (decayMilliseconds : num) : Method unit :=
  modify (fun s => set_thetaDamper
            (Damper_setDecayTime (thetaDamper s) decayMilliseconds) s) ;;
  modify (fun s => set_phiDamper
            (Damper_setDecayTime (phiDamper s) decayMilliseconds) s) ;;
  modify (fun s => set_radiusDamper
            (Damper_setDecayTime (radiusDamper s) decayMilliseconds) s) ;;
  modify (fun s => set_fovDamper
            (Damper_setDecayTime (fovDamper s) decayMilliseconds) s).

(** A DOM event reaches the handler registered for its type, if any. *)
Definition deliver (event : Event) : Method unit :=
  s <- gets (fun s => s) ;;
  match type event with
  | mousemove | touchmove =>
      when (_interactionEnabled s) (onPointerMove event)
  | mousedown | touchstart =>
      when (_interactionEnabled s) (onPointerDown event)
  | mouseup | touchend =>
      when (_interactionEnabled s) (onPointerUp event)
  | wheel => when (wheelListener s) (onWheel event)
  | keydown => when (_interactionEnabled s) (onKeyDown event)
  end.

(** The local constants of [adjustOrbit]. *)
Definition dThetaLimit : num := (Math_PI - Fin (1 / 1000))%js.

Definition adjust_deltaRatio (o : Options) (radius l deltaZoom : num) : num :=
  if (deltaZoom === Fin 0)%js then Fin 0
  else
    (((if (deltaZoom >? Fin 0)%js then maximumRadius o else minimumRadius o)
      - radius) /
     (Math_log (if (deltaZoom >? Fin 0)%js then maximumFieldOfView o
                else minimumFieldOfView o) - l))%js.

Definition adjust_goalRadius (o : Options) (radius l deltaZoom : num) : num :=
  let deltaRatio := adjust_deltaRatio o radius l deltaZoom in
  (radius +
   deltaZoom *
     Math_min (if isFinite deltaRatio then deltaRatio else PosInf)
              (maximumRadius o - minimumRadius o))%js.

(** The steps of [update] on the object: the long-path correction of the
    current azimuth, then the four dampers. *)
Definition long_path_corrected (s : SmoothControls) : SmoothControls :=
  let o := _options s in
  let dTheta := (theta (spherical s) - theta (goalSpherical s))%js in
  if (Math_abs dTheta >? Math_PI)%js &&
     negb (isFinite (minimumAzimuthalAngle o)) &&
     negb (isFinite (maximumAzimuthalAngle o))
  then set_spherical
         (set_theta (theta (spherical s) - Math_sign dTheta * Fin 2 * Math_PI)%js
                    (spherical s)) s
  else s.

Definition damped (o : Options) (delta : num) (s : SmoothControls)
  : SmoothControls :=
  let s1 :=
    let (v, d) := Damper_update (thetaDamper s) (theta (spherical s))
                    (theta (goalSpherical s)) delta Math_PI in
    set_thetaDamper d (set_spherical (set_theta v (spherical s)) s) in
  let s2 :=
    let (v, d) := Damper_update (phiDamper s1) (phi (spherical s1))
                    (phi (goalSpherical s1)) delta (maximumPolarAngle o) in
    set_phiDamper d (set_spherical (set_phi v (spherical s1)) s1) in
  let s3 :=
    let (v, d) := Damper_update (radiusDamper s2) (radius (spherical s2))
                    (radius (goalSpherical s2)) delta (maximumRadius o) in
    set_radiusDamper d (set_spherical (set_radius v (spherical s2)) s2) in
  let (v, d) := Damper_update (fovDamper s3) (logFov s3) (goalLogFov s3)
                  delta (Fin 1) in
  set_fovDamper d (set_logFov v s3).

(** The current azimuth after the rewrite that [setOrbit] performs when the
    azimuth is unbounded. *)
Definition rewrap (o : Options) (nextTheta : num) (s : SmoothControls)
  : SmoothControls :=
  if negb (isFinite (minimumAzimuthalAngle o)) &&
     negb (isFinite (maximumAzimuthalAngle o))
  then set_spherical
         (set_theta (wrapAngle (theta (spherical s) - nextTheta) + nextTheta)%js
                    (spherical s)) s
  else s.

(** *** Gestures *)

(** What the user-facing side of the controller consists of: everything
    that the orbit methods have no business with. *)
Definition input_state (s : SmoothControls) :=
  (element s, sensitivity s, _disableZoom s, pointerIsDown s,
   isUserPointing s, lastPointerPosition s, touchMode s, touchDecided s,
   lastTouches s, interactionPolicy (_options s), touchAction (_options s)).

(** The orbit: goal and current spherical state and log-FOV. *)
Definition orbit (s : SmoothControls) :=
  (goalSpherical s, spherical s, goalLogFov s, logFov s).

(** The touch intent of the gesture in progress: whether it is decided,
    and the mode. *)
Definition intent (s : SmoothControls) : bool * TouchMode :=
  (touchDecided s, touchMode s).

Definition TouchMode_eqb (a b : TouchMode) : bool :=
  match a, b with
  | rotate, rotate | zoom, zoom | scroll, scroll => true
  | _, _ => false
  end.

Definition intent_eqb (a b : bool * TouchMode) : bool :=
  eqb (fst a) (fst b) && TouchMode_eqb (snd a) (snd b).

(** The controller after a handler has seen the events one by one; an
    exception thrown by the handler ends that call only. *)
Fixpoint handle_all (h : Event -> Method unit) (events : list Event)
    (s : SmoothControls) : SmoothControls :=
  match events with
  | [] => s
  | e :: rest => handle_all h rest (exec (h e) s)
  end.

(** How many of the events change the touch intent. *)
Fixpoint intent_changes (h : Event -> Method unit) (events : list Event)
    (s : SmoothControls) : nat :=
  match events with
  | [] => 0
  | e :: rest =>
      let s' := exec (h e) s in
      ((if intent_eqb (intent s) (intent s') then 0 else 1)
       + intent_changes h rest s')%nat
  end.

(** *** The public operations, as a caller issues them *)

Inductive Operation : Type :=
| op_setOrbit (goalTheta goalPhi goalRadius : option num)
| op_adjustOrbit (deltaTheta deltaPhi deltaZoom : num)
| op_setRadius (radius : num)
| op_setFieldOfView (fov : num)
| op_applyOptions (options : PartialOptions)
| op_update (time delta : num).

Definition run (op : Operation) : Method unit :=
  match op with
  | op_setOrbit t p r => _ <- setOrbit t p r ;; ret tt
  | op_adjustOrbit t p z => adjustOrbit t p z
  | op_setRadius r => setRadius r
  | op_setFieldOfView f => setFieldOfView f
  | op_applyOptions o => applyOptions o
  | op_update t d => update t d
  end.

(** The polar inputs of an operation are numbers (not [NaN]). *)
Definition number_or_omitted (a : option num) : Prop :=
  match a with Some v => is_number v | None => True end.

Definition polar_inputs_are_numbers (op : Operation) : Prop :=
  match op with
  | op_setOrbit _ p _ => number_or_omitted p
  | op_adjustOrbit _ p _ => is_number p
  | op_applyOptions o =>
      number_or_omitted (p_minimumPolarAngle o) /\
      number_or_omitted (p_maximumPolarAngle o)
  | op_update _ d => is_number d
  | _ => True
  end.

(** The states a caller can bring a controller into. *)
Inductive reachable : SmoothControls -> Prop :=
| reach_new (camera : Camera) (element : Element) :
    reachable (snd (constructor camera element))
| reach_op (s : SmoothControls) (op : Operation) :
    reachable s -> polar_inputs_are_numbers op ->
    reachable (exec (run op) s).

(** A damper that is handed numbers returns a number. *)
Definition damper_returns_numbers : Prop :=
  forall (d : Damper) (x xGoal dt scale : num),
    is_number x -> is_number xGoal -> is_number dt -> is_number scale ->
    is_number (fst (Damper_update d x xGoal dt scale)).

(** A damper does not overshoot: between real numbers, for a time step
    that is a number, it returns a real number between where it was and
    the goal. *)
Definition damper_does_not_overshoot : Prop :=
  forall (d : Damper) (x xGoal : R) (dt scale : num),
    is_number dt ->
    exists r : R,
      fst (Damper_update d (Fin x) (Fin xGoal) dt scale) = Fin r /\
      Rmin x xGoal <= r <= Rmax x xGoal.

(** The bounds of an axis are out of order: [min > max]. *)
Definition out_of_order (lo hi : num) : Prop := (lo >? hi)%js = true.

Definition spherical_bounds_out_of_order (o : Options) : Prop :=
  out_of_order (minimumAzimuthalAngle o) (maximumAzimuthalAngle o) \/
  out_of_order (minimumPolarAngle o) (maximumPolarAngle o) \/
  out_of_order (minimumRadius o) (maximumRadius o).

Definition fov_bounds_out_of_order (o : Options) : Prop :=
  out_of_order (minimumFieldOfView o) (maximumFieldOfView o).

(** The polar angle is a real number in the closed safe range. *)
Definition safe_polar (p : num) : Prop :=
  exists r : R, p = Fin r /\ EPS <= r <= PI - EPS.

Definition polar_safe (s : SmoothControls) : Prop :=
  safe_polar (phi (goalSpherical s)) /\ safe_polar (phi (spherical s)).

(** The invariant behind it: both polar angles are safe, and the polar
    bounds are numbers. *)
Definition polar_inv (s : SmoothControls) : Prop :=
  polar_safe s /\
  is_number (minimumPolarAngle (_options s)) /\
  is_number (maximumPolarAngle (_options s)).

End Controls.

(** A camera and an element to construct concrete controllers with. *)
Definition sample_camera : Camera :=
  mkCamera new_Spherical (mkEuler (Fin 0) (Fin 0) (Fin 0))
           (Fin 45) (Fin (1 / 10)) (Fin 1000) (Fin 1) 0.

Definition sample_element (focused : bool) : Element :=
  mkElement cursor_unset (Fin 300) focused.

(** A newly constructed controller. *)
Definition constructed_with (damper : DamperClass) (focused : bool)
  : SmoothControls :=
  snd (constructor sample_camera (sample_element focused)).

(** The clamp of a real value between real bounds. *)
Definition clampR (v lo hi : R) : R := Rmax lo (Rmin hi v).

(** The extreme that a zoom step [z] heads for: the maximum when zooming
    out ([z > 0]), the minimum when zooming in. *)
Definition heading (z lo hi : R) : R := if Rltb 0 z then hi else lo.

(** The bounds of an axis are in order ([min > max] is what [clamp]
    reports). *)
Definition ordered (lo hi : num) : Prop := le lo hi.


(** [{minimumAzimuthalAngle: 10, maximumAzimuthalAngle: 11}] *)
Definition azimuth_10_to_11 : PartialOptions :=
  mkPartial None None None None (Some (Fin 10)) (Some (Fin 11))
            None None None None.

(** [{interactionPolicy: 'allow-when-focused'}] *)
Definition focus_gated : PartialOptions :=
  mkPartial None None None None None None None None
            (Some allow_when_focused) None.

(** A [keydown] event, a [wheel] event, and a touch event with its touch
    points. *)
Definition key_event (code : Z) : Event :=
  mkEvent keydown (mkPointer (Fin 0) (Fin 0)) [] (Fin 0) 0 code true.

Definition wheel_event (deltaY : num) : Event :=
  mkEvent wheel (mkPointer (Fin 0) (Fin 0)) [] deltaY 0 0 true.

Definition touch_event (t : EventType) (cancelable : bool)
    (touches : list Pointer) : Event :=
  mkEvent t (mkPointer (Fin 0) (Fin 0)) touches (Fin 0) 0 0 cancelable.

Definition touch_moves (moves : list (bool * list Pointer)) : list Event :=
  map (fun m => touch_event touchmove (fst m) (snd m)) moves.

(** [{minimumPolarAngle: 2, maximumPolarAngle: 1}] *)
Definition polar_upside_down : PartialOptions :=
  mkPartial None None (Some (Fin 2)) (Some (Fin 1)) None None
            None None None None.

(** [{maximumRadius: 2}] *)
Definition radius_up_to_2 : PartialOptions :=
  mkPartial None (Some (Fin 2)) None None None None None None None None.

(** [{minimumPolarAngle: 0}] *)
Definition polar_from_pole : PartialOptions :=
  mkPartial None None (Some (Fin 0)) None None None None None None None.

(** The simplest implementation of the damper interface: it settles on the
    goal at once and keeps no velocity.  It serves to run the controller on
    concrete inputs. *)
#[export] Instance snapDamper : DamperClass := {|
  Damper := unit;
  new_Damper := tt;
  Damper_update := fun d _ xGoal _ _ => (xGoal, d);
  Damper_setDecayTime := fun d _ => d;
  SETTLING_TIME := Fin 10000
|}.

Definition constructed (focused : bool) : SmoothControls :=
  constructed_with snapDamper focused.

(** A controller whose current azimuth is 3 while its goal azimuth is -3:
    the two are 6 radians apart through 0, and 2 pi - 6 apart through the
    seam at pi. *)
Definition across_the_seam : SmoothControls :=
  set_spherical (mkSpherical (Fin 1) (Fin (PI / 2)) (Fin 3))
    (set_goalSpherical (mkSpherical (Fin 1) (Fin (PI / 2)) (Fin (-3)))
       (constructed true)).

(* ================================================================== *)
(** ** Further notions about the controller *)

Section Notions.

Context {damper : DamperClass}.

(** [v] lies between the bounds [lo] and [hi] (and is a number). *)
Definition within (lo v hi : num) : Prop := le lo v /\ le v hi.

(** The key codes that [onKeyDown] responds to. *)
Definition relevant_key (k : Z) : bool :=
  (k =? KeyCode.PAGE_UP)%Z || (k =? KeyCode.PAGE_DOWN)%Z ||
  (k =? KeyCode.UP)%Z || (k =? KeyCode.DOWN)%Z ||
  (k =? KeyCode.LEFT)%Z || (k =? KeyCode.RIGHT)%Z.

(** How many [pointer-change-start] and [pointer-change-end] events were
    dispatched. *)
Fixpoint count_starts (l : list Effect) : nat :=
  match l with
  | [] => 0
  | pointer_change_start _ :: rest => S (count_starts rest)
  | _ :: rest => count_starts rest
  end.

Fixpoint count_ends (l : list Effect) : nat :=
  match l with
  | [] => 0
  | pointer_change_end _ :: rest => S (count_ends rest)
  | _ :: rest => count_ends rest
  end.

(** The [wheel] listener is registered exactly when interaction is enabled
    and zoom is not disabled. *)
Definition wheel_listener_in_step (s : SmoothControls) : Prop :=
  wheelListener s = _interactionEnabled s && negb (_disableZoom s).

(** A damper that has settled after [SETTLING_TIME]: for that time step it
    returns the goal. *)
Definition damper_settles : Prop :=
  forall (d : Damper) (x xGoal scale : num),
    fst (Damper_update d x xGoal SETTLING_TIME scale) = xGoal.

(** A method keeps an invariant [P] of the object, however it completes. *)
Definition keeps {B} (P : SmoothControls -> Prop) (m : Method B) : Prop :=
  forall s, P s -> P (exec m s).

(** The tally of a gesture in progress: since the pointer went down, with
    [n] start events and [e] end events dispatched before, one more start
    event was dispatched exactly if the user is pointing, and no end
    event. *)
Definition pointing_tally (n e : nat) (s : SmoothControls) : Prop :=
  count_starts (log s) = (n + if isUserPointing s then 1 else 0)%nat /\
  count_ends (log s) = e.

(** What the tally depends on. *)
Definition tally_state (s : SmoothControls) : bool * nat * nat :=
  (isUserPointing s, count_starts (log s), count_ends (log s)).

(** What is registered on the element, and what the controller is bound
    to. *)
Definition bindings (s : SmoothControls) : bool * bool * Element * num :=
  (_interactionEnabled s, wheelListener s, element s, sensitivity s).

(** A gesture: a pointer goes down, moves, and goes up. *)
Definition gesture (down : Event) (moves : list Event) (up : Event)
    (s : SmoothControls) : SmoothControls :=
  exec (onPointerUp up)
    (handle_all onPointerMove moves (exec (onPointerDown down) s)).

End Notions.

(** A [mousemove] event at a position. *)
Definition mouse_event (t : EventType) (cancelable : bool) (p : Pointer) : Event :=
  mkEvent t p [] (Fin 0) 0 0 cancelable.

(* ================================================================== *)
(** * The product catalogue of the web application

    [ProductService] (ARProject.Services) and the controller actions that
    use it.  A C# [int] is embedded as an integer (the identifiers are only
    compared), a [string] as an optional string ([None] is [null]), a
    [List<Product>] as a list, and a reference that may be [null] as an
    option. *)

Section Catalogue.

Import String.

Record Product : Type := mkProduct {
  Id : Z;
  Source : option String.string;
  IOSSource : option String.string;
  Image : option String.string;
  QRSource : option String.string
}.

(** [source.Where(predicate)] *)
Definition Where {A} (source : list A) (predicate : A -> bool) : list A :=
  filter predicate source.

(** [source.FirstOrDefault()] of a sequence of references: the first
    element, or [null]. *)
Definition FirstOrDefault {A} (source : list A) : option A :=
  match source with
  | [] => None
  | a :: _ => Some a
  end.

(** [a ?? b] *)
Definition coalesce {A} (a : option A) (b : A) : A :=
  match a with Some v => v | None => b end.

(** An instance of [ProductService]: its private list of products. *)
Record ProductService : Type := mkProductService {
  products : list Product
}.

(** [new ProductService()] *)
Definition new_ProductService : ProductService := {|
  products := [
    {| Id := 1;
       Source := Some "https://cdn.glitch.com/36cb8393-65c6-408d-a538-055ada20431b/Astronaut.glb?1542147958948"%string;
       IOSSource := Some "https://cdn.glitch.com/36cb8393-65c6-408d-a538-055ada20431b/Astronaut.usdz?v=1569545377878"%string;
       Image := Some "https://cdn.glitch.com/36cb8393-65c6-408d-a538-055ada20431b%2Fposter-astronaut.png?v=1599079951717"%string;
       QRSource := Some "https://api.qrserver.com/v1/create-qr-code/?data=https://192.168.0.98:44352/Product/1&amp;size=100x100"%string |};
    {| Id := 2;
       Source := Some ""%string;
       IOSSource := Some ""%string;
       Image := Some "https://images.freeimages.com/images/large-previews/fde/aliens-1-1373417.jpg"%string;
       QRSource := Some "https://api.qrserver.com/v1/create-qr-code/?data=https://192.168.0.98:44352/Product/2&amp;size=100x100"%string |};
    {| Id := 3;
       Source := Some ""%string;
       IOSSource := Some ""%string;
       Image := Some "https://images.sadhguru.org/sites/default/files/media_files/iso/en/64083-natures-temples.jpg"%string;
       QRSource := Some "https://api.qrserver.com/v1/create-qr-code/?data=https://192.168.0.98:44352/Product/3&amp;size=100x100"%string |}
  ]
|}.

(** The product that stands for "not found". *)
Definition not_found : Product := {|
  Id := -1;
  Source := Some ""%string;
  IOSSource := Some ""%string;
  Image := Some ""%string;
  QRSource := None
|}.

Definition GetProductById (this : ProductService) (id : Z) : Product :=
  coalesce (FirstOrDefault (Where (products this) (fun p => (Id p =? id)%Z)))
           not_found.

Definition GetAll (this : ProductService) : list Product := products this.

(** [View(model)]: the result of an action is the model it hands to its
    view. *)
Record ViewResult (A : Type) : Type := View { Model : A }.

(** [ProductController.Details] *)
Definition Details (_productService : ProductService) (id : Z)
  : ViewResult Product :=
  let product := GetProductById _productService id in
  View product.

(** [HomeController.Index]: [new List<Product>(...)] copies the sequence. *)
Definition Index (_productService : ProductService)
  : ViewResult (list Product) :=
  let products := GetAll _productService in
  View products.

End Catalogue.
(* ================================================================== *)
(** ** Facts about the numbers *)

Lemma Rltb_true a b : Rltb a b = true <-> (a < b)%R.
Proof. unfold Rltb; destruct (Rlt_dec a b); split; intros; try easy. Qed.

Lemma Rltb_false a b : Rltb a b = false <-> (b <= a)%R.
Proof.
  unfold Rltb; destruct (Rlt_dec a b); split; intros; try easy; lra.
Qed.

Lemma Reqb_true a b : Reqb a b = true <-> a = b.
Proof. unfold Reqb; destruct (Req_dec_T a b); split; intros; easy. Qed.

Lemma Reqb_false a b : Reqb a b = false <-> a <> b.
Proof. unfold Reqb; destruct (Req_dec_T a b); split; intros; easy. Qed.

Lemma Reqb_refl a : Reqb a a = true.
Proof. now apply Reqb_true. Qed.

Lemma le_trans (a b c : num) : le a b -> le b c -> le a c.
Proof. destruct a, b, c; cbn; intros; try easy; lra. Qed.

Lemma le_not_gt (a b : num) : le a b -> (a >? b)%js = false.
Proof.
  destruct a, b; cbn; intros H; try easy. apply Rltb_false. lra.
Qed.

Lemma clamp_throws (v lo hi : num) :
  (lo >? hi)%js = true -> clamp v lo hi = Throw ConfigError.
Proof. unfold clamp. now intros ->. Qed.

(** [clamp] within ordered bounds: the result lies between them, and a
    value already between them is returned as it is. *)
Lemma clamp_spec (v lo hi : num) :
  le lo hi -> is_number v ->
  exists c, clamp v lo hi = Normal c /\ le lo c /\ le c hi /\
            (le lo v -> le v hi -> c = v).
Proof.
  intros H Hv. unfold clamp. rewrite (le_not_gt _ _ H).
  eexists; split; [reflexivity|].
  destruct v, lo, hi; cbn in *; try easy; unfold is_number in *;
    repeat match goal with
    | |- context [Rltb ?a ?b] =>
        let E := fresh "E" in
        destruct (Rltb a b) eqn:E;
        [apply Rltb_true in E | apply Rltb_false in E]; cbn
    end;
    repeat split; intros; try easy; try lra; try (f_equal; lra).
Qed.

Lemma clamp_normal (v lo hi : num) :
  (lo >? hi)%js = false ->
  clamp v lo hi = Normal (Math_max lo (Math_min hi v)).
Proof. unfold clamp. now intros ->. Qed.

Lemma strict_eq_true (a b : num) : (a === b)%js = true -> a = b.
Proof.
  destruct a, b; cbn; intros H; try easy.
  apply Reqb_true in H. now subst.
Qed.

(** Clamping a real value into bounds that contain [c] keeps it in every
    interval around [c] that it was in. *)
Lemma clamp_towards (lo hi : num) (c v a b : R) :
  le lo (Fin c) -> le (Fin c) hi -> a <= c <= b -> a <= v <= b ->
  exists n, clamp (Fin v) lo hi = Normal (Fin n) /\ a <= n <= b /\
            (lo = NegInf -> hi = PosInf -> n = v).
Proof.
  intros Hlo Hhi Hc Hv.
  assert (H : le lo hi) by (eapply le_trans; eauto).
  rewrite clamp_normal by now apply le_not_gt.
  destruct lo as [| | |l], hi as [| | |h]; cbn in *; try easy;
    repeat match goal with
    | |- context [Rltb ?x ?y] =>
        let E := fresh "E" in
        destruct (Rltb x y) eqn:E;
        [apply Rltb_true in E | apply Rltb_false in E]; cbn
    end;
    eexists; (split; [reflexivity|]); (split; [lra|]); try easy.
Qed.

Lemma PI_bounds : 3 < PI <= 4.
Proof. pose proof PI2_3_2. pose proof PI_4. lra. Qed.

Lemma two_PI_neq_0 : 2 * PI <> 0.
Proof. pose proof PI_RGT_0; lra. Qed.

Lemma Reqb_two_PI : Reqb (2 * PI) 0 = false.
Proof. apply Reqb_false, two_PI_neq_0. Qed.

(** [wrapAngle] on a real angle, in closed form. *)
Lemma wrapAngle_Fin (x : R) :
  wrapAngle (Fin x) =
  Fin (x - 2 * PI * IZR (Zfloor ((x + PI) / (2 * PI)))).
Proof.
  unfold wrapAngle, Math_PI; cbn.
  rewrite Reqb_two_PI; cbn.
  f_equal. field. pose proof PI_RGT_0; lra.
Qed.

Lemma wrapAngle_range (x : R) :
  let r := x - 2 * PI * IZR (Zfloor ((x + PI) / (2 * PI))) in
  - PI <= r < PI.
Proof.
  intros r; subst r.
  pose proof PI_RGT_0 as Hpi.
  pose proof (Zfloor_bound ((x + PI) / (2 * PI))) as [Hlo Hhi].
  set (k := IZR (Zfloor ((x + PI) / (2 * PI)))) in *.
  assert (E : x + PI = (x + PI) / (2 * PI) * (2 * PI)) by (field; lra).
  split.
  - apply Rmult_le_compat_r with (r := 2 * PI) in Hlo; lra.
  - apply Rmult_lt_compat_r with (r := 2 * PI) in Hhi; lra.
Qed.

(** An angle already in [[-pi, pi)] is left alone. *)
Lemma wrapAngle_id (x : R) : - PI <= x < PI -> wrapAngle (Fin x) = Fin x.
Proof.
  intros [Hlo Hhi]. rewrite wrapAngle_Fin. f_equal.
  pose proof PI_RGT_0 as Hpi.
  assert (Zfloor ((x + PI) / (2 * PI)) = 0%Z) as ->.
  { apply Zfloor_eq. simpl. split.
    - apply Rmult_le_reg_r with (r := 2 * PI); [lra|].
      unfold Rdiv. rewrite Rmult_assoc, Rinv_l by lra. lra.
    - apply Rmult_lt_reg_r with (r := 2 * PI); [lra|].
      unfold Rdiv. rewrite Rmult_assoc, Rinv_l by lra. lra. }
  simpl. lra.
Qed.

(* ================================================================== *)
(** ** wrapAngle *)

(** C5, as stated, fails at the seam: [wrapAngle(pi)] is [-pi], which is
    outside the half-open interval (-pi, pi]. *)
Lemma wrapAngle_PI_outside :
  wrapAngle (Fin PI) = Fin (- PI) /\
  ~ (exists r, wrapAngle (Fin PI) = Fin r /\ - PI < r <= PI).
Proof.
  pose proof PI_RGT_0 as Hpi.
  assert (E : wrapAngle (Fin PI) = Fin (- PI)).
  { rewrite wrapAngle_Fin. f_equal.
    assert ((PI + PI) / (2 * PI) = IZR 1) as -> by (simpl; field; lra).
    rewrite ZfloorZ. simpl. lra. }
  split; [exact E|].
  intros (r & Hr & Hlo & _). rewrite E in Hr. injection Hr as <-. lra.
Qed.

(** C5 (amended): for every real angle [x], [wrapAngle x] is a real angle in
    the half-open interval [-pi, pi) (closed at -pi, open at pi) that
    differs from [x] by an integer multiple of 2 pi. *)
Theorem wrapAngle_spec (x : R) :
  exists (r : R) (k : Z),
    wrapAngle (Fin x) = Fin r /\ - PI <= r < PI /\ r = x - 2 * PI * IZR k.
Proof.
  exists (x - 2 * PI * IZR (Zfloor ((x + PI) / (2 * PI)))),
         (Zfloor ((x + PI) / (2 * PI))).
  split; [apply wrapAngle_Fin|].
  split; [apply wrapAngle_range|reflexivity].
Qed.

(* ================================================================== *)
(** ** setOrbit *)

Section SetOrbit.

Context {damper : DamperClass}.

(** [setOrbit], one clamp after the other. *)
Lemma setOrbit_eq (gT gP gR : option num) (s : SmoothControls) :
  setOrbit gT gP gR s =
  let g := goalSpherical s in
  let o := _options s in
  match clamp (or_default gT (theta g))
              (minimumAzimuthalAngle o) (maximumAzimuthalAngle o) with
  | Throw e => (Throw e, s)
  | Normal nextTheta =>
      let s1 := rewrap o nextTheta s in
      match clamp (or_default gP (phi g))
                  (minimumPolarAngle o) (maximumPolarAngle o) with
      | Throw e => (Throw e, s1)
      | Normal nextPhi =>
          match clamp (or_default gR (radius g))
                      (minimumRadius o) (maximumRadius o) with
          | Throw e => (Throw e, s1)
          | Normal nextRadius =>
              if (nextTheta === theta g)%js && (nextPhi === phi g)%js &&
                 (nextRadius === radius g)%js
              then (Normal false, s1)
              else (Normal true,
                    set_isUserChange false
                      (set_goalSpherical
                         (makeSafe (mkSpherical nextRadius nextPhi nextTheta))
                         s1))
          end
      end
  end.
Proof.
  unfold setOrbit, bind, gets, call, when, modify, ret, rewrap; cbn.
  destruct (clamp _ (minimumAzimuthalAngle _) _); [|reflexivity].
  destruct (negb _ && negb _); cbn;
    destruct (clamp _ (minimumPolarAngle _) _); try reflexivity;
    destruct (clamp _ (minimumRadius _) _); try reflexivity;
    destruct (_ && _ && _); reflexivity.
Qed.

Lemma setFieldOfView_eq (f : num) (s : SmoothControls) :
  setFieldOfView f s =
  match clamp f (minimumFieldOfView (_options s))
                (maximumFieldOfView (_options s)) with
  | Throw e => (Throw e, s)
  | Normal v => (Normal tt, set_goalLogFov (Math_log v) s)
  end.
Proof.
  unfold setFieldOfView, bind, gets, call, modify; cbn.
  destruct (clamp _ _ _); reflexivity.
Qed.

Lemma applyOptions_eq (p : PartialOptions) (s : SmoothControls) :
  applyOptions p s =
  let s1 := set_options (Object_assign (_options s) p) s in
  match setOrbit None None None s1 with
  | (Throw e, s2) => (Throw e, s2)
  | (Normal _, s2) => setFieldOfView (Math_exp (goalLogFov s2)) s2
  end.
Proof.
  unfold applyOptions, bind, gets, modify; cbv beta iota zeta.
  match goal with
  | |- context [setOrbit None None None ?x] =>
      destruct (setOrbit None None None x) as [[b|e] s2]; reflexivity
  end.
Qed.

Lemma adjustOrbit_eq (deltaTheta deltaPhi deltaZoom : num) (s : SmoothControls) :
  adjustOrbit deltaTheta deltaPhi deltaZoom s =
  let g := goalSpherical s in
  let dTheta := (theta (spherical s) - theta g)%js in
  match clamp deltaTheta (- dThetaLimit - dTheta)%js
                         (dThetaLimit - dTheta)%js with
  | Throw e => (Throw e, s)
  | Normal c =>
      match setOrbit (Some (theta g - c)%js) (Some (phi g - deltaPhi)%js)
                     (Some (adjust_goalRadius (_options s) (radius g)
                                              (goalLogFov s) deltaZoom)) s with
      | (Throw e, s1) => (Throw e, s1)
      | (Normal _, s1) =>
          if (deltaZoom !== Fin 0)%js
          then setFieldOfView (Math_exp (goalLogFov s1 + deltaZoom)%js) s1
          else (Normal tt, s1)
      end
  end.
Proof.
  unfold adjustOrbit, bind, gets, call, when, ret; cbv beta iota zeta.
  fold dThetaLimit.
  destruct (clamp deltaTheta _ _) as [c|]; [|reflexivity].
  unfold adjust_goalRadius, adjust_deltaRatio.
  destruct (setOrbit _ _ _ s) as [[b|e] s1]; [|reflexivity].
  destruct (deltaZoom !== Fin 0)%js; reflexivity.
Qed.

Lemma moveCamera_current (s : SmoothControls) :
  result moveCamera s = Normal tt /\
  spherical (exec moveCamera s) = makeSafe (spherical s) /\
  goalSpherical (exec moveCamera s) = goalSpherical s /\
  logFov (exec moveCamera s) = logFov s /\
  goalLogFov (exec moveCamera s) = goalLogFov s /\
  _options (exec moveCamera s) = _options s.
Proof.
  unfold result, exec, moveCamera, bind, gets, modify, when, emit; cbn.
  destruct (_ !== _)%js; cbn; auto 10.
Qed.

Lemma update_eq (time delta : num) (s : SmoothControls) :
  update time delta s =
  if isStationary s then (Normal tt, s)
  else moveCamera (damped (_options s) delta (long_path_corrected s)).
Proof.
  unfold update, bind, gets, ret; cbn.
  destruct (isStationary s); [reflexivity|].
  unfold long_path_corrected, damped, when, modify, ret; cbn.
  destruct (_ && _ && _); cbn;
    repeat match goal with
    | |- context [Damper_update ?a ?b ?c ?d ?e] =>
        destruct (Damper_update a b c d e); cbn
    end; reflexivity.
Qed.

Lemma clamp_unbounded (v : num) : clamp v NegInf PosInf = Normal v.
Proof. destruct v; reflexivity. Qed.

(** [setOrbit] touches the current state in its azimuth only. *)
Lemma setOrbit_current_frame (gT gP gR : option num) (s : SmoothControls) :
  let s' := exec (setOrbit gT gP gR) s in
  phi (spherical s') = phi (spherical s) /\
  radius (spherical s') = radius (spherical s) /\
  logFov s' = logFov s.
Proof.
  unfold exec. rewrite setOrbit_eq. cbv zeta.
  assert (F : forall o n,
             phi (spherical (rewrap o n s)) = phi (spherical s) /\
             radius (spherical (rewrap o n s)) = radius (spherical s) /\
             logFov (rewrap o n s) = logFov s).
  { intros o n. unfold rewrap. destruct (_ && _); cbn; auto. }
  destruct (clamp _ (minimumAzimuthalAngle _) _) as [nT|]; cbn; auto.
  destruct (clamp _ (minimumPolarAngle _) _) as [nP|]; cbn; auto.
  destruct (clamp _ (minimumRadius _) _) as [nR|]; cbn; auto.
  destruct (_ && _ && _); cbn; auto.
Qed.

(** What a [setOrbit] call whose three clamps succeed leaves behind. *)
Lemma setOrbit_post (gT gP gR : option num) (s : SmoothControls)
    (nT nP nR : num) :
  let g := goalSpherical s in
  let o := _options s in
  clamp (or_default gT (theta g))
        (minimumAzimuthalAngle o) (maximumAzimuthalAngle o) = Normal nT ->
  clamp (or_default gP (phi g))
        (minimumPolarAngle o) (maximumPolarAngle o) = Normal nP ->
  clamp (or_default gR (radius g))
        (minimumRadius o) (maximumRadius o) = Normal nR ->
  let s' := exec (setOrbit gT gP gR) s in
  exists b : bool,
    result (setOrbit gT gP gR) s = Normal b /\
    theta (goalSpherical s') = nT /\
    radius (goalSpherical s') = nR /\
    phi (goalSpherical s') =
      (if b then phi (makeSafe (mkSpherical nR nP nT)) else phi g) /\
    (b = false -> phi g = nP) /\
    spherical s' = spherical (rewrap o nT s) /\
    goalLogFov s' = goalLogFov s /\
    logFov s' = logFov s /\
    _options s' = _options s.
Proof.
  intros g o HT HP HR s'. subst s'. unfold exec, result.
  rewrite setOrbit_eq. cbv zeta. fold g o. rewrite HT, HP, HR.
  assert (F : goalLogFov (rewrap o nT s) = goalLogFov s /\
              logFov (rewrap o nT s) = logFov s /\
              _options (rewrap o nT s) = _options s /\
              goalSpherical (rewrap o nT s) = g).
  { unfold rewrap. destruct (_ && _); cbn; auto. }
  destruct F as (F1 & F2 & F3 & F4).
  destruct (_ && _ && _) eqn:E.
  - exists false. cbn.
    apply andb_prop in E as [E E3]. apply andb_prop in E as [E1 E2].
    apply strict_eq_true in E1, E2, E3. rewrite F4.
    repeat split; auto.
  - exists true. cbn. repeat split; auto. discriminate.
Qed.

(** C10: with both azimuth bounds infinite (the azimuth ranges over
    -Infinity .. Infinity) and real current and requested azimuths, every
    [setOrbit] call, however it completes (also when it returns [false]),
    rewrites the current azimuth by an integer multiple of 2 pi, chosen so
    that it is within pi of the new goal azimuth (their difference lies in
    [-pi, pi)); it modifies no other component of the current state (polar
    angle, radius, log-FOV); and when the call returns, the goal azimuth
    is the requested one. *)
Theorem setOrbit_rewrites_current_by_full_turns
    (gT gP gR : option num) (s : SmoothControls) (c t : R) :
  minimumAzimuthalAngle (_options s) = NegInf ->
  maximumAzimuthalAngle (_options s) = PosInf ->
  theta (spherical s) = Fin c ->
  or_default gT (theta (goalSpherical s)) = Fin t ->
  let s' := exec (setOrbit gT gP gR) s in
  (exists k : Z,
      theta (spherical s') = Fin (c - 2 * PI * IZR k) /\
      - PI <= (c - 2 * PI * IZR k) - t < PI) /\
  phi (spherical s') = phi (spherical s) /\
  radius (spherical s') = radius (spherical s) /\
  logFov s' = logFov s /\
  (forall b, result (setOrbit gT gP gR) s = Normal b ->
             theta (goalSpherical s') = Fin t).
Proof.
  intros Hmin Hmax Hc Ht s'.
  split; [|split; [|split; [|split]]];
    try apply (setOrbit_current_frame gT gP gR s).
  - subst s'. unfold exec. rewrite setOrbit_eq. cbv zeta.
    rewrite Hmin, Hmax, Ht, clamp_unbounded.
    assert (E : theta (spherical (rewrap (_options s) (Fin t) s)) =
                Fin (c - 2 * PI * IZR (Zfloor ((c - t + PI) / (2 * PI))))).
    { unfold rewrap. rewrite Hmin, Hmax, Hc. cbn.
      replace (c + - t) with (c - t) by lra.
      rewrite wrapAngle_Fin. cbn. f_equal. lra. }
    exists (Zfloor ((c - t + PI) / (2 * PI))).
    split.
    + destruct (clamp _ (minimumPolarAngle _) _) as [nP|]; cbn; auto.
      destruct (clamp _ (minimumRadius _) _) as [nR|]; cbn; auto.
      destruct (_ && _ && _); cbn; auto.
    + pose proof (wrapAngle_range (c - t)) as H. cbv zeta in H. lra.
  - intros b. subst s'. unfold exec, result. rewrite setOrbit_eq. cbv zeta.
    rewrite Hmin, Hmax, Ht, clamp_unbounded.
    destruct (clamp _ (minimumPolarAngle _) _) as [nP|]; cbn; [|discriminate].
    destruct (clamp _ (minimumRadius _) _) as [nR|]; cbn; [|discriminate].
    destruct (_ && _ && _) eqn:E; cbn; auto.
    intros _.
    apply andb_prop in E as [E _]. apply andb_prop in E as [E _].
    unfold rewrap. rewrite Hmin, Hmax. cbn.
    destruct (theta (goalSpherical s)); cbn in E; try discriminate.
    apply Reqb_true in E. now subst.
Qed.

Lemma setFieldOfView_frame (f : num) (s : SmoothControls) :
  let s' := exec (setFieldOfView f) s in
  goalSpherical s' = goalSpherical s /\ spherical s' = spherical s /\
  logFov s' = logFov s /\ _options s' = _options s.
Proof.
  unfold exec. rewrite setFieldOfView_eq.
  destruct (clamp _ _ _); cbn; auto.
Qed.

(** The clamp of the azimuth delta in [adjustOrbit] never throws, and its
    result lies within [dThetaLimit] of [-dTheta]. *)
Lemma adjust_clamp (deltaTheta : num) (d : R) :
  is_number deltaTheta ->
  exists c0 : R,
    clamp deltaTheta (- dThetaLimit - Fin d)%js (dThetaLimit - Fin d)%js
      = Normal (Fin c0) /\
    - (PI - 1 / 1000) - d <= c0 <= (PI - 1 / 1000) - d /\
    (forall x, deltaTheta = Fin x ->
               (PI - 1 / 1000 - d <= x -> c0 = PI - 1 / 1000 - d) /\
               (x <= - (PI - 1 / 1000) - d -> c0 = - (PI - 1 / 1000) - d) /\
               (- (PI - 1 / 1000) - d <= x <= PI - 1 / 1000 - d -> c0 = x)).
Proof.
  intros Hn. pose proof PI_bounds as Hpi.
  unfold dThetaLimit, Math_PI. cbn.
  rewrite clamp_normal by (cbn; apply Rltb_false; lra).
  destruct deltaTheta as [| | |x]; [easy| | |]; cbn;
    repeat match goal with
    | |- context [Rltb ?x ?y] =>
        let E := fresh "E" in
        destruct (Rltb x y) eqn:E;
        [apply Rltb_true in E | apply Rltb_false in E]; cbn
    end;
    eexists; (split; [reflexivity|]); (split; [lra|]);
    intros x' Hx; try discriminate; try injection Hx as <-;
    repeat split; intros; lra.
Qed.

Lemma rewrap_theta_near (o : Options) (s : SmoothControls) (c n : R) :
  theta (spherical s) = Fin c -> - PI <= c - n < PI ->
  theta (spherical (rewrap o (Fin n) s)) = Fin c.
Proof.
  intros Hc Hn. unfold rewrap. destruct (_ && _); [|exact Hc].
  cbn. rewrite Hc. cbn. replace (c + - n) with (c - n) by lra.
  rewrite wrapAngle_id by lra. cbn. f_equal. lra.
Qed.

(** The azimuths after [adjustOrbit], in terms of its two clamps. *)
Lemma adjustOrbit_theta
    (s : SmoothControls) (deltaTheta deltaPhi deltaZoom : num) (c0 : R)
    (nT : num) :
  let o := _options s in
  let g := goalSpherical s in
  ordered (minimumPolarAngle o) (maximumPolarAngle o) ->
  ordered (minimumRadius o) (maximumRadius o) ->
  clamp deltaTheta (- dThetaLimit - (theta (spherical s) - theta g))%js
                   (dThetaLimit - (theta (spherical s) - theta g))%js
    = Normal (Fin c0) ->
  clamp (theta g - Fin c0)%js
        (minimumAzimuthalAngle o) (maximumAzimuthalAngle o) = Normal nT ->
  let s' := exec (adjustOrbit deltaTheta deltaPhi deltaZoom) s in
  theta (goalSpherical s') = nT /\
  spherical s' = spherical (rewrap o nT s) /\
  _options s' = o /\
  logFov s' = logFov s.
Proof.
  intros o g HP HR Hclamp HT s'.
  pose proof (@clamp_normal (phi g - deltaPhi)%js _ _
                (@le_not_gt _ _ HP)) as HPc.
  pose proof (@clamp_normal
                (adjust_goalRadius o (radius g) (goalLogFov s) deltaZoom) _ _
                (@le_not_gt _ _ HR)) as HRc.
  destruct (@setOrbit_post (Some (theta g - Fin c0)%js)
              (Some (phi g - deltaPhi)%js)
              (Some (adjust_goalRadius o (radius g) (goalLogFov s) deltaZoom))
              s _ _ _ HT HPc HRc)
    as (b & Hres & Hth & _ & _ & _ & Hsp & _ & Hlf & Hop).
  subst s'. unfold exec, result in *. rewrite adjustOrbit_eq. cbv zeta.
  fold g. rewrite Hclamp. fold o.
  destruct (setOrbit _ _ _ s) as [[b'|e] s1] eqn:E; cbn [fst snd] in *;
    [|discriminate].
  destruct (deltaZoom !== Fin 0)%js; cbn [fst snd]; [|auto].
  destruct (setFieldOfView_frame (Math_exp (goalLogFov s1 + deltaZoom)%js) s1)
    as (G1 & G2 & G3 & G4).
  unfold exec in G1, G2, G3, G4. rewrite G1, G2, G3, G4. auto.
Qed.

(** C1 (amended): whenever the current azimuth lies within the azimuth
    bounds (always so when the azimuth is unbounded) and the polar and
    radius bounds are in order, [adjustOrbit] with any azimuth delta that is
    a number leaves the current azimuth alone and puts the goal azimuth
    within pi - 0.001 of it.  A positive delta moves the goal towards
    smaller azimuths: with the azimuth unbounded, a delta of at least
    (pi - 0.001) - (current - goal) puts the goal exactly at
    current - (pi - 0.001), and a delta of at most
    -(pi - 0.001) - (current - goal) at current + (pi - 0.001). *)
Theorem adjustOrbit_goal_within_pi_of_current
    (s : SmoothControls) (deltaTheta deltaPhi deltaZoom : num) (c g : R) :
  let o := _options s in
  ordered (minimumPolarAngle o) (maximumPolarAngle o) ->
  ordered (minimumRadius o) (maximumRadius o) ->
  le (minimumAzimuthalAngle o) (Fin c) ->
  le (Fin c) (maximumAzimuthalAngle o) ->
  theta (spherical s) = Fin c ->
  theta (goalSpherical s) = Fin g ->
  is_number deltaTheta ->
  let s' := exec (adjustOrbit deltaTheta deltaPhi deltaZoom) s in
  theta (spherical s') = Fin c /\
  exists n : R,
    theta (goalSpherical s') = Fin n /\
    Rabs (n - c) <= PI - 1 / 1000 /\
    (minimumAzimuthalAngle o = NegInf -> maximumAzimuthalAngle o = PosInf ->
     forall x, deltaTheta = Fin x ->
       (PI - 1 / 1000 - (c - g) <= x -> n = c - (PI - 1 / 1000)) /\
       (x <= - (PI - 1 / 1000) - (c - g) -> n = c + (PI - 1 / 1000))).
Proof.
  intros o HP HR Hlo Hhi Hc Hg Hn s'.
  pose proof PI_bounds as Hpi.
  destruct (@adjust_clamp deltaTheta (c - g) Hn) as (c0 & Hclamp & Hc0 & Hsat).
  assert (Hv : c - (PI - 1 / 1000) <= g - c0 <= c + (PI - 1 / 1000)) by lra.
  destruct (@clamp_towards _ _ c (g - c0)
              (c - (PI - 1 / 1000)) (c + (PI - 1 / 1000))
              Hlo Hhi ltac:(lra) Hv)
    as (n & HT & Hnr & Hid).
  destruct (@adjustOrbit_theta s deltaTheta deltaPhi deltaZoom c0 (Fin n))
    as (F2 & Hsp & _); auto.
  { rewrite Hc, Hg. exact Hclamp. }
  { rewrite Hg. exact HT. }
  fold s' in F2, Hsp. split.
  - rewrite Hsp. apply rewrap_theta_near; [exact Hc|lra].
  - exists n. split; [exact F2|]. split.
    + apply Rabs_le. lra.
    + intros Emin Emax x Hx. specialize (Hid Emin Emax).
      destruct (Hsat x Hx) as (S1 & S2 & _).
      split; intros Hd; [rewrite (S1 Hd) in Hid | rewrite (S2 Hd) in Hid]; lra.
Qed.

End SetOrbit.

(* ================================================================== *)
(** ** Evaluating the controller on concrete numbers *)

Lemma ln_10_lt_ln_45 : ln 10 < ln 45.
Proof. apply ln_increasing; lra. Qed.

Ltac real_facts :=
  pose proof PI_bounds; pose proof ln_10_lt_ln_45; unfold EPS in *.

(** Decide the comparisons of concrete reals that block evaluation. *)
Ltac decide_reals :=
  repeat match goal with
  | |- context [Rabs ?a] =>
      first [ rewrite (Rabs_pos_eq a) by (real_facts; lra)
            | rewrite (Rabs_left1 a) by (real_facts; lra) ]
  | |- context [Rltb ?a ?b] =>
      first [ rewrite (proj2 (Rltb_true a b)) by (real_facts; lra)
            | rewrite (proj2 (Rltb_false a b)) by (real_facts; lra) ]
  | |- context [Reqb ?a ?b] =>
      first [ rewrite (proj2 (Reqb_true a b)) by (real_facts; lra)
            | rewrite (proj2 (Reqb_false a b)) by (real_facts; lra) ]
  end.

Arguments wrapAngle : simpl never.

Ltac run_method :=
  unfold exec, result, constructor, applyOptions, setRadius, setFieldOfView,
    adjustOrbit, userAdjustOrbit, jumpToGoal, update, moveCamera, emit,
    isStationary, rewrap;
  repeat (rewrite ?setOrbit_eq;
          unfold bind, gets, modify, call, when, ret, throw, clamp, gt,
            Math_PI, rewrap, strict_ne, makeSafe;
          cbn; decide_reals;
          rewrite ?wrapAngle_id by (real_facts; lra);
          rewrite ?exp_ln by lra;
          cbn).

(** The orbit of a newly constructed controller. *)
Lemma constructed_fields (focused : bool) :
  let s := constructed focused in
  _options s = DEFAULT_OPTIONS /\
  goalSpherical s = mkSpherical (Fin 1) (Fin (PI / 2)) (Fin 0) /\
  spherical s = mkSpherical (Fin 1) (Fin (PI / 2)) (Fin 0) /\
  goalLogFov s = Fin (ln 45) /\
  logFov s = Fin (ln 45) /\
  sensitivity s = Fin 1 /\
  element s = sample_element focused.
Proof.
  unfold constructed, constructed_with. run_method.
  repeat split; try reflexivity; f_equal; f_equal; lra.
Qed.

(** The theorem on a new controller (default options, current azimuth 0)
    asked for the goal azimuth 7: the current azimuth becomes 2 pi. *)
Lemma setOrbit_rewrites_current_witness :
  let s := constructed true in
  let s' := exec (setOrbit (Some (Fin 7)) None None) s in
  (exists k : Z,
      theta (spherical s') = Fin (0 - 2 * PI * IZR k) /\
      - PI <= (0 - 2 * PI * IZR k) - 7 < PI) /\
  phi (spherical s') = phi (spherical s) /\
  radius (spherical s') = radius (spherical s) /\
  logFov s' = logFov s /\
  (forall b, result (setOrbit (Some (Fin 7)) None None) s = Normal b ->
             theta (goalSpherical s') = Fin 7).
Proof.
  destruct (constructed_fields true) as (Ho & _ & Hc & _).
  cbv zeta in Ho, Hc.
  apply (@setOrbit_rewrites_current_by_full_turns _
           (Some (Fin 7)) None None (constructed true) 0 7).
  - now rewrite Ho.
  - now rewrite Ho.
  - now rewrite Hc.
  - reflexivity.
Defined.

Ltac clamp_eval :=
  unfold clamp, gt, Math_PI, dThetaLimit; cbn; decide_reals; cbn;
  decide_reals; cbn; try reflexivity; try (f_equal; f_equal; lra).

Section ApplyOptions.

Context {damper : DamperClass}.

(** What [applyOptions] leaves behind when its four clamps succeed. *)
Lemma applyOptions_post (p : PartialOptions) (s : SmoothControls)
    (nT nP nR v : num) :
  let o := Object_assign (_options s) p in
  let g := goalSpherical s in
  clamp (theta g) (minimumAzimuthalAngle o) (maximumAzimuthalAngle o)
    = Normal nT ->
  clamp (phi g) (minimumPolarAngle o) (maximumPolarAngle o) = Normal nP ->
  clamp (radius g) (minimumRadius o) (maximumRadius o) = Normal nR ->
  clamp (Math_exp (goalLogFov s)) (minimumFieldOfView o)
        (maximumFieldOfView o) = Normal v ->
  let s' := exec (applyOptions p) s in
  result (applyOptions p) s = Normal tt /\
  _options s' = o /\
  theta (goalSpherical s') = nT /\
  radius (goalSpherical s') = nR /\
  (phi (goalSpherical s') = phi g /\ phi g = nP \/
   phi (goalSpherical s') = phi (makeSafe (mkSpherical nR nP nT))) /\
  goalLogFov s' = Math_log v /\
  spherical s' = spherical (rewrap o nT s) /\
  logFov s' = logFov s.
Proof.
  intros o g HT HP HR HV s'.
  destruct (@setOrbit_post _ None None None (set_options o s) nT nP nR)
    as (b & Hres & Hth & Hr & Hphi & Hb & Hsp & Hgl & Hlf & Hop); auto.
  subst s'. unfold exec, result in *. rewrite applyOptions_eq. cbv zeta.
  fold o.
  destruct (setOrbit None None None (set_options o s)) as [[b'|e] s1] eqn:E;
    cbn [fst snd] in *; [|discriminate].
  rewrite setFieldOfView_eq, Hop, Hgl. cbn [_options set_options goalLogFov].
  rewrite HV.
  cbn [fst snd set_goalLogFov goalSpherical _options spherical logFov
       goalLogFov].
  injection Hres as ->.
  repeat split; auto.
  - destruct b; [right|left]; auto.
  - rewrite Hsp. unfold rewrap. cbn [_options set_options].
    destruct (_ && _); reflexivity.
Qed.

End ApplyOptions.

(* ================================================================== *)
(** ** adjustOrbit: the azimuth *)

(** C1 fails on the code in two ways.  (1) With finite azimuth bounds the
    current azimuth can lie outside them: after
    [applyOptions({minimumAzimuthalAngle: 10, maximumAzimuthalAngle: 11})]
    on a new controller the goal azimuth is 10 while the current azimuth is
    still 0, and [adjustOrbit(0, 0, 0)] leaves the goal at 10, more than pi
    ahead of the current azimuth.  (2) A positive delta moves the goal
    below the current azimuth: [adjustOrbit(10, 0, 0)] on a new controller
    puts the goal at -(pi - 0.001), not between the current azimuth 0 and
    0 + pi - 0.001. *)
Lemma adjustOrbit_goal_beyond_pi :
  (let s1 := exec (applyOptions azimuth_10_to_11) (constructed true) in
   let s2 := exec (adjustOrbit (Fin 0) (Fin 0) (Fin 0)) s1 in
   theta (spherical s2) = Fin 0 /\
   theta (goalSpherical s2) = Fin 10 /\
   PI < 10 - 0) /\
  (let s3 := exec (adjustOrbit (Fin 10) (Fin 0) (Fin 0)) (constructed true) in
   theta (spherical s3) = Fin 0 /\
   theta (goalSpherical s3) = Fin (- (PI - 1 / 1000)) /\
   - (PI - 1 / 1000) < 0).
Proof.
  pose proof PI_bounds as Hpi.
  destruct (constructed_fields true) as (Ho & Hg & Hc & Hgl & Hl & _).
  cbv zeta in Ho, Hg, Hc, Hgl, Hl.
  split.
  - cbv zeta.
    destruct (@applyOptions_post _ azimuth_10_to_11 (constructed true)
                (Fin 10) (Fin (PI / 2)) (Fin 1) (Fin 45))
      as (_ & Ho1 & Hth1 & _ & _ & _ & Hsp1 & _);
      try (rewrite ?Ho, ?Hg, ?Hgl; clamp_eval; rewrite ?exp_ln by lra;
           clamp_eval).
    set (s1 := exec (applyOptions azimuth_10_to_11) (constructed true)) in *.
    assert (Hc1 : spherical s1 = mkSpherical (Fin 1) (Fin (PI / 2)) (Fin 0)).
    { rewrite Hsp1, Ho. unfold rewrap. cbn. exact Hc. }
    destruct (@adjustOrbit_theta _ s1 (Fin 0) (Fin 0) (Fin 0)
                (- (PI - 1 / 1000) - (0 - 10)) (Fin 10))
      as (F1 & F2 & _);
      try (rewrite ?Ho1, ?Ho, ?Hc1, ?Hth1; clamp_eval;
           unfold ordered; cbn; lra).
    rewrite F1, F2, Ho1, Ho. unfold rewrap. cbn. rewrite Hc1. cbn.
    repeat split; lra.
  - cbv zeta.
    destruct (@adjustOrbit_theta _ (constructed true) (Fin 10) (Fin 0) (Fin 0)
                (PI - 1 / 1000 - (0 - 0)) (Fin (- (PI - 1 / 1000))))
      as (F1 & F2 & _);
      try (rewrite ?Ho, ?Hc, ?Hg; clamp_eval; unfold ordered; cbn; lra).
    rewrite F1, F2, Ho. split; [|split; [reflexivity|lra]].
    apply rewrap_theta_near; [now rewrite Hc|lra].
Qed.

(** The theorem on a new controller (default options, both azimuths 0)
    asked to turn by 10 radians. *)
Lemma adjustOrbit_goal_within_pi_witness :
  let s' := exec (adjustOrbit (Fin 10) (Fin 0) (Fin 0)) (constructed true) in
  theta (spherical s') = Fin 0 /\
  exists n : R,
    theta (goalSpherical s') = Fin n /\ Rabs (n - 0) <= PI - 1 / 1000.
Proof.
  destruct (constructed_fields true) as (Ho & Hg & Hc & _).
  cbv zeta in Ho, Hg, Hc.
  pose proof PI_bounds as Hpi.
  destruct (@adjustOrbit_goal_within_pi_of_current _ (constructed true)
              (Fin 10) (Fin 0) (Fin 0) 0 0)
    as (H1 & n & H2 & H3 & _);
    try (rewrite ?Ho, ?Hg, ?Hc; cbn; first [reflexivity | lra | discriminate]).
  split; [exact H1|]. exists n. split; [exact H2|exact H3].
Defined.

(* ================================================================== *)
(** ** adjustOrbit: the zoom *)

Lemma exp_le_mono (x y : R) : x <= y -> exp x <= exp y.
Proof.
  intros [H| ->]; [left; now apply exp_increasing | right; reflexivity].
Qed.

Lemma ln_le_mono (x y : R) : 0 < x -> x <= y -> ln x <= ln y.
Proof.
  intros Hx [H| ->]; [left; now apply ln_increasing | right; reflexivity].
Qed.

Lemma Math_log_Fin (x : R) : 0 < x -> Math_log (Fin x) = Fin (ln x).
Proof.
  intros H. cbn.
  rewrite (proj2 (Reqb_false x 0)) by lra.
  now rewrite (proj2 (Rltb_true 0 x)).
Qed.

Lemma clamp_Fin (v lo hi : R) :
  lo <= hi -> clamp (Fin v) (Fin lo) (Fin hi) = Normal (Fin (clampR v lo hi)).
Proof.
  intros H. rewrite clamp_normal by (cbn; apply Rltb_false; lra).
  cbn.
  destruct (Rltb v hi) eqn:E1;
    [apply Rltb_true in E1 | apply Rltb_false in E1]; cbn;
    match goal with
    | |- context [Rltb ?a ?b] =>
        destruct (Rltb a b) eqn:E2;
        [apply Rltb_true in E2 | apply Rltb_false in E2]
    end;
    do 2 f_equal; unfold clampR, Rmax, Rmin;
    destruct (Rle_dec hi v);
    repeat match goal with
    | |- context [Rle_dec ?a ?b] => destruct (Rle_dec a b)
    end; lra.
Qed.

Lemma clampR_id (v lo hi : R) : lo <= v <= hi -> clampR v lo hi = v.
Proof.
  intros H. unfold clampR. rewrite Rmin_right, Rmax_right; lra.
Qed.

Lemma clampR_hi (v lo hi : R) : lo <= hi -> hi <= v -> clampR v lo hi = hi.
Proof.
  intros H1 H2. unfold clampR. rewrite Rmin_left, Rmax_right; lra.
Qed.

Lemma clampR_lo (v lo hi : R) : lo <= hi -> v <= lo -> clampR v lo hi = lo.
Proof.
  intros H1 H2. unfold clampR.
  destruct (Rle_dec hi v).
  - rewrite Rmin_left by lra. assert (hi = lo) by lra. subst.
    apply Rmax_left; lra.
  - rewrite Rmin_right by lra. apply Rmax_left; lra.
Qed.

(** The arithmetic of a synchronised zoom step: when the cap on the ratio
    does not bind, both axes advance by the same fraction [min t 1] of what
    is left of their ranges. *)
Lemma zoom_in_sync_reals (r l z minR maxR minF maxF : R) :
  minR <= r <= maxR -> 0 < minF -> minF <= maxF ->
  ln minF <= l <= ln maxF -> z <> 0 ->
  let Rb := heading z minR maxR in
  let Lb := ln (heading z minF maxF) in
  Lb <> l ->
  (Rb - r) / (Lb - l) <= maxR - minR ->
  let t := z / (Lb - l) in
  0 < t /\
  clampR (r + z * Rmin ((Rb - r) / (Lb - l)) (maxR - minR)) minR maxR
    = r + Rmin t 1 * (Rb - r) /\
  ln (clampR (exp (l + z)) minF maxF) = l + Rmin t 1 * (Lb - l).
Proof.
  intros Hr HF0 HF Hl Hz Rb Lb Hne Hcap t.
  assert (EminF : exp (ln minF) = minF) by (apply exp_ln; lra).
  assert (EmaxF : exp (ln maxF) = maxF) by (apply exp_ln; lra).
  rewrite (Rmin_left _ _ Hcap).
  assert (Hq : z * ((Rb - r) / (Lb - l)) = t * (Rb - r))
    by (unfold t; field; lra).
  assert (Hzt : z = t * (Lb - l)) by (unfold t; field; lra).
  rewrite Hq.
  unfold heading in Rb, Lb. subst Rb Lb.
  destruct (Rltb 0 z) eqn:Ez;
    [apply Rltb_true in Ez | apply Rltb_false in Ez].
  - (* zooming out *)
    assert (HD : 0 < ln maxF - l) by lra.
    assert (Ht : 0 < t) by (unfold t; apply Rdiv_lt_0_compat; lra).
    split; [exact Ht|].
    destruct (Rle_dec t 1) as [T|T].
    + rewrite (Rmin_left _ _ T).
      assert (z <= ln maxF - l) by nra.
      split.
      * apply clampR_id. nra.
      * rewrite clampR_id; [rewrite ln_exp; lra|].
        split.
        -- rewrite <- EminF. apply exp_le_mono. lra.
        -- rewrite <- EmaxF. apply exp_le_mono. lra.
    + rewrite Rmin_right by lra.
      assert (ln maxF - l <= z) by nra.
      split.
      * rewrite clampR_hi; [lra|lra|nra].
      * rewrite clampR_hi; [lra|lra|].
        rewrite <- EmaxF. apply exp_le_mono. lra.
  - (* zooming in *)
    assert (Hz0 : z < 0) by lra.
    assert (HD : ln minF - l < 0) by lra.
    assert (Ht : 0 < t).
    { unfold t. replace (z / (ln minF - l)) with ((- z) / (- (ln minF - l)))
        by (field; lra).
      apply Rdiv_lt_0_compat; lra. }
    split; [exact Ht|].
    destruct (Rle_dec t 1) as [T|T].
    + rewrite (Rmin_left _ _ T).
      assert (ln minF - l <= z) by nra.
      split.
      * apply clampR_id. nra.
      * rewrite clampR_id; [rewrite ln_exp; lra|].
        split.
        -- rewrite <- EminF. apply exp_le_mono. lra.
        -- rewrite <- EmaxF. apply exp_le_mono. lra.
    + rewrite Rmin_right by lra.
      assert (z <= ln minF - l) by nra.
      split.
      * rewrite clampR_lo; [lra|lra|nra].
      * rewrite clampR_lo; [lra|lra|].
        rewrite <- EminF. apply exp_le_mono. lra.
Qed.

Section Zoom.

Context {damper : DamperClass}.

(** The goal radius that [adjustOrbit] asks for, on real numbers, when the
    goal field of view is not at the extreme the zoom step heads for. *)
Lemma adjust_goalRadius_Fin (o : Options) (r l z minR maxR minF maxF : R) :
  minimumRadius o = Fin minR -> maximumRadius o = Fin maxR ->
  minimumFieldOfView o = Fin minF -> maximumFieldOfView o = Fin maxF ->
  0 < minF -> 0 < maxF -> z <> 0 ->
  ln (heading z minF maxF) <> l ->
  adjust_goalRadius o (Fin r) (Fin l) (Fin z) =
  Fin (r + z * Rmin ((heading z minR maxR - r) / (ln (heading z minF maxF) - l))
                    (maxR - minR)).
Proof.
  intros H1 H2 H3 H4 HminF HmaxF Hz Hl.
  unfold adjust_goalRadius, adjust_deltaRatio, heading in *.
  rewrite H1, H2, H3, H4. cbn.
  rewrite (proj2 (Reqb_false z 0)) by lra.
  destruct (Rltb 0 z) eqn:Ez.
  - rewrite Math_log_Fin by lra. cbn.
    rewrite (proj2 (Reqb_false (ln maxF + - l) 0)) by lra. cbn.
    unfold Rmin. destruct (Rle_dec _ _) as [L|L]; cbn.
    + rewrite (proj2 (Rltb_false _ _)); [reflexivity|].
      unfold Rminus, Rdiv in *. lra.
    + rewrite (proj2 (Rltb_true _ _)); [reflexivity|].
      unfold Rminus, Rdiv in *. lra.
  - rewrite Math_log_Fin by lra. cbn.
    rewrite (proj2 (Reqb_false (ln minF + - l) 0)) by lra. cbn.
    unfold Rmin. destruct (Rle_dec _ _) as [L|L]; cbn.
    + rewrite (proj2 (Rltb_false _ _)); [reflexivity|].
      unfold Rminus, Rdiv in *. lra.
    + rewrite (proj2 (Rltb_true _ _)); [reflexivity|].
      unfold Rminus, Rdiv in *. lra.
Qed.

Lemma adjust_clamp_total (deltaTheta d : num) :
  exists c, clamp deltaTheta (- dThetaLimit - d)%js (dThetaLimit - d)%js
            = Normal c.
Proof.
  pose proof PI_bounds as Hpi.
  eexists. apply clamp_normal.
  unfold dThetaLimit, Math_PI. destruct d; cbn; try reflexivity.
  apply Rltb_false. lra.
Qed.

Lemma clampR_bounds (v lo hi : R) : lo <= hi -> lo <= clampR v lo hi <= hi.
Proof.
  intros H. unfold clampR, Rmax, Rmin.
  destruct (Rle_dec hi v);
    repeat match goal with
    | |- context [Rle_dec ?a ?b] => destruct (Rle_dec a b)
    end; lra.
Qed.

(** The goal radius and the goal log-FOV after a zoom step, on real
    numbers. *)
Lemma adjustOrbit_zoom
    (s : SmoothControls) (deltaTheta deltaPhi : num)
    (r l z minR maxR minF maxF : R) :
  let o := _options s in
  ordered (minimumAzimuthalAngle o) (maximumAzimuthalAngle o) ->
  ordered (minimumPolarAngle o) (maximumPolarAngle o) ->
  minimumRadius o = Fin minR -> maximumRadius o = Fin maxR ->
  minimumFieldOfView o = Fin minF -> maximumFieldOfView o = Fin maxF ->
  minR <= maxR -> 0 < minF -> minF <= maxF ->
  radius (goalSpherical s) = Fin r -> goalLogFov s = Fin l ->
  z <> 0 -> ln (heading z minF maxF) <> l ->
  let s' := exec (adjustOrbit deltaTheta deltaPhi (Fin z)) s in
  result (adjustOrbit deltaTheta deltaPhi (Fin z)) s = Normal tt /\
  radius (goalSpherical s') =
    Fin (clampR (r + z * Rmin ((heading z minR maxR - r) /
                               (ln (heading z minF maxF) - l))
                              (maxR - minR)) minR maxR) /\
  goalLogFov s' = Fin (ln (clampR (exp (l + z)) minF maxF)).
Proof.
  intros o HA HP HminR HmaxR HminF HmaxF HR HF0 HF Hr Hl Hz Hne s'.
  destruct (adjust_clamp_total deltaTheta
              (theta (spherical s) - theta (goalSpherical s))%js)
    as (c & Hc).
  pose proof (@clamp_normal (theta (goalSpherical s) - c)%js _ _
                (@le_not_gt _ _ HA)) as HTc.
  pose proof (@clamp_normal (phi (goalSpherical s) - deltaPhi)%js _ _
                (@le_not_gt _ _ HP)) as HPc.
  assert (HRc : clamp (adjust_goalRadius o (radius (goalSpherical s))
                         (goalLogFov s) (Fin z))
                      (minimumRadius o) (maximumRadius o) =
                Normal (Fin (clampR
                  (r + z * Rmin ((heading z minR maxR - r) /
                                 (ln (heading z minF maxF) - l))
                                (maxR - minR)) minR maxR))).
  { rewrite Hr, Hl.
    rewrite (@adjust_goalRadius_Fin o r l z minR maxR minF maxF)
      by (auto; lra).
    rewrite HminR, HmaxR. now apply clamp_Fin. }
  destruct (@setOrbit_post _ (Some (theta (goalSpherical s) - c)%js)
              (Some (phi (goalSpherical s) - deltaPhi)%js)
              (Some (adjust_goalRadius o (radius (goalSpherical s))
                       (goalLogFov s) (Fin z)))
              s _ _ _ HTc HPc HRc)
    as (b & Hres & _ & Hrad & _ & _ & _ & Hgl & _ & Hop).
  subst s'. unfold exec, result in *. rewrite adjustOrbit_eq. cbv zeta.
  rewrite Hc. fold o.
  destruct (setOrbit _ _ _ s) as [[b'|e] s1] eqn:E; cbn [fst snd] in *;
    [|discriminate].
  assert (Hnz : (Fin z !== Fin 0)%js = true).
  { unfold strict_ne. cbn. now rewrite (proj2 (Reqb_false z 0)). }
  rewrite Hnz, setFieldOfView_eq, Hop, Hgl, Hl. fold o.
  rewrite HminF, HmaxF. cbn [add Math_exp].
  rewrite clamp_Fin by lra.
  pose proof (@clampR_bounds (exp (l + z)) minF maxF HF) as Hb.
  rewrite Math_log_Fin by lra.
  cbn [fst snd set_goalLogFov goalSpherical goalLogFov].
  auto.
Qed.

(** C2 (amended): for every [adjustOrbit] call with a non-zero zoom delta
    [z], finite bounds in order, the goal radius and the goal log-FOV
    within them, the goal FOV not yet at the extreme the step heads for,
    and the ratio (radius left) / (log-FOV left) not above
    [maximumRadius - minimumRadius] (the cap that [adjustOrbit] puts on
    it): the goal radius and the goal log-FOV both advance by the same
    fraction [min (t, 1)] of what is left of their ranges, where
    [t = z / (log-FOV left)]; so they reach their extremes in the same
    step, exactly when [t >= 1]. *)
Theorem adjustOrbit_zoom_in_sync
    (s : SmoothControls) (deltaTheta deltaPhi : num)
    (r l z minR maxR minF maxF : R) :
  let o := _options s in
  ordered (minimumAzimuthalAngle o) (maximumAzimuthalAngle o) ->
  ordered (minimumPolarAngle o) (maximumPolarAngle o) ->
  minimumRadius o = Fin minR -> maximumRadius o = Fin maxR ->
  minimumFieldOfView o = Fin minF -> maximumFieldOfView o = Fin maxF ->
  radius (goalSpherical s) = Fin r -> goalLogFov s = Fin l ->
  minR <= r <= maxR -> 0 < minF -> minF <= maxF ->
  ln minF <= l <= ln maxF ->
  z <> 0 ->
  let Rb := heading z minR maxR in
  let Lb := ln (heading z minF maxF) in
  Lb <> l ->
  (Rb - r) / (Lb - l) <= maxR - minR ->
  let t := z / (Lb - l) in
  let s' := exec (adjustOrbit deltaTheta deltaPhi (Fin z)) s in
  result (adjustOrbit deltaTheta deltaPhi (Fin z)) s = Normal tt /\
  0 < t /\
  radius (goalSpherical s') = Fin (r + Rmin t 1 * (Rb - r)) /\
  goalLogFov s' = Fin (l + Rmin t 1 * (Lb - l)).
Proof.
  intros o HA HP HminR HmaxR HminF HmaxF Hr Hl Hrr HF0 HF Hll Hz Rb Lb Hne
         Hcap t s'.
  destruct (@adjustOrbit_zoom s deltaTheta deltaPhi r l z minR maxR minF maxF)
    as (R1 & R2 & R3); auto; try lra.
  destruct (@zoom_in_sync_reals r l z minR maxR minF maxF)
    as (Z1 & Z2 & Z3); auto.
  fold Rb Lb in R2, Z2, Z3. fold s' in R2, R3.
  rewrite R2, R3, Z2, Z3. auto.
Qed.

End Zoom.

Lemma ln_45_minus_ln_44 : 0 < ln 45 - ln 44 < 1 / 2.
Proof.
  split.
  - assert (ln 44 < ln 45) by (apply ln_increasing; lra). lra.
  - pose proof (exp_ineq1_le (1 / 2)) as He.
    assert (H : ln 45 < ln (44 * exp (1 / 2))).
    { apply ln_increasing; [lra|]. lra. }
    rewrite ln_mult, ln_exp in H; [lra|lra|apply exp_pos].
Qed.

Lemma ln_45_minus_ln_10 : 1 / 2 <= ln 45 - ln 10 <= 7 / 2.
Proof.
  assert (E : ln 45 = ln 10 + ln (9 / 2)).
  { rewrite <- ln_mult by lra. f_equal. lra. }
  rewrite E. split.
  - assert (He : exp (1 / 2) <= 9 / 2).
    { pose proof exp_le_3 as H3. pose proof (exp_pos (1 / 2)) as Hp.
      replace 1 with (1 / 2 + 1 / 2) in H3 by lra.
      rewrite exp_plus in H3. nra. }
    pose proof (@ln_le_mono _ _ (exp_pos (1 / 2)) He) as H.
    rewrite ln_exp in H. lra.
  - pose proof (exp_ineq1_le (ln (9 / 2))) as H.
    rewrite exp_ln in H by lra. lra.
Qed.

(** The orbit after [applyOptions({maximumRadius: 2})] on a new
    controller: radius 1 of at most 2, field of view 45 of 10 to 45. *)
Lemma radius_up_to_2_fields :
  let s := exec (applyOptions radius_up_to_2) (constructed true) in
  _options s = Object_assign DEFAULT_OPTIONS radius_up_to_2 /\
  radius (goalSpherical s) = Fin 1 /\
  goalLogFov s = Fin (ln 45).
Proof.
  destruct (constructed_fields true) as (Ho & Hg & Hc & Hgl & Hl & _).
  cbv zeta in Ho, Hg, Hc, Hgl, Hl. cbv zeta.
  destruct (@applyOptions_post _ radius_up_to_2 (constructed true)
              (Fin 0) (Fin (PI / 2)) (Fin 1) (Fin 45))
    as (_ & Ho1 & _ & Hr1 & _ & Hgl1 & _);
    try (rewrite ?Ho, ?Hg, ?Hgl; clamp_eval; rewrite ?exp_ln by lra;
         clamp_eval).
  rewrite Ho1, Hr1, Hgl1, Ho. rewrite Math_log_Fin by lra. auto.
Qed.

(** C2 fails on the code where the cap on the ratio binds.  A controller
    with radius 1 of at most 2 and field of view 44 of at most 45 is asked
    to zoom out by [z = ln 45 - ln 44], exactly what is left of the
    log-FOV range: the goal FOV reaches its maximum 45, while the goal
    radius only moves to [1 + 2 z < 2], short of its maximum. *)
Lemma adjustOrbit_zoom_out_of_sync :
  let s1 := exec (applyOptions radius_up_to_2) (constructed true) in
  let s2 := exec (setFieldOfView (Fin 44)) s1 in
  let z := ln 45 - ln 44 in
  let s3 := exec (adjustOrbit (Fin 0) (Fin 0) (Fin z)) s2 in
  (radius (goalSpherical s2) = Fin 1 /\
   goalLogFov s2 = Fin (ln 44) /\
   maximumRadius (_options s2) = Fin 2 /\
   maximumFieldOfView (_options s2) = Fin 45) /\
  goalLogFov s3 = Fin (ln 45) /\
  radius (goalSpherical s3) = Fin (1 + 2 * z) /\
  1 + 2 * z < 2.
Proof.
  pose proof PI_bounds as Hpi. pose proof ln_45_minus_ln_44 as Hz.
  destruct radius_up_to_2_fields as (Ho1 & Hr1 & Hl1). cbv zeta in *.
  set (s1 := exec (applyOptions radius_up_to_2) (constructed true)) in *.
  destruct (setFieldOfView_frame (Fin 44) s1) as (Fg & _ & _ & Fo).
  cbv zeta in Fg, Fo.
  assert (Hl2 : goalLogFov (exec (setFieldOfView (Fin 44)) s1) = Fin (ln 44)).
  { unfold exec. rewrite setFieldOfView_eq, Ho1. cbn.
    rewrite clamp_Fin by lra. rewrite clampR_id by lra.
    cbn [snd goalLogFov set_goalLogFov]. apply Math_log_Fin. lra. }
  set (s2 := exec (setFieldOfView (Fin 44)) s1) in *.
  assert (Hr2 : radius (goalSpherical s2) = Fin 1) by now rewrite Fg.
  split; [rewrite Fo, Ho1; auto|].
  destruct (@adjustOrbit_zoom _ s2 (Fin 0) (Fin 0) 1 (ln 44)
              (ln 45 - ln 44) 0 2 10 45)
    as (_ & R2 & R3);
    try (rewrite ?Fo, ?Ho1; cbn; first [reflexivity | lra]); auto.
  { unfold heading. rewrite (proj2 (Rltb_true _ _)) by lra. lra. }
  unfold heading in R2.
  rewrite (proj2 (Rltb_true 0 (ln 45 - ln 44))) in R2 by lra.
  rewrite R2, R3.
  split; [|split; [|lra]].
  - f_equal. replace (ln 44 + (ln 45 - ln 44)) with (ln 45) by lra.
    rewrite exp_ln by lra. now rewrite clampR_id by lra.
  - f_equal.
    assert (Hq : 2 - 0 <= (2 - 1) / (ln 45 - ln 44)).
    { apply Rmult_le_reg_r with (r := ln 45 - ln 44); [lra|].
      unfold Rdiv. rewrite Rmult_assoc, Rinv_l by lra. lra. }
    rewrite (Rmin_right _ _ Hq). rewrite clampR_id by lra. lra.
Qed.

(** The theorem on the case of the specification: radius 1 of 0 to 2,
    field of view 45 of 10 to 45, zooming in by 10.  Both goals land on
    their minimum in this step. *)
Lemma adjustOrbit_zoom_in_sync_witness :
  let s := exec (applyOptions radius_up_to_2) (constructed true) in
  let z := -10 in
  let t := z / (ln (heading z 10 45) - ln 45) in
  let s' := exec (adjustOrbit (Fin 0) (Fin 0) (Fin z)) s in
  (result (adjustOrbit (Fin 0) (Fin 0) (Fin z)) s = Normal tt /\
   0 < t /\
   radius (goalSpherical s') = Fin (1 + Rmin t 1 * (heading z 0 2 - 1)) /\
   goalLogFov s' = Fin (ln 45 + Rmin t 1 * (ln (heading z 10 45) - ln 45))) /\
  radius (goalSpherical s') = Fin 0 /\
  goalLogFov s' = Fin (ln 10).
Proof.
  pose proof PI_bounds as Hpi. pose proof ln_45_minus_ln_10 as Hz.
  destruct radius_up_to_2_fields as (Ho1 & Hr1 & Hl1). cbv zeta in *.
  set (s := exec (applyOptions radius_up_to_2) (constructed true)) in *.
  assert (Hh1 : heading (-10) 10 45 = 10).
  { unfold heading. now rewrite (proj2 (Rltb_false _ _)) by lra. }
  assert (Hh2 : heading (-10) 0 2 = 0).
  { unfold heading. now rewrite (proj2 (Rltb_false _ _)) by lra. }
  assert (Hcap : (heading (-10) 0 2 - 1) / (ln (heading (-10) 10 45) - ln 45)
                 <= 2 - 0).
  { rewrite Hh1, Hh2.
    replace ((0 - 1) / (ln 10 - ln 45)) with (1 / (ln 45 - ln 10))
      by (field; lra).
    apply Rmult_le_reg_r with (r := ln 45 - ln 10); [lra|].
    unfold Rdiv. rewrite Rmult_assoc, Rinv_l by lra. lra. }
  pose proof (@adjustOrbit_zoom_in_sync _ s (Fin 0) (Fin 0)
                1 (ln 45) (-10) 0 2 10 45) as T.
  cbv zeta in T. rewrite Ho1 in T. cbn in T.
  specialize (T ltac:(exact I) ltac:(lra) eq_refl eq_refl eq_refl eq_refl
                Hr1 Hl1 ltac:(lra) ltac:(lra) ltac:(lra)
                ltac:(pose proof ln_10_lt_ln_45; lra) ltac:(lra)
                ltac:(rewrite Hh1; lra) Hcap).
  split; [exact T|].
  destruct T as (_ & _ & T3 & T4).
  rewrite T3, T4, Hh1, Hh2.
  assert (Ht : 1 <= -10 / (ln 10 - ln 45)).
  { replace (-10 / (ln 10 - ln 45)) with (10 / (ln 45 - ln 10))
      by (field; lra).
    apply Rmult_le_reg_r with (r := ln 45 - ln 10); [lra|].
    unfold Rdiv. rewrite Rmult_assoc, Rinv_l by lra. lra. }
  rewrite (Rmin_right _ _ Ht). split; f_equal; lra.
Defined.

(* ================================================================== *)
(** ** setOrbit at the pole *)

Lemma spherical_ext (a b : Spherical) :
  radius a = radius b -> phi a = phi b -> theta a = theta b -> a = b.
Proof. destruct a, b; cbn; intros; subst; reflexivity. Qed.

Lemma makeSafe_pole :
  phi (makeSafe (mkSpherical (Fin 1) (Fin 0) (Fin 0))) = Fin EPS.
Proof. unfold makeSafe, Math_PI. cbn. decide_reals. cbn. now decide_reals. Qed.

(** The orbit after [applyOptions({minimumPolarAngle: 0})] on a new
    controller: the goal is where it was. *)
Lemma polar_from_pole_fields :
  let s := exec (applyOptions polar_from_pole) (constructed true) in
  _options s = Object_assign DEFAULT_OPTIONS polar_from_pole /\
  goalSpherical s = mkSpherical (Fin 1) (Fin (PI / 2)) (Fin 0).
Proof.
  destruct (constructed_fields true) as (Ho & Hg & Hc & Hgl & Hl & _).
  cbv zeta in Ho, Hg, Hc, Hgl, Hl. cbv zeta.
  destruct (@applyOptions_post _ polar_from_pole (constructed true)
              (Fin 0) (Fin (PI / 2)) (Fin 1) (Fin 45))
    as (_ & Ho1 & Ht1 & Hr1 & Hp1 & _);
    try (rewrite ?Ho, ?Hg, ?Hgl; clamp_eval; rewrite ?exp_ln by lra;
         clamp_eval).
  split; [now rewrite Ho1, Ho|].
  apply spherical_ext; cbn; auto.
  destruct Hp1 as [[Hp1 _]|Hp1]; rewrite Hp1.
  - now rewrite Hg.
  - unfold makeSafe, Math_PI. cbn. decide_reals. cbn. now decide_reals.
Qed.

(** With the polar range opened down to the pole, [setOrbit(0, 0, 1)] on a
    goal (1, q, 0) with [q <> 0] returns [true] and stores the polar angle
    [EPS]. *)
Lemma setOrbit_to_pole {damper : DamperClass} (s : SmoothControls) (q : R) :
  _options s = Object_assign DEFAULT_OPTIONS polar_from_pole ->
  goalSpherical s = mkSpherical (Fin 1) (Fin q) (Fin 0) ->
  q <> 0 ->
  let call := setOrbit (Some (Fin 0)) (Some (Fin 0)) (Some (Fin 1)) in
  result call s = Normal true /\
  goalSpherical (exec call s) = mkSpherical (Fin 1) (Fin EPS) (Fin 0).
Proof.
  intros Ho Hg Hq call. subst call.
  destruct (@setOrbit_post _ (Some (Fin 0)) (Some (Fin 0)) (Some (Fin 1)) s
              (Fin 0) (Fin 0) (Fin 1))
    as (b & Hres & Ht & Hr & Hp & Hb & _);
    try (rewrite ?Ho, ?Hg; clamp_eval).
  destruct b.
  - split; [exact Hres|].
    apply spherical_ext; cbn [radius phi theta];
      [exact Hr | rewrite Hp; apply makeSafe_pole | exact Ht].
  - specialize (Hb eq_refl). rewrite Hg in Hb. cbn in Hb.
    injection Hb as Hb. contradiction.
Qed.

(** C4 fails on the code: with the polar range opened down to the pole
    ([applyOptions({minimumPolarAngle: 0})] on a new controller),
    [setOrbit(0, 0, 1)] stores the safe polar angle [EPS] but compares the
    clamped angle 0 against it, so the same call made again returns
    [true] although it changes no goal component. *)
Lemma setOrbit_repeated_returns_true :
  let s0 := exec (applyOptions polar_from_pole) (constructed true) in
  let call := setOrbit (Some (Fin 0)) (Some (Fin 0)) (Some (Fin 1)) in
  let s1 := exec call s0 in
  result call s0 = Normal true /\
  goalSpherical s1 = mkSpherical (Fin 1) (Fin EPS) (Fin 0) /\
  result call s1 = Normal true /\
  goalSpherical (exec call s1) = goalSpherical s1.
Proof.
  pose proof PI_bounds as Hpi.
  destruct polar_from_pole_fields as (Ho & Hg). cbv zeta in *.
  set (s0 := exec (applyOptions polar_from_pole) (constructed true)) in *.
  destruct (@setOrbit_to_pole _ s0 (PI / 2) Ho Hg ltac:(lra)) as (R1 & G1).
  cbv zeta in R1, G1.
  set (s1 := exec (setOrbit (Some (Fin 0)) (Some (Fin 0)) (Some (Fin 1))) s0)
    in *.
  assert (Ho1 : _options s1 = Object_assign DEFAULT_OPTIONS polar_from_pole).
  { destruct (@setOrbit_post _ (Some (Fin 0)) (Some (Fin 0)) (Some (Fin 1)) s0
                (Fin 0) (Fin 0) (Fin 1))
      as (b & _ & _ & _ & _ & _ & _ & _ & _ & Hop);
      try (rewrite ?Ho, ?Hg; clamp_eval).
    fold s1 in Hop. now rewrite Hop. }
  destruct (@setOrbit_to_pole _ s1 EPS Ho1 G1 ltac:(unfold EPS; lra))
    as (R2 & G2).
  cbv zeta in R2, G2.
  repeat split; auto. now rewrite G2, G1.
Qed.

(** C9 fails on the code at the edge of the safe range: after
    [applyOptions({minimumPolarAngle: 0})] and [setOrbit(0, 0, 1)] the goal
    polar angle is exactly [EPS], not strictly above it. *)
Lemma goal_polar_on_the_safe_bound :
  let s0 := exec (applyOptions polar_from_pole) (constructed true) in
  let s1 := exec (setOrbit (Some (Fin 0)) (Some (Fin 0)) (Some (Fin 1))) s0 in
  phi (goalSpherical s1) = Fin EPS /\
  ~ (exists p, phi (goalSpherical s1) = Fin p /\ EPS < p < PI - EPS).
Proof.
  pose proof PI_bounds as Hpi.
  destruct polar_from_pole_fields as (Ho & Hg). cbv zeta in *.
  set (s0 := exec (applyOptions polar_from_pole) (constructed true)) in *.
  destruct (@setOrbit_to_pole _ s0 (PI / 2) Ho Hg ltac:(lra)) as (_ & G1).
  cbv zeta in G1. rewrite G1. cbn. split; [reflexivity|].
  intros (p & Hp & Hlt & _). injection Hp as <-. lra.
Qed.

(* ================================================================== *)
(** ** The polar angle stays in the safe range *)

Lemma makeSafe_safe (sp : Spherical) :
  is_number (phi sp) -> safe_polar (phi (makeSafe sp)).
Proof.
  intros Hn. pose proof PI_bounds as Hpi. unfold makeSafe, Math_PI, safe_polar.
  destruct sp as [r p t]. cbn in *. unfold EPS in *.
  destruct p as [| | |x]; [easy| | |]; cbn;
    repeat match goal with
    | |- context [Rltb ?a ?b] =>
        let E := fresh "E" in
        destruct (Rltb a b) eqn:E;
        [apply Rltb_true in E | apply Rltb_false in E]; cbn
    end;
    eexists; (split; [reflexivity|]); lra.
Qed.

Lemma safe_polar_number (p : num) : safe_polar p -> is_number p.
Proof. intros (r & -> & _). discriminate. Qed.

Lemma Math_min_number (a b : num) :
  is_number a -> is_number b -> is_number (Math_min a b).
Proof.
  unfold is_number. destruct a, b; cbn; try easy;
    destruct (Rltb _ _); easy.
Qed.

Lemma Math_max_number (a b : num) :
  is_number a -> is_number b -> is_number (Math_max a b).
Proof.
  unfold is_number. destruct a, b; cbn; try easy;
    destruct (Rltb _ _); easy.
Qed.

Lemma clamp_number (v lo hi c : num) :
  is_number v -> is_number lo -> is_number hi ->
  clamp v lo hi = Normal c -> is_number c.
Proof.
  intros Hv Hlo Hhi. unfold clamp. destruct (lo >? hi)%js; [discriminate|].
  intros E. injection E as <-.
  now apply Math_max_number, Math_min_number.
Qed.

Lemma sub_number_Fin (x : R) (b : num) : is_number b -> is_number (Fin x - b)%js.
Proof. unfold is_number. destruct b; cbn; easy. Qed.

Section PolarInvariant.

Context {damper : DamperClass}.

Lemma setOrbit_polar_inv (gT gP gR : option num) (s : SmoothControls) :
  polar_inv s -> number_or_omitted gP ->
  polar_inv (exec (setOrbit gT gP gR) s).
Proof.
  intros ((Hg & Hc) & Hlo & Hhi) HP.
  destruct (setOrbit_current_frame gT gP gR s) as (Fphi & _).
  assert (Hin : is_number (or_default gP (phi (goalSpherical s)))).
  { destruct gP; cbn in *; [exact HP|now apply safe_polar_number]. }
  unfold polar_inv, polar_safe. rewrite Fphi.
  unfold exec in *. rewrite setOrbit_eq. cbv zeta.
  assert (F : forall n,
             goalSpherical (rewrap (_options s) n s) = goalSpherical s /\
             _options (rewrap (_options s) n s) = _options s).
  { intros n. unfold rewrap. destruct (_ && _); cbn; auto. }
  destruct (clamp _ (minimumAzimuthalAngle _) _) as [nT|]; cbn [snd];
    [|now auto].
  destruct (F nT) as (F1 & F2).
  destruct (clamp _ (minimumPolarAngle _) _) as [nP|] eqn:EP; cbn [snd];
    [|rewrite F1, F2; now auto].
  destruct (clamp _ (minimumRadius _) _) as [nR|]; cbn [snd];
    [|rewrite F1, F2; now auto].
  destruct (_ && _ && _); cbn [snd]; [rewrite F1, F2; now auto|].
  cbn [set_isUserChange set_goalSpherical goalSpherical spherical _options].
  rewrite F2. repeat split; auto.
  apply makeSafe_safe. cbn. exact (@clamp_number _ _ _ _ Hin Hlo Hhi EP).
Qed.

Lemma setFieldOfView_polar_inv (f : num) (s : SmoothControls) :
  polar_inv s -> polar_inv (exec (setFieldOfView f) s).
Proof.
  intros H. destruct (setFieldOfView_frame f s) as (F1 & F2 & _ & F4).
  unfold polar_inv, polar_safe in *. now rewrite F1, F2, F4.
Qed.

Lemma adjustOrbit_polar_inv (dT dP dZ : num) (s : SmoothControls) :
  polar_inv s -> is_number dP -> polar_inv (exec (adjustOrbit dT dP dZ) s).
Proof.
  intros H HP. unfold exec. rewrite adjustOrbit_eq. cbv zeta.
  destruct (clamp dT _ _) as [c|]; [|exact H].
  assert (Hn : number_or_omitted (Some (phi (goalSpherical s) - dP)%js)).
  { destruct H as ((( r & -> & _) & _) & _). cbn. now apply sub_number_Fin. }
  pose proof (@setOrbit_polar_inv
                (Some (theta (goalSpherical s) - c)%js)
                (Some (phi (goalSpherical s) - dP)%js)
                (Some (adjust_goalRadius (_options s) (radius (goalSpherical s))
                         (goalLogFov s) dZ)) s H Hn) as H1.
  unfold exec in H1.
  destruct (setOrbit _ _ _ s) as [[b|e] s1]; cbn [fst snd] in *; [|exact H1].
  destruct (dZ !== Fin 0)%js; [|exact H1].
  now apply setFieldOfView_polar_inv.
Qed.

Lemma setRadius_polar_inv (r : num) (s : SmoothControls) :
  polar_inv s -> polar_inv (exec (setRadius r) s).
Proof.
  intros H. unfold exec, setRadius, bind, modify, ret. cbv beta iota.
  pose proof (@setOrbit_polar_inv None None None
                (set_goalSpherical (set_radius r (goalSpherical s)) s)) as H1.
  unfold exec in H1.
  destruct (setOrbit None None None _) as [[b|e] s1]; cbn [fst snd] in *;
    apply H1; cbn; auto.
Qed.

Lemma applyOptions_polar_inv (p : PartialOptions) (s : SmoothControls) :
  polar_inv s ->
  number_or_omitted (p_minimumPolarAngle p) ->
  number_or_omitted (p_maximumPolarAngle p) ->
  polar_inv (exec (applyOptions p) s).
Proof.
  intros (Hs & Hlo & Hhi) Plo Phi.
  unfold exec. rewrite applyOptions_eq. cbv zeta.
  assert (H0 : polar_inv (set_options (Object_assign (_options s) p) s)).
  { split; [exact Hs|]. cbn.
    destruct (p_minimumPolarAngle p), (p_maximumPolarAngle p); cbn in *; auto. }
  pose proof (@setOrbit_polar_inv None None None _ H0 I) as H1.
  unfold exec in H1.
  destruct (setOrbit None None None _) as [[b|e] s1]; cbn [fst snd] in *;
    [|exact H1].
  now apply setFieldOfView_polar_inv.
Qed.

Lemma long_path_corrected_fields (s : SmoothControls) :
  let s' := long_path_corrected s in
  phi (spherical s') = phi (spherical s) /\
  goalSpherical s' = goalSpherical s /\
  _options s' = _options s /\
  phiDamper s' = phiDamper s.
Proof.
  unfold long_path_corrected. destruct (_ && _ && _); cbn; auto.
Qed.

Lemma damped_fields (o : Options) (delta : num) (s : SmoothControls) :
  let s' := damped o delta s in
  phi (spherical s') =
    fst (Damper_update (phiDamper s) (phi (spherical s))
           (phi (goalSpherical s)) delta (maximumPolarAngle o)) /\
  goalSpherical s' = goalSpherical s /\
  _options s' = _options s.
Proof.
  unfold damped.
  destruct (Damper_update (thetaDamper s) _ _ _ _) as [v1 d1]. cbn.
  destruct (Damper_update (phiDamper s) _ _ _ _) as [v2 d2]. cbn.
  destruct (Damper_update (radiusDamper s) _ _ _ _) as [v3 d3]. cbn.
  destruct (Damper_update (fovDamper s) _ _ _ _) as [v4 d4]. cbn.
  auto.
Qed.

(** A moving controller comes out of [update] with a safe current polar
    angle, whatever it was. *)
Lemma update_makes_current_safe (time delta : num) (s : SmoothControls) :
  damper_returns_numbers ->
  isStationary s = false ->
  safe_polar (phi (goalSpherical s)) -> is_number (phi (spherical s)) ->
  is_number (minimumPolarAngle (_options s)) ->
  is_number (maximumPolarAngle (_options s)) ->
  is_number delta ->
  polar_inv (exec (update time delta) s).
Proof.
  intros HD Hst Hg Hc Hlo Hhi Hd. unfold exec. rewrite update_eq, Hst.
  destruct (long_path_corrected_fields s) as (L1 & L2 & L3 & L4).
  destruct (damped_fields (_options s) delta (long_path_corrected s))
    as (D1 & D2 & D3).
  destruct (moveCamera_current
              (damped (_options s) delta (long_path_corrected s)))
    as (_ & M1 & M2 & _ & _ & M3).
  unfold exec in *. cbv zeta in *.
  unfold polar_inv, polar_safe.
  rewrite M1, M2, M3, D2, D3, L2, L3.
  repeat split; auto.
  apply makeSafe_safe. rewrite D1, L1, L2, L4.
  apply HD; auto using safe_polar_number.
Qed.

Lemma update_polar_inv (time delta : num) (s : SmoothControls) :
  damper_returns_numbers ->
  polar_inv s -> is_number delta -> polar_inv (exec (update time delta) s).
Proof.
  intros HD H Hd. destruct (isStationary s) eqn:Hst.
  - unfold exec. rewrite update_eq, Hst. exact H.
  - destruct H as ((Hg & Hc) & Hlo & Hhi).
    apply update_makes_current_safe; auto using safe_polar_number.
Qed.

Lemma run_polar_inv (op : Operation) (s : SmoothControls) :
  damper_returns_numbers ->
  polar_inv s -> polar_inputs_are_numbers op -> polar_inv (exec (run op) s).
Proof.
  intros HD H Hop. destruct op; cbn [run polar_inputs_are_numbers] in *.
  - pose proof (@setOrbit_polar_inv goalTheta goalPhi goalRadius s H Hop) as H1.
    unfold exec, bind, ret in *.
    destruct (setOrbit _ _ _ s) as [[b|e] s1]; exact H1.
  - now apply adjustOrbit_polar_inv.
  - now apply setRadius_polar_inv.
  - now apply setFieldOfView_polar_inv.
  - destruct Hop. now apply applyOptions_polar_inv.
  - now apply update_polar_inv.
Qed.

Lemma constructor_polar_inv (camera : Camera) (element : Element) :
  damper_returns_numbers -> is_number SETTLING_TIME ->
  polar_inv (snd (constructor camera element)).
Proof.
  intros HD HS. pose proof PI_bounds as Hpi.
  unfold constructor, bind.
  destruct (@setOrbit_post _ (Some (Fin 0)) (Some (Fin (PI / 2))) (Some (Fin 1))
              (fresh camera element) (Fin 0) (Fin (PI / 2)) (Fin 1))
    as (b & Hres & _ & _ & Hp & Hb & _ & _ & _ & Hop);
    [clamp_eval | clamp_eval | clamp_eval |].
  destruct (setOrbit_current_frame (Some (Fin 0)) (Some (Fin (PI / 2)))
              (Some (Fin 1)) (fresh camera element)) as (Hcur & _).
  unfold exec, result in *.
  destruct (setOrbit _ _ _ (fresh camera element)) as [[b'|e] s1];
    cbn [fst snd] in *; [|discriminate].
  injection Hres as ->.
  assert (Hb' : b = true).
  { destruct b; [reflexivity|]. specialize (Hb eq_refl).
    cbn in Hb. injection Hb as Hb. lra. }
  subst b.
  assert (Hg1 : phi (goalSpherical s1) = Fin (PI / 2)).
  { rewrite Hp. unfold makeSafe, Math_PI. cbn. decide_reals. cbn.
    now decide_reals. }
  destruct (setFieldOfView_frame (Fin 100) s1) as (F1 & F2 & _ & F4).
  unfold exec in *. cbv zeta in *.
  destruct (setFieldOfView (Fin 100) s1) as [[[]|e] s2] eqn:E2;
    cbn [fst snd] in *.
  - apply (update_makes_current_safe (Fin 0)); auto.
    + unfold isStationary. rewrite F1, F2, Hg1, Hcur. cbn.
      rewrite (proj2 (Reqb_false (PI / 2) 0)) by lra.
      now rewrite andb_false_r.
    + rewrite F1, Hg1. exists (PI / 2). unfold EPS. split; [reflexivity|lra].
    + rewrite F2, Hcur. discriminate.
    + rewrite F4, Hop. discriminate.
    + rewrite F4, Hop. discriminate.
  - (* [setFieldOfView(100)] does not throw on the default options *)
    exfalso. rewrite setFieldOfView_eq, Hop in E2. cbn in E2.
    revert E2. clamp_eval. discriminate.
Qed.

End PolarInvariant.

(** C9 (amended): after construction and after every public operation
    whose polar inputs are numbers (not NaN), under a damper that returns
    numbers for numbers, the polar angle of both the goal and the current
    spherical state is a real number in the closed range
    [EPS, pi - EPS], with [EPS = 0.000001]; it stays clear of the poles 0
    and pi. *)
Theorem polar_stays_in_safe_range
    {damper : DamperClass} (s : SmoothControls) :
  damper_returns_numbers -> is_number SETTLING_TIME ->
  reachable s ->
  polar_safe s /\
  (forall p, phi (goalSpherical s) = Fin p \/ phi (spherical s) = Fin p ->
             0 < p < PI).
Proof.
  intros HD HS Hr.
  assert (H : polar_inv s).
  { induction Hr.
    - now apply constructor_polar_inv.
    - now apply run_polar_inv. }
  destruct H as (Hs & _). split; [exact Hs|].
  pose proof PI_bounds as Hpi.
  destruct Hs as ((g & Eg & Hg) & (c & Ec & Hc)).
  unfold EPS in *.
  intros p [E|E]; [rewrite Eg in E | rewrite Ec in E]; injection E as <-; lra.
Qed.

Lemma snapDamper_returns_numbers : @damper_returns_numbers snapDamper.
Proof. intros d x xGoal dt scale _ Hg _ _. exact Hg. Qed.

(** The theorem on a new controller after [setOrbit(0, 0, 1)]. *)
Lemma polar_stays_in_safe_range_witness :
  let s := exec (run (op_setOrbit (Some (Fin 0)) (Some (Fin 0)) (Some (Fin 1))))
                (constructed true) in
  polar_safe s /\
  (forall p, phi (goalSpherical s) = Fin p \/ phi (spherical s) = Fin p ->
             0 < p < PI).
Proof.
  apply (@polar_stays_in_safe_range snapDamper).
  - exact snapDamper_returns_numbers.
  - discriminate.
  - apply reach_op; [apply reach_new | cbn; discriminate].
Defined.

(* ================================================================== *)
(** ** Frame rules: what a method leaves alone *)

Section FrameRules.

Context {St A : Type} (f : St -> A).

Lemma preserves_ret {B} (b : B) : preserves f (ret b).
Proof. intros s. reflexivity. Qed.

Lemma preserves_gets {B} (g : St -> B) : preserves f (gets g).
Proof. intros s. reflexivity. Qed.

Lemma preserves_throw {B} (e : exn) : preserves f (@throw St B e).
Proof. intros s. reflexivity. Qed.

Lemma preserves_call {B} (c : completion B) : preserves f (call c).
Proof. intros s. reflexivity. Qed.

Lemma preserves_modify (g : St -> St) :
  (forall s, f (g s) = f s) -> preserves f (modify g).
Proof. intros H s. apply H. Qed.

Lemma preserves_bind {B C} (m : M St B) (k : B -> M St C) :
  preserves f m -> (forall b, preserves f (k b)) -> preserves f (bind m k).
Proof.
  intros Hm Hk s. unfold exec, bind.
  specialize (Hm s). unfold exec in Hm.
  destruct (m s) as [[b|e] s1]; cbn [snd] in *.
  - rewrite <- Hm. apply Hk.
  - exact Hm.
Qed.

Lemma preserves_when (b : bool) (m : M St unit) :
  preserves f m -> preserves f (when b m).
Proof. intros H. destruct b; [exact H|apply preserves_ret]. Qed.

End FrameRules.

Create HintDb frame.

Ltac frame_step :=
  first
    [ apply preserves_ret | apply preserves_gets | apply preserves_throw
    | apply preserves_call
    | apply preserves_modify; intros; reflexivity
    | apply preserves_when
    | apply preserves_bind; [|intros]
    | match goal with
      | |- preserves _ (if ?b then _ else _) => destruct b
      | |- preserves _ (match ?x with _ => _ end) => destruct x
      end
    | solve [auto with frame]
    | progress cbv zeta ].

Ltac frame := repeat frame_step.

Section Frames.

Context {damper : DamperClass}.

Lemma setOrbit_input (gT gP gR : option num) :
  preserves input_state (setOrbit gT gP gR).
Proof. unfold setOrbit. frame. Qed.

Lemma setFieldOfView_input (f : num) : preserves input_state (setFieldOfView f).
Proof. unfold setFieldOfView. frame. Qed.

#[local] Hint Resolve setOrbit_input setFieldOfView_input : frame.

Lemma adjustOrbit_input (dT dP dZ : num) :
  preserves input_state (adjustOrbit dT dP dZ).
Proof. unfold adjustOrbit. frame. Qed.

#[local] Hint Resolve adjustOrbit_input : frame.

Lemma emit_input (e : Effect) : preserves input_state (emit e).
Proof. unfold emit. frame. Qed.

#[local] Hint Resolve emit_input : frame.

Lemma userAdjustOrbit_input (dT dP dZ : num) :
  preserves input_state (userAdjustOrbit dT dP dZ).
Proof. unfold userAdjustOrbit. frame. Qed.

(** The touch intent is part of the input state. *)
Lemma preserves_intent {B} (m : Method B) :
  preserves input_state m -> preserves intent m.
Proof.
  intros H s. specialize (H s). unfold input_state, intent in *.
  now injection H as _ _ _ _ _ _ -> -> _ _ _.
Qed.

Lemma userAdjustOrbit_intent (dT dP dZ : num) :
  preserves intent (userAdjustOrbit dT dP dZ).
Proof. apply preserves_intent, userAdjustOrbit_input. Qed.

Lemma emit_intent (e : Effect) : preserves intent (emit e).
Proof. apply preserves_intent, emit_input. Qed.

#[local] Hint Resolve userAdjustOrbit_intent emit_intent : frame.

Lemma handleSinglePointerMove_intent (p : option Pointer) :
  preserves intent (handleSinglePointerMove p).
Proof.
  unfold handleSinglePointerMove, pixelLengthToSphericalAngle. frame.
Qed.

#[local] Hint Resolve handleSinglePointerMove_intent : frame.

Lemma preventDefault_intent (ev : Event) :
  preserves intent (preventDefault_if_cancelable ev).
Proof. unfold preventDefault_if_cancelable. frame. Qed.

#[local] Hint Resolve preventDefault_intent : frame.

(** A gesture classified as scroll ignores every touch movement. *)
Lemma onPointerMove_scroll (c : bool) (ts : list Pointer) (s : SmoothControls) :
  touchMode s = scroll ->
  onPointerMove (touch_event touchmove c ts) s = (Normal tt, s).
Proof.
  intros H. unfold onPointerMove, bind, gets. cbv beta iota.
  destruct (negb (pointerIsDown s) || negb (canInteract s)); [reflexivity|].
  cbn. now rewrite H.
Qed.

Lemma preserves_decided {B} (m : Method B) :
  preserves intent m -> preserves touchDecided m.
Proof.
  intros H s. specialize (H s). unfold intent in H. now injection H.
Qed.

Lemma handleSinglePointerMove_decided (p : option Pointer) :
  preserves touchDecided (handleSinglePointerMove p).
Proof. apply preserves_decided, handleSinglePointerMove_intent. Qed.

Lemma preventDefault_decided (ev : Event) :
  preserves touchDecided (preventDefault_if_cancelable ev).
Proof. apply preserves_decided, preventDefault_intent. Qed.

#[local] Hint Resolve handleSinglePointerMove_decided preventDefault_decided
  : frame.

Lemma exec_bind_gets {A B} (g : SmoothControls -> A) (k : A -> Method B)
    (s : SmoothControls) :
  exec (bind (gets g) k) s = exec (k (g s)) s.
Proof. reflexivity. Qed.

Lemma exec_bind_modify {B} (g : SmoothControls -> SmoothControls)
    (k : unit -> Method B) (s : SmoothControls) :
  exec (bind (modify g) k) s = exec (k tt) (g s).
Proof. reflexivity. Qed.

(** One movement either leaves the touch intent as it is, or decides an
    undecided gesture. *)
Lemma onPointerMove_intent (ev : Event) (s : SmoothControls) :
  let s' := exec (onPointerMove ev) s in
  intent s' = intent s \/ (touchDecided s = false /\ touchDecided s' = true).
Proof.
  cbv zeta. unfold onPointerMove. rewrite exec_bind_gets.
  destruct (negb (pointerIsDown s) || negb (canInteract s)); [now left|].
  destruct (TOUCH_EVENT_RE_test (type ev)).
  2:{ left.
      match goal with
      | |- intent (exec ?m s) = _ =>
          assert (H : preserves intent m) by frame; apply H
      end. }
  destruct (touchMode s) eqn:Hm.
  - (* rotate *)
    cbv zeta.
    destruct (negb (touchDecided s) && _) eqn:Hu.
    + right. apply andb_prop in Hu as [Hu _].
      apply negb_true_iff in Hu. split; [exact Hu|].
      rewrite exec_bind_modify.
      match goal with
      | |- touchDecided (exec ?m _) = _ =>
          assert (H : preserves touchDecided m) by frame; rewrite H
      end.
      reflexivity.
    + left.
      match goal with
      | |- intent (exec ?m s) = _ =>
          assert (H : preserves intent m) by frame; apply H
      end.
  - (* zoom *)
    left.
    match goal with
    | |- intent (exec ?m s) = _ =>
        assert (H : preserves intent m) by frame; apply H
    end.
  - (* scroll *) now left.
Qed.

Lemma handleSinglePointerDown_decided (p : option Pointer) :
  preserves touchDecided (handleSinglePointerDown p).
Proof. unfold handleSinglePointerDown. frame. Qed.

#[local] Hint Resolve handleSinglePointerDown_decided : frame.

(** A new touch gesture starts undecided. *)
Lemma onPointerDown_undecided (c : bool) (ts : list Pointer)
    (s : SmoothControls) :
  touchDecided (exec (onPointerDown (touch_event touchstart c ts)) s) = false.
Proof.
  unfold onPointerDown. rewrite !exec_bind_modify. cbn [TOUCH_EVENT_RE_test
    type touch_event].
  rewrite exec_bind_modify.
  match goal with
  | |- touchDecided (exec ?m _) = _ =>
      assert (H : preserves touchDecided m) by frame; rewrite H
  end.
  reflexivity.
Qed.

Lemma intent_eqb_refl (i : bool * TouchMode) : intent_eqb i i = true.
Proof. destruct i as [[] []]; reflexivity. Qed.

(** The movements of a gesture change the touch intent at most once, and
    not at all once it is decided. *)
Lemma intent_changes_bound (events : list Event) (s : SmoothControls) :
  (intent_changes onPointerMove events s
   <= if touchDecided s then 0 else 1)%nat.
Proof.
  revert s. induction events as [|e rest IH]; intros s; cbn [intent_changes].
  - destruct (touchDecided s); lia.
  - cbv zeta. specialize (IH (exec (onPointerMove e) s)).
    destruct (onPointerMove_intent e s) as [E|[E1 E2]]; cbv zeta in *.
    + rewrite E, intent_eqb_refl.
      assert (Ed : touchDecided (exec (onPointerMove e) s) = touchDecided s).
      { unfold intent in E. now injection E. }
      rewrite Ed in IH. lia.
    + rewrite E1, E2 in *. destruct (intent_eqb _ _); lia.
Qed.

Lemma handle_all_app (h : Event -> Method unit) (a b : list Event)
    (s : SmoothControls) :
  handle_all h (a ++ b) s = handle_all h b (handle_all h a s).
Proof. revert s. induction a as [|e a IH]; intros s; cbn; auto. Qed.

Lemma handle_all_scroll (moves : list (bool * list Pointer))
    (s : SmoothControls) :
  touchMode s = scroll ->
  handle_all onPointerMove (touch_moves moves) s = s.
Proof.
  intros H. induction moves as [|[c ts] rest IH]; cbn; [reflexivity|].
  unfold exec. rewrite onPointerMove_scroll by exact H. exact IH.
Qed.

(** What a [touchstart] leaves behind: the pointer is down, the gate is
    where it was, and unless exactly two fingers are down the mode is
    rotate. *)
Lemma onPointerDown_touch_start (c : bool) (start : list Pointer)
    (s : SmoothControls) :
  let s1 := exec (onPointerDown (touch_event touchstart c start)) s in
  pointerIsDown s1 = true /\
  canInteract s1 = canInteract s /\
  touchAction (_options s1) = touchAction (_options s) /\
  (length start <> 2%nat -> touchMode s1 = rotate).
Proof.
  cbv zeta. unfold canInteract.
  destruct start as [|a [|b [|d rest]]]; cbn; repeat split; auto.
  intros H. now contradiction H.
Qed.

(** The first movement that reaches an undecided rotate gesture decides
    it, unless the touch action is [none]. *)
Lemma first_move_decides (c : bool) (ts : list Pointer) (s : SmoothControls) :
  pointerIsDown s = true -> canInteract s = true ->
  touchMode s = rotate -> touchDecided s = false ->
  touchAction (_options s) <> none ->
  touchDecided (exec (onPointerMove (touch_event touchmove c ts)) s) = true.
Proof.
  intros Hd Hc Hm Hu Ha.
  unfold onPointerMove. rewrite exec_bind_gets, Hd, Hc, Hm, Hu.
  cbn [negb orb andb TOUCH_EVENT_RE_test type touch_event].
  cbv zeta.
  destruct (touchAction (_options s)) eqn:E; try contradiction;
    rewrite exec_bind_modify;
    match goal with
    | |- touchDecided (exec ?m _) = _ =>
        assert (H : preserves touchDecided m) by frame; rewrite H
    end; reflexivity.
Qed.

(** C7: a touch gesture is what [onPointerDown] starts on a [touchstart]
    event, followed by any number of [touchmove] events.  It starts
    undecided; its movements change the touch intent (decided or not, and
    the mode) at most once; when it starts in rotate mode (one finger) on
    a controller that can interact and whose touch action is not [none],
    its first movement decides it; and from the moment its mode is scroll,
    every further movement leaves the whole controller, its orbit
    included, as it is, whatever the direction of the movement. *)
Theorem touch_intent_decided_once
    (s0 : SmoothControls) (c0 : bool) (start : list Pointer)
    (moves : list (bool * list Pointer)) :
  let s1 := exec (onPointerDown (touch_event touchstart c0 start)) s0 in
  touchDecided s1 = false /\
  (intent_changes onPointerMove (touch_moves moves) s1 <= 1)%nat /\
  (length start <> 2%nat -> canInteract s0 = true ->
   touchAction (_options s0) <> none ->
   forall c ts,
     touchDecided (exec (onPointerMove (touch_event touchmove c ts)) s1)
       = true) /\
  (forall before after : list (bool * list Pointer),
     moves = before ++ after ->
     touchMode (handle_all onPointerMove (touch_moves before) s1) = scroll ->
     handle_all onPointerMove (touch_moves moves) s1 =
     handle_all onPointerMove (touch_moves before) s1).
Proof.
  cbv zeta. pose proof (onPointerDown_undecided c0 start s0) as Hd.
  split; [exact Hd|]. split; [|split].
  - pose proof (intent_changes_bound (touch_moves moves)
                  (exec (onPointerDown (touch_event touchstart c0 start)) s0))
      as H.
    rewrite Hd in H. exact H.
  - intros Hlen Hc Ha c ts.
    destruct (onPointerDown_touch_start c0 start s0) as (P1 & P2 & P3 & P4).
    cbv zeta in *.
    apply first_move_decides; auto; congruence.
  - intros before after -> Hs.
    unfold touch_moves. rewrite map_app, handle_all_app.
    now apply handle_all_scroll.
Qed.

(** The first movement of an undecided rotate gesture decides it: on a
    surface that passes vertical panning through, a mostly vertical
    movement makes it a scroll. *)
Lemma vertical_move_scrolls (s : SmoothControls) (c : bool)
    (x0 y0 x y : R) :
  pointerIsDown s = true -> canInteract s = true ->
  touchMode s = rotate -> touchDecided s = false ->
  touchAction (_options s) = pan_y ->
  lastPointerPosition s = mkPointer (Fin x0) (Fin y0) ->
  Rabs (x - x0) < Rabs (y - y0) ->
  let s' := exec (onPointerMove
                    (touch_event touchmove c [mkPointer (Fin x) (Fin y)])) s in
  touchMode s' = scroll /\ touchDecided s' = true /\ orbit s' = orbit s.
Proof.
  intros Hd Hc Hm Hu Ha Hl Hxy. cbv zeta.
  unfold onPointerMove. rewrite exec_bind_gets.
  rewrite Hd, Hc, Hm, Hu, Ha, Hl. cbn.
  rewrite (proj2 (Rltb_true _ _)) by exact Hxy.
  cbn. auto.
Qed.

End Frames.

(* ================================================================== *)
(** ** The interaction gate *)

Section Gate.

Context {damper : DamperClass}.

(** [onWheel] and [onPointerMove] check the gate first. *)
Lemma onWheel_gated (ev : Event) (s : SmoothControls) :
  canInteract s = false -> onWheel ev s = (Normal tt, s).
Proof.
  intros H. unfold onWheel, bind, gets. cbv beta iota. now rewrite H.
Qed.

Lemma onPointerMove_gated (ev : Event) (s : SmoothControls) :
  canInteract s = false -> onPointerMove ev s = (Normal tt, s).
Proof.
  intros H. unfold onPointerMove, bind, gets. cbv beta iota.
  now rewrite H, orb_true_r.
Qed.

(** [onPointerDown] and [onPointerUp] have no gate, and do not need one:
    they never touch the orbit. *)
Lemma onPointerDown_orbit (ev : Event) : preserves orbit (onPointerDown ev).
Proof. unfold onPointerDown, handleSinglePointerDown. frame. Qed.

Lemma onPointerUp_orbit (ev : Event) : preserves orbit (onPointerUp ev).
Proof. unfold onPointerUp, emit. frame. Qed.

(** The goal that the left-arrow key leaves behind is the one its
    [adjustOrbit] call leaves behind. *)
Lemma onKeyDown_LEFT_goal (s : SmoothControls) :
  goalSpherical (exec (onKeyDown (key_event KeyCode.LEFT)) s) =
  goalSpherical
    (exec (adjustOrbit (- KEYBOARD_ORBIT_INCREMENT * sensitivity s)%js
                       (Fin 0 * sensitivity s)%js (Fin 0)) s).
Proof.
  unfold onKeyDown, userAdjustOrbit, exec, bind, gets, modify, emit, when, ret.
  cbn [key_event keyCode cancelable Z.eqb KeyCode.LEFT KeyCode.PAGE_UP
       KeyCode.PAGE_DOWN KeyCode.UP KeyCode.DOWN KeyCode.RIGHT Pos.eqb].
  destruct (adjustOrbit _ _ _ s) as [[[]|e] s1]; reflexivity.
Qed.

End Gate.

Lemma applyOptions_bystanders {damper : DamperClass} (p : PartialOptions) :
  preserves (fun s => (element s, sensitivity s)) (applyOptions p).
Proof.
  assert (H1 : forall a b c,
             preserves (fun s => (element s, sensitivity s)) (setOrbit a b c)).
  { intros a b c s. pose proof (setOrbit_input a b c s) as H.
    unfold input_state in H. now injection H as -> ->. }
  assert (H2 : forall f,
             preserves (fun s => (element s, sensitivity s))
                       (setFieldOfView f)).
  { intros f s. pose proof (setFieldOfView_input f s) as H.
    unfold input_state in H. now injection H as -> ->. }
  unfold applyOptions. frame; auto.
Qed.

(** The orbit and the gate after
    [applyOptions({interactionPolicy: 'allow-when-focused'})] on a new
    controller whose element does not have the focus. *)
Lemma focus_gated_fields :
  let s := exec (applyOptions focus_gated) (constructed false) in
  canInteract s = false /\
  _options s = Object_assign DEFAULT_OPTIONS focus_gated /\
  theta (goalSpherical s) = Fin 0 /\
  theta (spherical s) = Fin 0 /\
  sensitivity s = Fin 1.
Proof.
  destruct (constructed_fields false) as (Ho & Hg & Hc & Hgl & Hl & Hs & He).
  cbv zeta in Ho, Hg, Hc, Hgl, Hl, Hs, He. cbv zeta.
  destruct (@applyOptions_post _ focus_gated (constructed false)
              (Fin 0) (Fin (PI / 2)) (Fin 1) (Fin 45))
    as (_ & Ho1 & Ht1 & _ & _ & _ & Hsp1 & _);
    try (rewrite ?Ho, ?Hg, ?Hgl; clamp_eval; rewrite ?exp_ln by lra;
         clamp_eval).
  pose proof (applyOptions_bystanders focus_gated (constructed false)) as Hb.
  cbv beta in Hb. injection Hb as Hb1 Hb2.
  repeat split; auto.
  - unfold canInteract. rewrite Ho1, Ho, Hb1, He. reflexivity.
  - now rewrite Ho1, Ho.
  - rewrite Hsp1. pose proof PI_bounds.
    apply rewrap_theta_near; [now rewrite Hc | lra].
  - now rewrite Hb2.
Qed.

(** C3 fails on the code: [onKeyDown], unlike [onWheel] and
    [onPointerMove], never consults [canInteract].  On a controller with
    [interactionPolicy = 'allow-when-focused'] whose element does not have
    the focus, the left-arrow key moves the goal azimuth from 0 to pi/8,
    while a wheel event is ignored. *)
Lemma onKeyDown_ignores_the_gate :
  let s := exec (applyOptions focus_gated) (constructed false) in
  let s' := exec (onKeyDown (key_event KeyCode.LEFT)) s in
  canInteract s = false /\
  theta (goalSpherical s) = Fin 0 /\
  theta (goalSpherical s') = Fin (PI / 8) /\
  orbit s' <> orbit s /\
  exec (onWheel (wheel_event (Fin 100))) s = s.
Proof.
  pose proof PI_bounds as Hpi.
  destruct focus_gated_fields as (Hgate & Ho & Hg & Hc & Hs). cbv zeta in *.
  set (s := exec (applyOptions focus_gated) (constructed false)) in *.
  assert (Hth : theta (goalSpherical
                  (exec (onKeyDown (key_event KeyCode.LEFT)) s)) = Fin (PI / 8)).
  { rewrite onKeyDown_LEFT_goal, Hs.
    destruct (@adjustOrbit_theta _ s
                (- KEYBOARD_ORBIT_INCREMENT * Fin 1)%js (Fin 0 * Fin 1)%js
                (Fin 0) (- (PI / 8) * 1) (Fin (PI / 8)))
      as (F1 & _);
      try (rewrite ?Ho, ?Hg, ?Hc; unfold ordered, KEYBOARD_ORBIT_INCREMENT;
           clamp_eval; cbn; lra).
    exact F1. }
  repeat split; auto.
  - intros E. unfold orbit in E. injection E as E _ _ _.
    rewrite E, Hg in Hth. injection Hth as Hth. lra.
  - unfold exec. now rewrite onWheel_gated.
Qed.

(* ================================================================== *)
(** ** A touch gesture on a concrete controller *)

Lemma onPointerDown_single_touch {damper : DamperClass}
    (c : bool) (p : Pointer) (s : SmoothControls) :
  let s' := exec (onPointerDown (touch_event touchstart c [p])) s in
  pointerIsDown s' = true /\
  touchMode s' = rotate /\
  touchDecided s' = false /\
  lastPointerPosition s' = mkPointer (clientX p) (clientY p) /\
  _options s' = _options s /\
  isActiveElement (element s') = isActiveElement (element s) /\
  orbit s' = orbit s.
Proof. cbv zeta. cbn. auto 10. Qed.

(** The theorem on a two-movement gesture on a new controller (touch
    action [pan-y]): the finger goes down at (0, 0), moves down to (0, 10),
    which makes the gesture a scroll, and then sideways to (50, 10), which
    is ignored. *)
Lemma touch_intent_witness :
  let s1 := exec (onPointerDown
                    (touch_event touchstart true [mkPointer (Fin 0) (Fin 0)]))
                 (constructed true) in
  let down := (true, [mkPointer (Fin 0) (Fin 10)]) in
  let sideways := (true, [mkPointer (Fin 50) (Fin 10)]) in
  touchDecided s1 = false /\
  (intent_changes onPointerMove (touch_moves [down; sideways]) s1 <= 1)%nat /\
  touchMode (handle_all onPointerMove (touch_moves [down]) s1) = scroll /\
  handle_all onPointerMove (touch_moves [down; sideways]) s1 =
  handle_all onPointerMove (touch_moves [down]) s1.
Proof.
  cbv zeta.
  destruct (constructed_fields true) as (Ho & _ & _ & _ & _ & _ & He).
  cbv zeta in Ho, He.
  destruct (onPointerDown_single_touch true (mkPointer (Fin 0) (Fin 0))
              (constructed true))
    as (Hd & Hm & Hu & Hl & Ho1 & Ha1 & _).
  cbv zeta in *.
  set (s1 := exec (onPointerDown
                     (touch_event touchstart true [mkPointer (Fin 0) (Fin 0)]))
                  (constructed true)) in *.
  assert (Hscroll :
            touchMode (handle_all onPointerMove
                         (touch_moves [(true, [mkPointer (Fin 0) (Fin 10)])])
                         s1) = scroll).
  { apply (@vertical_move_scrolls _ s1 true 0 0 0 10); auto.
    - unfold canInteract. now rewrite Ho1, Ho.
    - now rewrite Ho1, Ho.
    - rewrite Rabs_pos_eq, Rabs_pos_eq; lra. }
  destruct (@touch_intent_decided_once _ (constructed true) true
              [mkPointer (Fin 0) (Fin 0)]
              [(true, [mkPointer (Fin 0) (Fin 10)]);
               (true, [mkPointer (Fin 50) (Fin 10)])])
    as (T1 & T2 & _ & T3).
  repeat split; auto.
  exact (T3 [(true, [mkPointer (Fin 0) (Fin 10)])]
            [(true, [mkPointer (Fin 50) (Fin 10)])] eq_refl Hscroll).
Defined.

(* ================================================================== *)
(** ** update: the long way round *)

Section Update.

Context {damper : DamperClass}.

Lemma damped_theta (o : Options) (delta : num) (s : SmoothControls) :
  theta (spherical (damped o delta s)) =
  fst (Damper_update (thetaDamper s) (theta (spherical s))
         (theta (goalSpherical s)) delta Math_PI).
Proof.
  unfold damped.
  destruct (Damper_update (thetaDamper s) _ _ _ _) as [v1 d1]. cbn.
  destruct (Damper_update (phiDamper s) _ _ _ _) as [v2 d2]. cbn.
  destruct (Damper_update (radiusDamper s) _ _ _ _) as [v3 d3]. cbn.
  destruct (Damper_update (fovDamper s) _ _ _ _) as [v4 d4]. cbn.
  reflexivity.
Qed.

(** The azimuth that [update] hands to the damper when the current azimuth
    is more than pi away from the goal and the azimuth is unbounded. *)
Lemma long_path_corrected_theta (s : SmoothControls) (c g : R) :
  minimumAzimuthalAngle (_options s) = NegInf ->
  maximumAzimuthalAngle (_options s) = PosInf ->
  theta (spherical s) = Fin c -> theta (goalSpherical s) = Fin g ->
  PI < Rabs (c - g) ->
  let s' := long_path_corrected s in
  theta (spherical s') =
    Fin (c - (if Rltb 0 (c - g) then 1 else -1) * 2 * PI) /\
  theta (goalSpherical s') = Fin g /\
  thetaDamper s' = thetaDamper s.
Proof.
  intros Hmin Hmax Hc Hg Hd. pose proof PI_RGT_0 as Hpi. cbv zeta.
  unfold long_path_corrected. rewrite Hmin, Hmax, Hc, Hg.
  unfold Math_PI. cbn.
  replace (c + - g) with (c - g) by lra.
  rewrite (proj2 (Rltb_true _ _)) by exact Hd. cbn.
  assert (Hne : c - g <> 0).
  { intros E. rewrite E, Rabs_R0 in Hd. lra. }
  rewrite (proj2 (Reqb_false _ _)) by exact Hne.
  rewrite Hg. repeat split.
  destruct (Rltb 0 (c - g)); cbn; f_equal; lra.
Qed.

(** C6: with both azimuth bounds infinite and the current azimuth more
    than pi away from the goal azimuth, [update] first moves the current
    azimuth by 2 pi towards the goal (it subtracts 2 pi when the current
    azimuth is above the goal, adds 2 pi when it is below), which makes
    the distance to the goal strictly smaller, and hands that azimuth to
    the damper; under a damper that does not overshoot, the new current
    azimuth lies between the corrected azimuth and the goal, so it is
    closer to the goal than the current azimuth was. *)
Theorem update_takes_the_short_way
    (s : SmoothControls) (time delta : num) (c g : R) :
  minimumAzimuthalAngle (_options s) = NegInf ->
  maximumAzimuthalAngle (_options s) = PosInf ->
  theta (spherical s) = Fin c -> theta (goalSpherical s) = Fin g ->
  PI < Rabs (c - g) ->
  is_number delta ->
  damper_does_not_overshoot ->
  let c' := c - (if Rltb 0 (c - g) then 1 else -1) * 2 * PI in
  let s' := exec (update time delta) s in
  Rabs (c' - g) < Rabs (c - g) /\
  theta (spherical s') =
    fst (Damper_update (thetaDamper s) (Fin c') (Fin g) delta Math_PI) /\
  exists r : R,
    theta (spherical s') = Fin r /\
    Rmin c' g <= r <= Rmax c' g /\
    Rabs (r - g) < Rabs (c - g).
Proof.
  intros Hmin Hmax Hc Hg Hd Hn HD c' s'.
  pose proof PI_RGT_0 as Hpi.
  assert (Hdist : Rabs (c' - g) < Rabs (c - g)).
  { subst c'. revert Hd. unfold Rabs.
    destruct (Rltb 0 (c - g)) eqn:E;
      [apply Rltb_true in E | apply Rltb_false in E];
      repeat match goal with
      | |- context [Rcase_abs ?a] => destruct (Rcase_abs a)
      end; lra. }
  assert (Hst : isStationary s = false).
  { unfold isStationary. rewrite Hc, Hg. cbn.
    rewrite (proj2 (Reqb_false g c)); [reflexivity|].
    intros ->. rewrite Rminus_diag, Rabs_R0 in Hd. lra. }
  destruct (@long_path_corrected_theta s c g Hmin Hmax Hc Hg Hd)
    as (L1 & L2 & L3).
  cbv zeta in L1, L2, L3. fold c' in L1.
  assert (Hth : theta (spherical s') =
                fst (Damper_update (thetaDamper s) (Fin c') (Fin g) delta
                       Math_PI)).
  { subst s'. unfold exec. rewrite update_eq, Hst.
    destruct (moveCamera_current
                (damped (_options s) delta (long_path_corrected s)))
      as (_ & M1 & _).
    unfold exec in M1. rewrite M1. cbn [makeSafe theta].
    now rewrite damped_theta, L1, L2, L3. }
  split; [exact Hdist|]. split; [exact Hth|].
  destruct (HD (thetaDamper s) c' g delta Math_PI Hn) as (r & Er & Hr).
  exists r. split; [now rewrite Hth|]. split; [exact Hr|].
  eapply Rle_lt_trans; [|exact Hdist].
  revert Hr. unfold Rmin, Rmax, Rabs.
  repeat match goal with
  | |- context [Rle_dec ?a ?b] => destruct (Rle_dec a b)
  | |- context [Rcase_abs ?a] => destruct (Rcase_abs a)
  end; lra.
Qed.

End Update.

Lemma snapDamper_does_not_overshoot : @damper_does_not_overshoot snapDamper.
Proof.
  intros d x g dt scale _. exists g. split; [reflexivity|].
  unfold Rmin, Rmax. destruct (Rle_dec x g); lra.
Qed.

(** The theorem on the case of the specification: current azimuth 3, goal
    azimuth -3.  The corrected azimuth 3 - 2 pi is below the goal, so what
    the damper returns is negative: the camera goes through the seam, not
    through 0. *)
Lemma update_takes_the_short_way_witness :
  let s' := exec (update (Fin 0) (Fin 16)) across_the_seam in
  Rabs (3 - 1 * 2 * PI - -3) < Rabs (3 - -3) /\
  exists r : R,
    theta (spherical s') = Fin r /\
    3 - 1 * 2 * PI <= r <= -3.
Proof.
  pose proof PI_bounds as Hpi.
  destruct (constructed_fields true) as (Ho & _). cbv zeta in Ho.
  assert (Hlt : Rltb 0 (3 - -3) = true) by (apply Rltb_true; lra).
  destruct (@update_takes_the_short_way snapDamper across_the_seam
              (Fin 0) (Fin 16) 3 (-3))
    as (H1 & _ & r & H2 & H3 & _).
  - unfold across_the_seam. cbn. now rewrite Ho.
  - unfold across_the_seam. cbn. now rewrite Ho.
  - reflexivity.
  - reflexivity.
  - rewrite Rabs_pos_eq; lra.
  - discriminate.
  - exact snapDamper_does_not_overshoot.
  - rewrite Hlt in H1, H3. split; [exact H1|].
    exists r. split; [exact H2|].
    rewrite Rmin_left, Rmax_right in H3; lra.
Defined.

(* ================================================================== *)
(** ** applyOptions with bounds out of order *)

Section InvalidBounds.

Context {damper : DamperClass}.

(** [setOrbit] under spherical bounds out of order: it throws the
    configuration error and leaves the goal alone. *)
Lemma setOrbit_out_of_order (gT gP gR : option num) (s : SmoothControls) :
  spherical_bounds_out_of_order (_options s) ->
  result (setOrbit gT gP gR) s = Throw ConfigError /\
  goalSpherical (exec (setOrbit gT gP gR) s) = goalSpherical s /\
  goalLogFov (exec (setOrbit gT gP gR) s) = goalLogFov s /\
  _options (exec (setOrbit gT gP gR) s) = _options s.
Proof.
  intros H. unfold result, exec. rewrite setOrbit_eq. cbv zeta.
  assert (F : forall n,
             goalSpherical (rewrap (_options s) n s) = goalSpherical s /\
             goalLogFov (rewrap (_options s) n s) = goalLogFov s /\
             _options (rewrap (_options s) n s) = _options s).
  { intros n. unfold rewrap. destruct (_ && _); cbn; auto. }
  unfold clamp.
  destruct (minimumAzimuthalAngle (_options s) >?
            maximumAzimuthalAngle (_options s))%js eqn:EA; [now auto|].
  destruct (minimumPolarAngle (_options s) >?
            maximumPolarAngle (_options s))%js eqn:EP;
    [cbn; split; [reflexivity|apply F]|].
  destruct (minimumRadius (_options s) >?
            maximumRadius (_options s))%js eqn:ER;
    [cbn; split; [reflexivity|apply F]|].
  unfold spherical_bounds_out_of_order, out_of_order in H.
  rewrite EA, EP, ER in H. intuition discriminate.
Qed.

(** [setOrbit] under spherical bounds none of which is out of order
    returns, and leaves the goal log-FOV alone. *)
Lemma setOrbit_in_order (gT gP gR : option num) (s : SmoothControls) :
  ~ spherical_bounds_out_of_order (_options s) ->
  (exists b, result (setOrbit gT gP gR) s = Normal b) /\
  goalLogFov (exec (setOrbit gT gP gR) s) = goalLogFov s /\
  _options (exec (setOrbit gT gP gR) s) = _options s.
Proof.
  intros H. unfold spherical_bounds_out_of_order, out_of_order in H.
  destruct (minimumAzimuthalAngle (_options s) >?
            maximumAzimuthalAngle (_options s))%js eqn:EA; [tauto|].
  destruct (minimumPolarAngle (_options s) >?
            maximumPolarAngle (_options s))%js eqn:EP; [tauto|].
  destruct (minimumRadius (_options s) >?
            maximumRadius (_options s))%js eqn:ER; [tauto|].
  destruct (@setOrbit_post _ gT gP gR s _ _ _
              (@clamp_normal _ _ _ EA) (@clamp_normal _ _ _ EP)
              (@clamp_normal _ _ _ ER))
    as (b & Hres & _ & _ & _ & _ & _ & Hgl & _ & Hop).
  eauto.
Qed.

(** C8: if the configuration that [applyOptions] arrives at has
    [min > max] on the azimuth, the polar angle, the radius or the field
    of view, then [applyOptions] throws the configuration error to its
    caller, and no goal component has been clamped against bounds out of
    order: the goal log-FOV is as it was; the goal spherical state is as it
    was when a spherical axis is at fault, and otherwise is what [setOrbit]
    makes of it under the (orderly) spherical bounds.  The options
    themselves keep the configuration that was asked for. *)
Theorem applyOptions_reports_bounds_out_of_order
    (p : PartialOptions) (s : SmoothControls) :
  let o := Object_assign (_options s) p in
  spherical_bounds_out_of_order o \/ fov_bounds_out_of_order o ->
  let s' := exec (applyOptions p) s in
  result (applyOptions p) s = Throw ConfigError /\
  goalLogFov s' = goalLogFov s /\
  (spherical_bounds_out_of_order o -> goalSpherical s' = goalSpherical s) /\
  (~ spherical_bounds_out_of_order o ->
   goalSpherical s' =
   goalSpherical (exec (setOrbit None None None) (set_options o s))) /\
  _options s' = o.
Proof.
  intros o H s'. subst s'. unfold result, exec.
  rewrite applyOptions_eq. cbv zeta. fold o.
  assert (Hdec : spherical_bounds_out_of_order o \/
                 ~ spherical_bounds_out_of_order o).
  { unfold spherical_bounds_out_of_order, out_of_order.
    destruct (minimumAzimuthalAngle o >? maximumAzimuthalAngle o)%js;
      [now auto|].
    destruct (minimumPolarAngle o >? maximumPolarAngle o)%js; [now auto|].
    destruct (minimumRadius o >? maximumRadius o)%js; [now auto|].
    right. intuition discriminate. }
  destruct Hdec as [Hs|Hs].
  - destruct (@setOrbit_out_of_order None None None (set_options o s) Hs)
      as (R1 & R2 & R3 & R4).
    unfold result, exec in R1, R2, R3, R4.
    destruct (setOrbit None None None (set_options o s)) as [[b|e] s1];
      cbn [fst snd] in *; [discriminate|].
    injection R1 as ->. repeat split; auto; tauto.
  - destruct H as [H|H]; [contradiction|].
    destruct (@setOrbit_in_order None None None (set_options o s) Hs)
      as ((b & R1) & R2 & R3).
    unfold result, exec in R1, R2, R3.
    destruct (setOrbit None None None (set_options o s)) as [[b'|e] s1];
      cbn [fst snd] in *; [|discriminate].
    rewrite setFieldOfView_eq, R3. cbn [_options set_options]. fold o.
    rewrite clamp_throws by exact H. cbn [fst snd].
    repeat split; auto; tauto.
Qed.

End InvalidBounds.

(** The theorem on a new controller given
    [{minimumPolarAngle: 2, maximumPolarAngle: 1}]. *)
Lemma applyOptions_reports_bounds_witness :
  let s := constructed true in
  let s' := exec (applyOptions polar_upside_down) s in
  result (applyOptions polar_upside_down) s = Throw ConfigError /\
  goalLogFov s' = goalLogFov s /\
  goalSpherical s' = goalSpherical s.
Proof.
  cbv zeta.
  destruct (constructed_fields true) as (Ho & _). cbv zeta in Ho.
  assert (Hbad : spherical_bounds_out_of_order
                   (Object_assign (_options (constructed true))
                      polar_upside_down)).
  { right. left. rewrite Ho. unfold out_of_order. cbn.
    apply Rltb_true. lra. }
  destruct (@applyOptions_reports_bounds_out_of_order snapDamper
              polar_upside_down (constructed true) (or_introl Hbad))
    as (H1 & H2 & H3 & _).
  auto.
Defined.

(* ================================================================== *)
(** * Further properties of the controller and of the catalogue *)

(* ------------------------------------------------------------------ *)
(** ** The product catalogue *)

Lemma FirstOrDefault_Where {A} (l : list A) (f : A -> bool) :
  match FirstOrDefault (Where l f) with
  | Some a => In a l /\ f a = true
  | None => forall b, In b l -> f b = false
  end.
Proof.
  unfold Where. induction l as [|a l IH]; cbn.
  - intros b [].
  - destruct (f a) eqn:E; cbn.
    + auto.
    + destruct (FirstOrDefault (filter f l)).
      * destruct IH; auto.
      * intros b [<-|H]; auto.
Qed.

(** X1: [GetProductById] never returns [null].  It returns a product of the
    list that carries the requested identifier, or, when no product of the
    list carries it, the stand-in product whose [Id] is -1, whose [Source],
    [IOSSource] and [Image] are empty and whose [QRSource] is [null]. *)
Theorem GetProductById_found_or_stand_in (this : ProductService) (id : Z) :
  let p := GetProductById this id in
  (In p (products this) /\ Id p = id) \/
  ((forall q, In q (products this) -> Id q <> id) /\
   p = not_found /\ Id p = (-1)%Z /\ QRSource p = None).
Proof.
  cbv zeta. unfold GetProductById.
  pose proof (FirstOrDefault_Where (products this) (fun p => (Id p =? id)%Z)) as H.
  destruct (FirstOrDefault _) as [p|]; cbn.
  - left. destruct H as [H1 H2]. split; [exact H1|]. now apply Z.eqb_eq.
  - right. repeat split. intros q Hq. apply Z.eqb_neq. now apply H.
Qed.

Lemma GetProductById_first (l : list Product) (p : Product) :
  NoDup (map Id l) -> In p l ->
  FirstOrDefault (Where l (fun q => (Id q =? Id p)%Z)) = Some p.
Proof.
  unfold Where. induction l as [|a l IH]; cbn; [intros _ []|].
  intros Hnd Hin. inversion Hnd as [|x xs Hnotin Hnd']; subst.
  destruct Hin as [->|Hin].
  - now rewrite Z.eqb_refl.
  - destruct (Id a =? Id p)%Z eqn:E.
    + apply Z.eqb_eq in E. exfalso. apply Hnotin. rewrite E.
      now apply in_map.
    + now apply IH.
Qed.

(** X2: when the products of the service carry distinct identifiers, every
    product that [GetAll] lists is the one [GetProductById] returns for its
    [Id]; so every product that [HomeController.Index] hands to its view is
    the model of [ProductController.Details] for that product's [Id]. *)
Theorem listed_product_is_found_by_its_Id (this : ProductService) (p : Product) :
  NoDup (map Id (products this)) ->
  In p (Model (Index this)) ->
  In p (GetAll this) /\
  GetProductById this (Id p) = p /\
  Model (Details this (Id p)) = p.
Proof.
  intros Hnd Hin. cbn in Hin. unfold GetAll in *. split; [exact Hin|].
  assert (H : GetProductById this (Id p) = p).
  { unfold GetProductById. now rewrite GetProductById_first. }
  split; [exact H|]. cbn. exact H.
Qed.

Lemma listed_product_is_found_witness :
  let p := mkProduct 2 (Some String.EmptyString) (Some String.EmptyString)
             (Image (GetProductById new_ProductService 2))
             (QRSource (GetProductById new_ProductService 2)) in
  In p (GetAll new_ProductService) /\
  GetProductById new_ProductService (Id p) = p /\
  Model (Details new_ProductService (Id p)) = p.
Proof.
  cbv zeta.
  apply (@listed_product_is_found_by_its_Id new_ProductService).
  - cbn. repeat constructor; cbn; intuition lia.
  - cbn. right. left. reflexivity.
Defined.

(* ------------------------------------------------------------------ *)
(** ** Enabling and disabling interaction *)

Section Interaction.

Context {damper : DamperClass}.

(** X3: [enableInteraction] and [disableInteraction] are idempotent: a
    second call in a row changes nothing.  On a controller whose interaction
    is disabled and whose wheel listener is not registered, enabling and
    then disabling interaction restores the controller, but for the cursor
    style, which ends up unset. *)
Theorem interaction_toggles (s : SmoothControls) :
  exec enableInteraction (exec enableInteraction s) = exec enableInteraction s /\
  exec disableInteraction (exec disableInteraction s)
    = exec disableInteraction s /\
  _interactionEnabled (exec enableInteraction s) = true /\
  _interactionEnabled (exec disableInteraction s) = false /\
  (_interactionEnabled s = false -> wheelListener s = false ->
   exec disableInteraction (exec enableInteraction s)
     = set_cursor cursor_unset s).
Proof.
  destruct s as [cam el sens en wh dz uc up sp gsp td pd rd fd lf glf pd' lp tm
                 tdec lt o lg].
  unfold enableInteraction, disableInteraction, exec, bind, gets, when, modify,
    ret; cbn.
  destruct en, dz; cbn; repeat split; try reflexivity; try discriminate;
    intros _ E; cbn in E; subst; reflexivity.
Qed.

(** X4: the listener book-keeping.  [enableInteraction] and
    [disableInteraction] keep the wheel listener registered exactly when
    interaction is enabled and zoom is not disabled, and so does the
    [disableZoom] setter while interaction is enabled.  In such a state with
    interaction disabled no event reaches a handler.  But the [disableZoom]
    setter registers the wheel listener whatever the interaction state: when
    zoom is re-enabled on a controller whose interaction is disabled, wheel
    events reach [onWheel] all the same. *)
Theorem wheel_listener_bookkeeping (s : SmoothControls) :
  wheel_listener_in_step s ->
  wheel_listener_in_step (exec enableInteraction s) /\
  wheel_listener_in_step (exec disableInteraction s) /\
  (forall disable,
     _interactionEnabled s = true ->
     wheel_listener_in_step (exec (set_disableZoom_prop disable) s)) /\
  (_interactionEnabled s = false ->
   forall ev, deliver ev s = (Normal tt, s)) /\
  (_interactionEnabled s = false -> _disableZoom s = true ->
   let s' := exec (set_disableZoom_prop false) s in
   _interactionEnabled s' = false /\
   wheelListener s' = true /\
   forall ev, type ev = wheel -> deliver ev s' = onWheel ev s').
Proof.
  destruct s as [cam el sens en wh dz uc up sp gsp td pd rd fd lf glf pd' lp tm
                 tdec lt o lg].
  unfold wheel_listener_in_step, enableInteraction, disableInteraction,
    set_disableZoom_prop, exec, bind, gets, when, modify, ret; cbn.
  intros ->.
  split; [destruct en, dz; reflexivity|].
  split; [destruct en, dz; reflexivity|].
  split; [intros disable ->; destruct dz, disable; reflexivity|].
  split.
  - intros ->. intros ev. unfold deliver, bind, gets; cbn.
    destruct (type ev); reflexivity.
  - intros -> ->. cbn. repeat split.
    intros ev E. unfold deliver, bind, gets; cbn. rewrite E. reflexivity.
Qed.

Lemma onPointerMove_pointer_up (ev : Event) (s : SmoothControls) :
  pointerIsDown s = false -> onPointerMove ev s = (Normal tt, s).
Proof.
  intros H. unfold onPointerMove, bind, gets. cbv beta iota.
  now rewrite H.
Qed.

(** X5: once the pointer is up, movements are ignored: after [onPointerUp]
    the pointer counts as up, and every sequence of mouse and touch
    movements handled by [onPointerMove] leaves the controller as it is. *)
Theorem moves_after_release_are_ignored
    (up : Event) (moves : list Event) (s : SmoothControls) :
  let s' := exec (onPointerUp up) s in
  pointerIsDown s' = false /\
  handle_all onPointerMove moves s' = s'.
Proof.
  cbv zeta.
  assert (Hup : pointerIsDown (exec (onPointerUp up) s) = false).
  { unfold onPointerUp, exec, bind, modify, gets, when, emit, ret; cbn.
    destruct (isUserPointing s); reflexivity. }
  split; [exact Hup|].
  generalize dependent (exec (onPointerUp up) s). clear s.
  intros s Hs. induction moves as [|e moves IH]; [reflexivity|].
  cbn. unfold exec. rewrite (onPointerMove_pointer_up e s Hs). exact IH.
Qed.

End Interaction.

Lemma wheel_listener_bookkeeping_witness :
  let s := set_disableZoom true (fresh sample_camera (sample_element true)) in
  let s' := exec (set_disableZoom_prop false) s in
  wheel_listener_in_step (exec enableInteraction s) /\
  (forall ev, deliver ev s = (Normal tt, s)) /\
  _interactionEnabled s' = false /\
  wheelListener s' = true.
Proof.
  cbv zeta.
  destruct (@wheel_listener_bookkeeping snapDamper
              (set_disableZoom true (fresh sample_camera (sample_element true))))
    as (H1 & _ & _ & H4 & H5).
  - reflexivity.
  - split; [exact H1|]. split; [apply H4; reflexivity|].
    destruct H5 as (Ha & Hb & _); try reflexivity. split; assumption.
Defined.


(* ------------------------------------------------------------------ *)
(** ** The goal and its bounds *)

Lemma le_numbers (a b : num) : le a b -> is_number a /\ is_number b.
Proof. destruct a, b; cbn; intros H; try contradiction; split; discriminate. Qed.

Lemma strict_eq_refl (a : num) : is_number a -> (a === a)%js = true.
Proof.
  destruct a; cbn; intros H; try reflexivity; [now elim H | apply Reqb_refl].
Qed.

Lemma clamp_id (v lo hi : num) : within lo v hi -> clamp v lo hi = Normal v.
Proof.
  intros [H1 H2].
  destruct (@clamp_spec v lo hi) as (c & Hc & _ & _ & Hid).
  - eapply le_trans; eauto.
  - apply (@le_numbers _ _ H1).
  - rewrite Hc. f_equal. auto.
Qed.

Lemma makeSafe_id (sp : Spherical) : safe_polar (phi sp) -> makeSafe sp = sp.
Proof.
  intros (q & Hq & Hr). destruct sp as [r p t]. cbn in Hq. subst p.
  unfold makeSafe, Math_PI. cbn.
  pose proof PI_bounds. unfold EPS in *.
  destruct (Rltb q _) eqn:E1; cbn.
  - destruct (Rltb _ q) eqn:E2; [reflexivity|].
    apply Rltb_false in E2. do 2 f_equal. lra.
  - apply Rltb_false in E1.
    destruct (Rltb _ _) eqn:E2; [|apply Rltb_false in E2]; do 2 f_equal; lra.
Qed.

Lemma clamp_throw_inv (v lo hi : num) (e : exn) :
  clamp v lo hi = Throw e -> e = ConfigError.
Proof. unfold clamp. destruct (_ >? _)%js; congruence. Qed.

Section Goal.

Context {damper : DamperClass}.

Lemma rewrap_fields (o : Options) (n : num) (s : SmoothControls) :
  goalSpherical (rewrap o n s) = goalSpherical s /\
  isUserChange (rewrap o n s) = isUserChange s /\
  _options (rewrap o n s) = _options s /\
  goalLogFov (rewrap o n s) = goalLogFov s /\
  log (rewrap o n s) = log s.
Proof. unfold rewrap. destruct (_ && _); repeat split. Qed.

(** X6: what [setOrbit] reports.  When it returns [false], the goal and the
    user-change flag are exactly as they were, and the goal already was the
    clamped request.  When it returns [true], the goal is the clamped
    request made safe, and the change is marked as not coming from the
    user.  The only exception it throws is the configuration error of
    [clamp], and then the goal and the flag are as they were. *)
Theorem setOrbit_return_value (gT gP gR : option num) (s : SmoothControls) :
  let g := goalSpherical s in
  let o := _options s in
  let s' := exec (setOrbit gT gP gR) s in
  match result (setOrbit gT gP gR) s with
  | Normal changed =>
      exists nT nP nR,
        clamp (or_default gT (theta g))
              (minimumAzimuthalAngle o) (maximumAzimuthalAngle o) = Normal nT /\
        clamp (or_default gP (phi g))
              (minimumPolarAngle o) (maximumPolarAngle o) = Normal nP /\
        clamp (or_default gR (radius g))
              (minimumRadius o) (maximumRadius o) = Normal nR /\
        if changed
        then goalSpherical s' = makeSafe (mkSpherical nR nP nT) /\
             isUserChange s' = false
        else goalSpherical s' = g /\ g = mkSpherical nR nP nT /\
             isUserChange s' = isUserChange s
  | Throw e =>
      e = ConfigError /\ goalSpherical s' = g /\
      isUserChange s' = isUserChange s
  end.
Proof.
  cbv zeta. unfold exec, result. rewrite setOrbit_eq. cbv zeta.
  destruct (clamp (or_default gT _) _ _) as [nT|e] eqn:C1; cbn [fst snd].
  2:{ apply clamp_throw_inv in C1. repeat split. exact C1. }
  destruct (rewrap_fields (_options s) nT s) as (F1 & F2 & _).
  destruct (clamp (or_default gP _) _ _) as [nP|e] eqn:C2; cbn [fst snd].
  2:{ apply clamp_throw_inv in C2. repeat split; assumption. }
  destruct (clamp (or_default gR _) _ _) as [nR|e] eqn:C3; cbn [fst snd].
  2:{ apply clamp_throw_inv in C3. repeat split; assumption. }
  destruct (_ && _ && _) eqn:E; cbn [fst snd].
  - exists nT, nP, nR. repeat split; try assumption.
    apply andb_prop in E as [E E3']. apply andb_prop in E as [E1' E2'].
    apply strict_eq_true in E1', E2', E3'.
    apply spherical_ext; cbn; congruence.
  - exists nT, nP, nR. repeat split.
Qed.

Lemma wrapAngle_not_finite (x : num) : isFinite x = false -> wrapAngle x = NaN.
Proof.
  pose proof PI_bounds.
  destruct x; cbn; intros E; try discriminate; unfold wrapAngle, Math_PI; cbn;
    decide_reals; reflexivity.
Qed.

(** Rewrapping a rewrapped azimuth changes nothing. *)
Lemma wrapAngle_rewrapped (c n : num) :
  (wrapAngle ((wrapAngle (c - n) + n) - n) + n)%js = (wrapAngle (c - n) + n)%js.
Proof.
  destruct (isFinite (c - n)%js) eqn:E.
  - destruct c as [| | |c], n as [| | |n]; try discriminate E.
    change (Fin c - Fin n)%js with (Fin (c + - n)).
    rewrite wrapAngle_Fin.
    pose proof (wrapAngle_range (c + - n)) as Hr. cbv zeta in Hr.
    set (w := c + - n - 2 * PI * IZR (Zfloor ((c + - n + PI) / (2 * PI)))) in *.
    change (Fin w + Fin n - Fin n)%js with (Fin (w + n + - n)).
    replace (w + n + - n) with w by lra.
    now rewrite wrapAngle_id.
  - rewrite (wrapAngle_not_finite _ E).
    destruct n; reflexivity.
Qed.

Lemma rewrap_rewrap (o : Options) (n : num) (s s' : SmoothControls) :
  spherical s' = spherical (rewrap o n s) ->
  rewrap o n s' = s'.
Proof.
  unfold rewrap. destruct (_ && _); [|reflexivity].
  destruct s' as [cam el sens en wh dz uc up sp gsp td pd rd fd lf glf pd' lp tm
                  tdec lt o' lg].
  cbn. intros ->. unfold set_spherical, set_theta. cbn.
  now rewrite wrapAngle_rewrapped.
Qed.

(** X7: [setOrbit] with its three arguments given is idempotent: a second
    call with the same arguments leaves the whole controller as the first
    call left it (whatever the second call returns). *)
Theorem setOrbit_idempotent (t p r : num) (s : SmoothControls) :
  let call := setOrbit (Some t) (Some p) (Some r) in
  exec call (exec call s) = exec call s.
Proof.
  cbv zeta. unfold exec. rewrite (setOrbit_eq _ _ _ s). cbv zeta.
  cbn [or_default].
  destruct (clamp t _ _) as [nT|e] eqn:C1; cbn [snd].
  2:{ rewrite setOrbit_eq. cbv zeta. cbn [or_default]. now rewrite C1. }
  destruct (rewrap_fields (_options s) nT s) as (F1 & F2 & F3 & _).
  assert (Hthrow : forall e,
    clamp p (minimumPolarAngle (_options s)) (maximumPolarAngle (_options s))
      = Throw e \/
    clamp r (minimumRadius (_options s)) (maximumRadius (_options s))
      = Throw e ->
    snd (setOrbit (Some t) (Some p) (Some r) (rewrap (_options s) nT s))
      = rewrap (_options s) nT s).
  { intros e He. rewrite setOrbit_eq. cbv zeta. cbn [or_default].
    rewrite F3, C1.
    rewrite (@rewrap_rewrap (_options s) nT s (rewrap (_options s) nT s) eq_refl).
    destruct (clamp p _ _); [|reflexivity].
    destruct He as [He|He]; [discriminate|]. now rewrite He. }
  destruct (clamp p _ _) as [nP|e] eqn:C2; cbn [snd].
  2:{ now apply (Hthrow e); left. }
  destruct (clamp r _ _) as [nR|e] eqn:C3; cbn [snd].
  2:{ now apply (Hthrow e); right. }
  clear Hthrow.
  destruct (_ && _ && _) eqn:E; cbn [snd].
  - rewrite setOrbit_eq. cbv zeta. cbn [or_default].
    rewrite F3, C1, C2, C3, F1, E.
    now rewrite (@rewrap_rewrap (_options s) nT s (rewrap (_options s) nT s)
                   eq_refl).
  - set (s1 := set_isUserChange false _).
    assert (G : goalSpherical s1 = makeSafe (mkSpherical nR nP nT)) by reflexivity.
    assert (O : _options s1 = _options s) by (cbn; exact F3).
    assert (W : rewrap (_options s) nT s1 = s1)
      by (apply (@rewrap_rewrap _ _ s); reflexivity).
    rewrite setOrbit_eq. cbv zeta. cbn [or_default].
    rewrite O, C1, C2, C3, W. clear E.
    destruct (_ && _ && _); cbn [snd]; [reflexivity|].
    unfold s1. reflexivity.
Qed.

Lemma safe_polar_within (p lo hi : num) :
  le (Fin EPS) lo -> le hi (Fin (PI - EPS)) -> within lo p hi -> safe_polar p.
Proof.
  intros H1 H2 [H3 H4].
  pose proof (@le_trans _ _ _ H1 H3) as Ha.
  pose proof (@le_trans _ _ _ H4 H2) as Hb.
  destruct p as [| | |q]; cbn in Ha, Hb; try contradiction.
  exists q. split; [reflexivity|lra].
Qed.

(** X8: after a [setOrbit] that returns (the bounds are in order and the
    requested values are numbers), the goal azimuth and the goal radius lie
    within their configured bounds.  The goal polar angle lies within the
    polar bounds when the call returns [false] or when the polar bounds lie
    within the safe range [EPS, pi - EPS]; when the call returns [true] it
    lies within the safe range. *)
Theorem setOrbit_goal_within_bounds
    (gT gP gR : option num) (s : SmoothControls) :
  let g := goalSpherical s in
  let o := _options s in
  ordered (minimumAzimuthalAngle o) (maximumAzimuthalAngle o) ->
  ordered (minimumPolarAngle o) (maximumPolarAngle o) ->
  ordered (minimumRadius o) (maximumRadius o) ->
  is_number (or_default gT (theta g)) ->
  is_number (or_default gP (phi g)) ->
  is_number (or_default gR (radius g)) ->
  let s' := exec (setOrbit gT gP gR) s in
  let g' := goalSpherical s' in
  exists changed : bool,
    result (setOrbit gT gP gR) s = Normal changed /\
    within (minimumAzimuthalAngle o) (theta g') (maximumAzimuthalAngle o) /\
    within (minimumRadius o) (radius g') (maximumRadius o) /\
    (changed = true -> safe_polar (phi g')) /\
    (changed = false \/
     (le (Fin EPS) (minimumPolarAngle o) /\
      le (maximumPolarAngle o) (Fin (PI - EPS))) ->
     within (minimumPolarAngle o) (phi g') (maximumPolarAngle o)).
Proof.
  cbv zeta. intros O1 O2 O3 N1 N2 N3.
  destruct (@clamp_spec _ _ _ O1 N1) as (nT & C1 & T1 & T2 & _).
  destruct (@clamp_spec _ _ _ O2 N2) as (nP & C2 & P1 & P2 & _).
  destruct (@clamp_spec _ _ _ O3 N3) as (nR & C3 & R1 & R2 & _).
  destruct (@setOrbit_post _ gT gP gR s _ _ _ C1 C2 C3)
    as (b & Hres & Ht & Hr & Hp & Hb & _).
  exists b. rewrite Ht, Hr, Hp. split; [exact Hres|].
  split; [split; assumption|]. split; [split; assumption|].
  split.
  - intros ->. apply makeSafe_safe. cbn. apply (@le_numbers _ _ P1).
  - intros [->|[S1 S2]].
    + rewrite (Hb eq_refl). split; assumption.
    + destruct b; [|rewrite (Hb eq_refl); split; assumption].
      rewrite makeSafe_id; cbn; [split; assumption|].
      apply (@safe_polar_within nP _ _ S1 S2). split; assumption.
Qed.

(** X9: [setRadius] clamps.  On a controller whose goal azimuth and polar
    angle are within their bounds, with a safe goal polar angle, and whose
    radius bounds are in order, [setRadius(r)] with a number [r] leaves the
    goal radius at [r] clamped into the radius bounds ([r] itself when it is
    within them) and the rest of the goal as it was. *)
Theorem setRadius_clamps (r : num) (s : SmoothControls) :
  let g := goalSpherical s in
  let o := _options s in
  within (minimumAzimuthalAngle o) (theta g) (maximumAzimuthalAngle o) ->
  within (minimumPolarAngle o) (phi g) (maximumPolarAngle o) ->
  safe_polar (phi g) ->
  ordered (minimumRadius o) (maximumRadius o) ->
  is_number r ->
  let s' := exec (setRadius r) s in
  exists c : num,
    result (setRadius r) s = Normal tt /\
    goalSpherical s' = mkSpherical c (phi g) (theta g) /\
    within (minimumRadius o) c (maximumRadius o) /\
    (within (minimumRadius o) r (maximumRadius o) -> c = r) /\
    goalLogFov s' = goalLogFov s.
Proof.
  cbv zeta. intros WT WP SP O3 N3.
  destruct (@clamp_spec _ _ _ O3 N3) as (c & C3 & R1 & R2 & Rid).
  exists c.
  set (s0 := set_goalSpherical (set_radius r (goalSpherical s)) s).
  assert (E : setRadius r s =
              match setOrbit None None None s0 with
              | (Normal _, s1) => (Normal tt, s1)
              | (Throw e, s1) => (Throw e, s1)
              end).
  { unfold setRadius, bind, modify, ret. fold s0.
    destruct (setOrbit None None None s0) as [[b|e] s1]; reflexivity. }
  destruct (@setOrbit_post _ None None None s0 (theta (goalSpherical s))
              (phi (goalSpherical s)) c)
    as (b & Hres & Ht & Hr & Hp & _ & _ & Hl & _).
  { cbn. now apply clamp_id. }
  { cbn. now apply clamp_id. }
  { cbn. exact C3. }
  unfold exec, result in *. rewrite E.
  destruct (setOrbit None None None s0) as [[b'|e] s1]; cbn [fst snd] in *;
    [|discriminate].
  split; [reflexivity|]. split.
  - apply spherical_ext; cbn [radius phi theta]; try assumption.
    rewrite Hp. destruct b; [|reflexivity].
    now rewrite makeSafe_id.
  - split; [split; assumption|]. split; [|exact Hl].
    intros [W1 W2]. auto.
Qed.

(** X10: [setFieldOfView] keeps the goal field of view within its bounds.
    With positive bounds in order and a number [fov], the call returns, the
    goal field of view [exp(goalLogFov)] lies within the bounds, it is
    [fov] itself when that lies within the bounds, and neither the goal
    spherical state nor any current value is touched. *)
Theorem setFieldOfView_goal_within_bounds
    (f : num) (s : SmoothControls) (minF maxF : R) :
  minimumFieldOfView (_options s) = Fin minF ->
  maximumFieldOfView (_options s) = Fin maxF ->
  0 < minF <= maxF ->
  is_number f ->
  let s' := exec (setFieldOfView f) s in
  result (setFieldOfView f) s = Normal tt /\
  (exists v : R,
     minF <= v <= maxF /\
     goalLogFov s' = Fin (ln v) /\
     Math_exp (goalLogFov s') = Fin v /\
     (within (Fin minF) f (Fin maxF) -> f = Fin v)) /\
  goalSpherical s' = goalSpherical s /\
  spherical s' = spherical s /\
  logFov s' = logFov s.
Proof.
  intros Hmin Hmax Hb Hf. cbv zeta.
  destruct (setFieldOfView_frame f s) as (F1 & F2 & F3 & _).
  unfold exec, result in *. rewrite setFieldOfView_eq in *.
  rewrite Hmin, Hmax in *.
  destruct (@clamp_spec f (Fin minF) (Fin maxF)) as (c & C & L1 & L2 & Lid);
    [cbn; lra | exact Hf |].
  rewrite C in *. cbn [fst snd] in *.
  split; [reflexivity|]. split; [|repeat split; assumption].
  destruct c as [| | |v]; cbn in L1, L2; try contradiction.
  exists v. split; [lra|].
  change (goalLogFov (set_goalLogFov (Math_log (Fin v)) s))
    with (Math_log (Fin v)).
  rewrite Math_log_Fin by lra. cbn [Math_exp]. rewrite exp_ln by lra.
  repeat split. intros [W1 W2]. symmetry. auto.
Qed.

(** X11: [applyOptions] leaves a goal alone that the new bounds already
    contain.  When the goal azimuth, polar angle and radius lie within the
    merged bounds and the goal field of view lies within the merged
    field-of-view bounds, [applyOptions] returns, installs the merged
    options, and changes neither the goal spherical state, nor the goal
    log-FOV, nor the user-change flag. *)
Theorem applyOptions_keeps_goal_within_bounds
    (p : PartialOptions) (s : SmoothControls) (minF maxF l : R) :
  let o := Object_assign (_options s) p in
  let g := goalSpherical s in
  within (minimumAzimuthalAngle o) (theta g) (maximumAzimuthalAngle o) ->
  within (minimumPolarAngle o) (phi g) (maximumPolarAngle o) ->
  within (minimumRadius o) (radius g) (maximumRadius o) ->
  minimumFieldOfView o = Fin minF ->
  maximumFieldOfView o = Fin maxF ->
  0 < minF <= maxF ->
  goalLogFov s = Fin l ->
  ln minF <= l <= ln maxF ->
  let s' := exec (applyOptions p) s in
  result (applyOptions p) s = Normal tt /\
  _options s' = o /\
  goalSpherical s' = g /\
  goalLogFov s' = goalLogFov s /\
  isUserChange s' = isUserChange s.
Proof.
  cbv zeta. intros WT WP WR Hmin Hmax Hpos Hl Hb.
  unfold exec, result. rewrite applyOptions_eq. cbv zeta.
  set (o := Object_assign (_options s) p) in *.
  rewrite setOrbit_eq. cbv zeta. cbn [or_default].
  change (goalSpherical (set_options o s)) with (goalSpherical s).
  change (_options (set_options o s)) with o.
  rewrite (@clamp_id _ _ _ WT), (@clamp_id _ _ _ WP), (@clamp_id _ _ _ WR).
  rewrite !strict_eq_refl
    by (first [apply (@le_numbers _ _ (proj2 WT))
              | apply (@le_numbers _ _ (proj2 WP))
              | apply (@le_numbers _ _ (proj2 WR))]).
  cbn [andb].
  destruct (rewrap_fields o (theta (goalSpherical s)) (set_options o s))
    as (F1 & F2 & F3 & F4 & _).
  rewrite setFieldOfView_eq, F3, F4.
  change (_options (set_options o s)) with o.
  change (goalLogFov (set_options o s)) with (goalLogFov s).
  rewrite Hmin, Hmax, Hl. cbn [Math_exp].
  assert (Hexp : minF <= exp l <= maxF).
  { rewrite <- (exp_ln minF), <- (exp_ln maxF) by lra.
    split; apply exp_le_mono; lra. }
  rewrite clamp_Fin by lra. rewrite clampR_id by exact Hexp.
  rewrite Math_log_Fin by apply exp_pos. rewrite ln_exp.
  cbn [fst snd].
  repeat split; assumption.
Qed.

(* ------------------------------------------------------------------ *)
(** ** Relative adjustments *)

Lemma clampR_ge (v lo hi r : R) :
  lo <= r <= hi -> r <= v -> r <= clampR v lo hi.
Proof.
  intros H1 H2. unfold clampR, Rmax, Rmin.
  destruct (Rle_dec hi v);
    repeat match goal with
    | |- context [Rle_dec ?a ?b] => destruct (Rle_dec a b)
    end; lra.
Qed.

Lemma clampR_le (v lo hi r : R) :
  lo <= r <= hi -> v <= r -> clampR v lo hi <= r.
Proof.
  intros H1 H2. unfold clampR, Rmax, Rmin.
  destruct (Rle_dec hi v);
    repeat match goal with
    | |- context [Rle_dec ?a ?b] => destruct (Rle_dec a b)
    end; lra.
Qed.

(** Without a zoom delta, [adjustOrbit] asks for the goal radius it
    found. *)
Lemma adjust_goalRadius_zero (o : Options) (r : R) (l : num) :
  within (minimumRadius o) (Fin r) (maximumRadius o) ->
  adjust_goalRadius o (Fin r) l (Fin 0) = Fin (r + 0 * 0).
Proof.
  intros [H1 H2]. unfold adjust_goalRadius, adjust_deltaRatio.
  cbn [strict_eq]. rewrite Reqb_refl. cbn [isFinite].
  destruct (minimumRadius o) as [| | |a], (maximumRadius o) as [| | |b];
    cbn in H1, H2; try contradiction; cbn; try reflexivity.
  rewrite (proj2 (Rltb_false _ _)) by lra. reflexivity.
Qed.

(** [adjustOrbit] with deltas that stay within reach and within the
    bounds. *)
Lemma adjustOrbit_in_reach
    (s : SmoothControls) (c g q r x y : R) :
  let o := _options s in
  theta (spherical s) = Fin c ->
  goalSpherical s = mkSpherical (Fin r) (Fin q) (Fin g) ->
  Rabs (c - (g - x)) <= PI - 1 / 1000 ->
  within (minimumAzimuthalAngle o) (Fin (g - x)) (maximumAzimuthalAngle o) ->
  within (minimumPolarAngle o) (Fin (q - y)) (maximumPolarAngle o) ->
  EPS <= q - y <= PI - EPS ->
  within (minimumRadius o) (Fin r) (maximumRadius o) ->
  let s' := exec (adjustOrbit (Fin x) (Fin y) (Fin 0)) s in
  result (adjustOrbit (Fin x) (Fin y) (Fin 0)) s = Normal tt /\
  goalSpherical s' = mkSpherical (Fin r) (Fin (q - y)) (Fin (g - x)) /\
  goalLogFov s' = goalLogFov s /\
  theta (spherical s') = Fin c /\
  _options s' = _options s.
Proof.
  cbv zeta. intros Hc Hg Hx WT WP SP WR.
  assert (Hth : theta (goalSpherical s) = Fin g) by now rewrite Hg.
  assert (Hph : phi (goalSpherical s) = Fin q) by now rewrite Hg.
  assert (Hra : radius (goalSpherical s) = Fin r) by now rewrite Hg.
  destruct (@adjust_clamp (Fin x) (c - g)) as (c0 & C0 & _ & Hc0);
    [discriminate|].
  destruct (Hc0 x eq_refl) as (_ & _ & Hin).
  assert (c0 = x).
  { apply Hin. unfold Rabs in Hx. destruct (Rcase_abs _) in Hx; lra. }
  subst c0.
  assert (HTc : clamp (theta (goalSpherical s) - Fin x)%js
                  (minimumAzimuthalAngle (_options s))
                  (maximumAzimuthalAngle (_options s))
                = Normal (Fin (g - x))).
  { rewrite Hth. now apply clamp_id. }
  assert (HPc : clamp (phi (goalSpherical s) - Fin y)%js
                  (minimumPolarAngle (_options s))
                  (maximumPolarAngle (_options s))
                = Normal (Fin (q - y))).
  { rewrite Hph. now apply clamp_id. }
  assert (HRc : clamp (adjust_goalRadius (_options s)
                         (radius (goalSpherical s)) (goalLogFov s) (Fin 0))
                  (minimumRadius (_options s)) (maximumRadius (_options s))
                = Normal (Fin r)).
  { rewrite Hra, adjust_goalRadius_zero by assumption.
    replace (r + 0 * 0) with r by lra. now apply clamp_id. }
  destruct (@setOrbit_post _ (Some (theta (goalSpherical s) - Fin x)%js)
              (Some (phi (goalSpherical s) - Fin y)%js)
              (Some (adjust_goalRadius (_options s) (radius (goalSpherical s))
                       (goalLogFov s) (Fin 0)))
              s _ _ _ HTc HPc HRc)
    as (b & Hres & Ht & Hr & Hp & Hb & Hsp & Hgl & _ & Hop).
  unfold exec, result in *. rewrite adjustOrbit_eq. cbv zeta.
  rewrite Hc, Hth. change (Fin c - Fin g)%js with (Fin (c - g)). rewrite C0.
  rewrite <- Hth.
  destruct (setOrbit _ _ _ s) as [[b'|e] s1] eqn:E; cbn [fst snd] in *;
    [|discriminate].
  assert (Hz : (Fin 0 !== Fin 0)%js = false)
    by (unfold strict_ne; cbn; now rewrite Reqb_refl).
  rewrite Hz. cbn [fst snd].
  split; [reflexivity|]. split; [|split; [exact Hgl|split; [|exact Hop]]].
  - apply spherical_ext; cbn [radius phi theta]; try assumption.
    rewrite Hp. destruct b; [|now apply Hb].
    rewrite makeSafe_id; [reflexivity|]. cbn. exists (q - y). now split.
  - rewrite Hsp. apply rewrap_theta_near; [exact Hc|].
    unfold Rabs in Hx. pose proof PI_bounds.
    destruct (Rcase_abs _) in Hx; lra.
Qed.

(** X12: [adjustOrbit] subtracts its deltas from the goal.  When the
    azimuth delta keeps the goal within [pi - 0.001] of the current azimuth,
    the new goal azimuth and polar angle lie within their bounds, the new
    polar angle is safe and the goal radius lies within its bounds, then
    [adjustOrbit(deltaTheta, deltaPhi, 0)] sets the goal azimuth to
    [theta - deltaTheta] and the goal polar angle to [phi - deltaPhi], and
    leaves the goal radius and the goal log-FOV as they were. *)
Theorem adjustOrbit_subtracts_deltas
    (s : SmoothControls) (c g q r x y : R) :
  let o := _options s in
  theta (spherical s) = Fin c ->
  goalSpherical s = mkSpherical (Fin r) (Fin q) (Fin g) ->
  Rabs (c - (g - x)) <= PI - 1 / 1000 ->
  within (minimumAzimuthalAngle o) (Fin (g - x)) (maximumAzimuthalAngle o) ->
  within (minimumPolarAngle o) (Fin (q - y)) (maximumPolarAngle o) ->
  EPS <= q - y <= PI - EPS ->
  within (minimumRadius o) (Fin r) (maximumRadius o) ->
  let s' := exec (adjustOrbit (Fin x) (Fin y) (Fin 0)) s in
  result (adjustOrbit (Fin x) (Fin y) (Fin 0)) s = Normal tt /\
  goalSpherical s' = mkSpherical (Fin r) (Fin (q - y)) (Fin (g - x)) /\
  goalLogFov s' = goalLogFov s.
Proof.
  cbv zeta. intros Hc Hg Hx WT WP SP WR.
  destruct (@adjustOrbit_in_reach s c g q r x y Hc Hg Hx WT WP SP WR)
    as (H1 & H2 & H3 & _).
  auto.
Qed.

(** The goal radius that [adjustOrbit] asks for is a step from the goal
    radius in the direction of the zoom delta. *)
Lemma adjust_goalRadius_step (o : Options) (r l z minR maxR minF maxF : R) :
  minimumRadius o = Fin minR -> maximumRadius o = Fin maxR ->
  minimumFieldOfView o = Fin minF -> maximumFieldOfView o = Fin maxF ->
  minR <= r <= maxR -> 0 < minF <= maxF -> ln minF <= l <= ln maxF ->
  exists m : R,
    0 <= m /\
    adjust_goalRadius o (Fin r) (Fin l) (Fin z) = Fin (r + z * m).
Proof.
  intros H1 H2 H3 H4 Hr HF Hl.
  destruct (Req_dec z 0) as [->|Hz].
  { exists 0. split; [lra|].
    apply adjust_goalRadius_zero. rewrite H1, H2. split; cbn; lra. }
  destruct (Req_dec (ln (heading z minF maxF)) l) as [He|Hne].
  - exists (maxR - minR). split; [lra|].
    unfold adjust_goalRadius, adjust_deltaRatio, heading in *.
    rewrite H1, H2, H3, H4. cbn.
    rewrite (proj2 (Reqb_false z 0)) by lra.
    destruct (Rltb 0 z) eqn:Ez.
    + rewrite Math_log_Fin by lra. cbn.
      rewrite (proj2 (Reqb_true (ln maxF + - l) 0)) by lra.
      destruct (Reqb _ 0); [|destruct (Rltb 0 (_ + - r))]; cbn; reflexivity.
    + rewrite Math_log_Fin by lra. cbn.
      rewrite (proj2 (Reqb_true (ln minF + - l) 0)) by lra.
      destruct (Reqb _ 0); [|destruct (Rltb 0 (_ + - r))]; cbn; reflexivity.
  - exists (Rmin ((heading z minR maxR - r) / (ln (heading z minF maxF) - l))
                 (maxR - minR)).
    split.
    + apply Rmin_glb; [|lra].
      unfold heading in *. destruct (Rltb 0 z).
      * apply Rmult_le_pos; [lra|].
        apply Rlt_le, Rinv_0_lt_compat. lra.
      * replace ((minR - r) / (ln minF - l))
          with ((r - minR) * / (l - ln minF)) by (field; lra).
        apply Rmult_le_pos; [lra|].
        apply Rlt_le, Rinv_0_lt_compat. lra.
    + apply adjust_goalRadius_Fin; auto; lra.
Qed.

(** A zoom step between finite bounds. *)
Lemma adjustOrbit_zoom_step
    (s : SmoothControls) (deltaTheta deltaPhi : num)
    (r l z minR maxR minF maxF : R) :
  let o := _options s in
  ordered (minimumAzimuthalAngle o) (maximumAzimuthalAngle o) ->
  ordered (minimumPolarAngle o) (maximumPolarAngle o) ->
  minimumRadius o = Fin minR -> maximumRadius o = Fin maxR ->
  minimumFieldOfView o = Fin minF -> maximumFieldOfView o = Fin maxF ->
  radius (goalSpherical s) = Fin r -> goalLogFov s = Fin l ->
  minR <= r <= maxR -> 0 < minF <= maxF -> ln minF <= l <= ln maxF ->
  let s' := exec (adjustOrbit deltaTheta deltaPhi (Fin z)) s in
  result (adjustOrbit deltaTheta deltaPhi (Fin z)) s = Normal tt /\
  exists r' l' : R,
    radius (goalSpherical s') = Fin r' /\
    goalLogFov s' = Fin l' /\
    minR <= r' <= maxR /\
    ln minF <= l' <= ln maxF /\
    (0 <= z -> r <= r' /\ l <= l') /\
    (z <= 0 -> r' <= r /\ l' <= l).
Proof.
  intros o HA HP HminR HmaxR HminF HmaxF Hr Hl HR HF HL s'.
  destruct (adjust_clamp_total deltaTheta
              (theta (spherical s) - theta (goalSpherical s))%js)
    as (c & Hc).
  pose proof (@clamp_normal (theta (goalSpherical s) - c)%js _ _
                (@le_not_gt _ _ HA)) as HTc.
  pose proof (@clamp_normal (phi (goalSpherical s) - deltaPhi)%js _ _
                (@le_not_gt _ _ HP)) as HPc.
  destruct (@adjust_goalRadius_step o r l z minR maxR minF maxF)
    as (m & Hm & Hstep); auto.
  assert (HRc : clamp (adjust_goalRadius o (radius (goalSpherical s))
                         (goalLogFov s) (Fin z))
                      (minimumRadius o) (maximumRadius o) =
                Normal (Fin (clampR (r + z * m) minR maxR))).
  { rewrite Hr, Hl, Hstep, HminR, HmaxR. apply clamp_Fin. lra. }
  destruct (@setOrbit_post _ (Some (theta (goalSpherical s) - c)%js)
              (Some (phi (goalSpherical s) - deltaPhi)%js)
              (Some (adjust_goalRadius o (radius (goalSpherical s))
                       (goalLogFov s) (Fin z)))
              s _ _ _ HTc HPc HRc)
    as (b & Hres & _ & Hrad & _ & _ & _ & Hgl & _ & Hop).
  assert (Hr' : minR <= clampR (r + z * m) minR maxR <= maxR)
    by (apply clampR_bounds; lra).
  assert (Hup : 0 <= z -> r <= clampR (r + z * m) minR maxR).
  { intros Hz. apply clampR_ge; [lra|]. nra. }
  assert (Hdn : z <= 0 -> clampR (r + z * m) minR maxR <= r).
  { intros Hz. apply clampR_le; [lra|]. nra. }
  assert (Hexp : minF <= exp l <= maxF).
  { rewrite <- (exp_ln minF), <- (exp_ln maxF) by lra.
    split; apply exp_le_mono; lra. }
  subst s'. unfold exec, result in *. rewrite adjustOrbit_eq. cbv zeta.
  rewrite Hc. fold o.
  destruct (setOrbit _ _ _ s) as [[b'|e] s1] eqn:E; cbn [fst snd] in *;
    [|discriminate].
  destruct (Req_dec z 0) as [->|Hz].
  - assert (Hnz : (Fin 0 !== Fin 0)%js = false)
      by (unfold strict_ne; cbn; now rewrite Reqb_refl).
    rewrite Hnz. cbn [fst snd]. split; [reflexivity|].
    exists (clampR (r + 0 * m) minR maxR), l.
    rewrite Hgl, Hl. repeat split; auto; try lra; try (apply Hup; lra);
      apply Hdn; lra.
  - assert (Hnz : (Fin z !== Fin 0)%js = true).
    { unfold strict_ne. cbn. now rewrite (proj2 (Reqb_false z 0)). }
    rewrite Hnz, setFieldOfView_eq, Hop, Hgl, Hl. fold o.
    rewrite HminF, HmaxF. cbn [add Math_exp].
    rewrite clamp_Fin by lra.
    pose proof (@clampR_bounds (exp (l + z)) minF maxF (proj2 HF)) as Hb.
    rewrite Math_log_Fin by lra.
    cbn [fst snd set_goalLogFov goalSpherical goalLogFov].
    split; [reflexivity|].
    exists (clampR (r + z * m) minR maxR), (ln (clampR (exp (l + z)) minF maxF)).
    split; [exact Hrad|]. split; [reflexivity|]. split; [exact Hr'|].
    split.
    { split; apply ln_le_mono; lra. }
    split; intros Hs.
    + split; [auto|]. rewrite <- (ln_exp l) at 1.
      apply ln_le_mono; [apply exp_pos|].
      apply clampR_ge; [exact Hexp|]. apply exp_le_mono. lra.
    + split; [auto|]. rewrite <- (ln_exp l) at 2.
      apply ln_le_mono; [lra|].
      apply clampR_le; [exact Hexp|]. apply exp_le_mono. lra.
Qed.

(** X13: the direction of a zoom step.  With finite bounds in order and the
    goal radius and goal log-FOV within them, [adjustOrbit] with a zoom
    delta [z] returns and keeps both within their bounds; a positive [z]
    (zooming out) lowers neither, a negative [z] (zooming in) raises
    neither, and [z = 0] leaves both as they were. *)
Theorem adjustOrbit_zoom_direction
    (s : SmoothControls) (deltaTheta deltaPhi : num)
    (r l z minR maxR minF maxF : R) :
  let o := _options s in
  ordered (minimumAzimuthalAngle o) (maximumAzimuthalAngle o) ->
  ordered (minimumPolarAngle o) (maximumPolarAngle o) ->
  minimumRadius o = Fin minR -> maximumRadius o = Fin maxR ->
  minimumFieldOfView o = Fin minF -> maximumFieldOfView o = Fin maxF ->
  radius (goalSpherical s) = Fin r -> goalLogFov s = Fin l ->
  minR <= r <= maxR -> 0 < minF <= maxF -> ln minF <= l <= ln maxF ->
  let s' := exec (adjustOrbit deltaTheta deltaPhi (Fin z)) s in
  result (adjustOrbit deltaTheta deltaPhi (Fin z)) s = Normal tt /\
  exists r' l' : R,
    radius (goalSpherical s') = Fin r' /\
    goalLogFov s' = Fin l' /\
    minR <= r' <= maxR /\
    ln minF <= l' <= ln maxF /\
    (0 <= z -> r <= r' /\ l <= l') /\
    (z <= 0 -> r' <= r /\ l' <= l).
Proof.
  intros o HA HP HminR HmaxR HminF HmaxF Hr Hl HR HF HL.
  now apply (@adjustOrbit_zoom_step s deltaTheta deltaPhi r l z minR maxR
               minF maxF).
Qed.

(** X14: zooming out without a maximum radius.  When [maximumRadius] is
    [Infinity] (as in the default options), every [adjustOrbit] with a
    positive zoom delta sets the goal radius to [Infinity], whatever the
    goal field of view and its bounds are. *)
Theorem adjustOrbit_zoom_out_without_maximum_radius
    (s : SmoothControls) (deltaTheta deltaPhi : num) (r z minR : R) :
  let o := _options s in
  ordered (minimumAzimuthalAngle o) (maximumAzimuthalAngle o) ->
  ordered (minimumPolarAngle o) (maximumPolarAngle o) ->
  minimumRadius o = Fin minR -> maximumRadius o = PosInf ->
  radius (goalSpherical s) = Fin r ->
  0 < z ->
  radius (goalSpherical (exec (adjustOrbit deltaTheta deltaPhi (Fin z)) s))
    = PosInf.
Proof.
  intros o HA HP HminR HmaxR Hr Hz.
  destruct (adjust_clamp_total deltaTheta
              (theta (spherical s) - theta (goalSpherical s))%js)
    as (c & Hc).
  pose proof (@clamp_normal (theta (goalSpherical s) - c)%js _ _
                (@le_not_gt _ _ HA)) as HTc.
  pose proof (@clamp_normal (phi (goalSpherical s) - deltaPhi)%js _ _
                (@le_not_gt _ _ HP)) as HPc.
  assert (HRc : clamp (adjust_goalRadius o (radius (goalSpherical s))
                         (goalLogFov s) (Fin z))
                      (minimumRadius o) (maximumRadius o) = Normal PosInf).
  { rewrite Hr. unfold adjust_goalRadius, adjust_deltaRatio.
    rewrite HminR, HmaxR. cbn [strict_eq gt lt].
    rewrite (proj2 (Reqb_false z 0)) by lra.
    rewrite (proj2 (Rltb_true 0 z)) by lra.
    assert (Hd : forall d : num, isFinite ((PosInf - Fin r) / d)%js = false).
    { intros [| | |d]; cbn; try reflexivity. destruct (Rltb d 0); reflexivity. }
    rewrite Hd. cbn. unfold inf_times.
    rewrite (proj2 (Reqb_false z 0)) by lra.
    rewrite (proj2 (Rltb_true 0 z)) by lra. reflexivity. }
  destruct (@setOrbit_post _ (Some (theta (goalSpherical s) - c)%js)
              (Some (phi (goalSpherical s) - deltaPhi)%js)
              (Some (adjust_goalRadius o (radius (goalSpherical s))
                       (goalLogFov s) (Fin z)))
              s _ _ _ HTc HPc HRc)
    as (b & Hres & _ & Hrad & _).
  unfold exec, result in *. rewrite adjustOrbit_eq. cbv zeta.
  rewrite Hc. fold o.
  destruct (setOrbit _ _ _ s) as [[b'|e] s1] eqn:E; cbn [fst snd] in *;
    [|discriminate].
  destruct (_ !== _)%js; [|exact Hrad].
  destruct (setFieldOfView_frame (Math_exp (goalLogFov s1 + Fin z)%js) s1)
    as (F & _).
  unfold exec in F. rewrite F. exact Hrad.
Qed.

End Goal.

(* ------------------------------------------------------------------ *)
(** ** The frame update *)

Section Frame.

Context {damper : DamperClass}.

Lemma long_path_corrected_frame (s : SmoothControls) :
  let s' := long_path_corrected s in
  goalSpherical s' = goalSpherical s /\ goalLogFov s' = goalLogFov s /\
  logFov s' = logFov s /\
  _options s' = _options s /\ isUserChange s' = isUserChange s /\
  log s' = log s /\ camera s' = camera s.
Proof.
  cbv zeta. unfold long_path_corrected.
  destruct (_ && _ && _); repeat split.
Qed.

Lemma damped_frame (o : Options) (delta : num) (s : SmoothControls) :
  let s' := damped o delta s in
  goalSpherical s' = goalSpherical s /\ goalLogFov s' = goalLogFov s /\
  _options s' = _options s /\ isUserChange s' = isUserChange s /\
  log s' = log s /\ camera s' = camera s.
Proof.
  cbv zeta. unfold damped.
  repeat match goal with
  | |- context [Damper_update ?d ?x ?g ?t ?sc] =>
      destruct (Damper_update d x g t sc); cbn
  end.
  repeat split.
Qed.

(** What [moveCamera] does to the camera and to the outside. *)
Lemma moveCamera_camera (s : SmoothControls) :
  let s' := exec moveCamera s in
  position (camera s') = spherical s' /\
  rotation (camera s') =
    mkEuler (phi (spherical s') - Math_PI / Fin 2)%js (theta (spherical s'))
            (Fin 0) /\
  fov (camera s') = Math_exp (logFov s') /\
  log s' = change (if isUserChange s then USER_INTERACTION else NONE) :: log s /\
  isUserChange s' = isUserChange s.
Proof.
  cbv zeta. unfold moveCamera, exec, bind, modify, gets, when, emit, ret.
  cbv beta iota.
  match goal with
  | |- context [if ?c then _ else _] => destruct c eqn:E
  end; cbn -[makeSafe Math_exp]; repeat split.
  unfold strict_ne in E. apply negb_false_iff, strict_eq_true in E.
  exact E.
Qed.

(** A frame that finds the controller in motion. *)
Lemma update_in_motion (time delta : num) (s : SmoothControls) :
  isStationary s = false ->
  let s' := exec (update time delta) s in
  result (update time delta) s = Normal tt /\
  goalSpherical s' = goalSpherical s /\
  goalLogFov s' = goalLogFov s /\
  _options s' = _options s /\
  position (camera s') = spherical s' /\
  rotation (camera s') =
    mkEuler (phi (spherical s') - Math_PI / Fin 2)%js (theta (spherical s'))
            (Fin 0) /\
  fov (camera s') = Math_exp (logFov s') /\
  log s' = change (if isUserChange s then USER_INTERACTION else NONE) :: log s.
Proof.
  intros Hst. cbv zeta. unfold exec, result. rewrite update_eq, Hst.
  set (s2 := damped (_options s) delta (long_path_corrected s)).
  destruct (long_path_corrected_frame s) as (A1 & A2 & _ & A3 & A4 & A5 & _).
  destruct (damped_frame (_options s) delta (long_path_corrected s))
    as (B1 & B2 & B3 & B4 & B5 & _).
  fold s2 in B1, B2, B3, B4, B5.
  destruct (moveCamera_current s2) as (M0 & _ & M1 & _ & M2 & M3).
  destruct (moveCamera_camera s2) as (C1 & C2 & C3 & C4 & _).
  unfold exec, result in *.
  repeat split; try assumption; try congruence.
  now rewrite C4, B4, A4, B5, A5.
Qed.

(** X15: the frame update.  On a stationary controller (the four current
    values equal their goals) [update] does nothing at all: no field
    changes and no event is dispatched.  Otherwise it returns, leaves the
    goal and the options as they were, brings the camera in step with the
    new current values (position from the current spherical state,
    rotation [(phi - pi/2, theta, 0)], field of view [exp(logFov)]), and
    dispatches exactly one [change] event, whose source is the user
    interaction exactly when the change is marked as the user's. *)
Theorem update_moves_the_camera (time delta : num) (s : SmoothControls) :
  let s' := exec (update time delta) s in
  if isStationary s
  then update time delta s = (Normal tt, s)
  else
    result (update time delta) s = Normal tt /\
    goalSpherical s' = goalSpherical s /\
    goalLogFov s' = goalLogFov s /\
    _options s' = _options s /\
    position (camera s') = spherical s' /\
    rotation (camera s') =
      mkEuler (phi (spherical s') - Math_PI / Fin 2)%js (theta (spherical s'))
              (Fin 0) /\
    fov (camera s') = Math_exp (logFov s') /\
    log s' = change (if isUserChange s then USER_INTERACTION else NONE) :: log s.
Proof.
  cbv zeta. destruct (isStationary s) eqn:E.
  - now rewrite update_eq, E.
  - now apply update_in_motion.
Qed.

Lemma damped_settled (o : Options) (s : SmoothControls) :
  damper_settles ->
  spherical (damped o SETTLING_TIME s) = goalSpherical s /\
  logFov (damped o SETTLING_TIME s) = goalLogFov s.
Proof.
  intros Hs. unfold damped.
  repeat match goal with
  | |- context [Damper_update ?d ?x ?g SETTLING_TIME ?sc] =>
      let H := fresh in
      pose proof (Hs d x g sc) as H;
      destruct (Damper_update d x g SETTLING_TIME sc); cbn in H; subst; cbn
  end.
  split; [|reflexivity]. now destruct (goalSpherical s).
Qed.

(** A jump under a damper that has settled. *)
Lemma jumpToGoal_settles (s : SmoothControls) :
  damper_settles ->
  is_number (theta (goalSpherical s)) ->
  safe_polar (phi (goalSpherical s)) ->
  is_number (radius (goalSpherical s)) ->
  is_number (goalLogFov s) ->
  let s' := exec jumpToGoal s in
  spherical s' = goalSpherical s /\
  logFov s' = goalLogFov s /\
  goalSpherical s' = goalSpherical s /\
  goalLogFov s' = goalLogFov s /\
  isStationary s' = true /\
  forall time delta, update time delta s' = (Normal tt, s').
Proof.
  intros Hs NT SP NR NL. cbv zeta.
  assert (Hgoal : spherical (exec jumpToGoal s) = goalSpherical s /\
                  logFov (exec jumpToGoal s) = goalLogFov s /\
                  goalSpherical (exec jumpToGoal s) = goalSpherical s /\
                  goalLogFov (exec jumpToGoal s) = goalLogFov s).
  { unfold jumpToGoal, exec. rewrite update_eq.
    destruct (isStationary s) eqn:E; cbn [snd].
    - unfold isStationary in E.
      apply andb_prop in E as [E E4]. apply andb_prop in E as [E E3].
      apply andb_prop in E as [E1 E2].
      apply strict_eq_true in E1, E2, E3, E4.
      repeat split; try congruence.
      symmetry. now apply spherical_ext.
    - set (s1 := long_path_corrected s).
      destruct (long_path_corrected_frame s) as (A1 & A2 & _).
      fold s1 in A1, A2.
      destruct (damped_settled (_options s) s1 Hs) as (D1 & D2).
      destruct (damped_frame (_options s) SETTLING_TIME s1) as (B1 & B2 & _).
      destruct (moveCamera_current (damped (_options s) SETTLING_TIME s1))
        as (_ & M1 & M2 & M3 & M4 & _).
      unfold exec in *.
      rewrite M1, M2, M3, M4, D1, D2, B1, B2, A1, A2.
      repeat split. apply makeSafe_id. exact SP. }
  destruct Hgoal as (G1 & G2 & G3 & G4).
  assert (Hst : isStationary (exec jumpToGoal s) = true).
  { unfold isStationary. rewrite G1, G2, G3, G4.
    rewrite !strict_eq_refl; auto. now apply safe_polar_number. }
  repeat split; try assumption.
  intros time delta. now rewrite update_eq, Hst.
Qed.

(** X16: [jumpToGoal] reaches the goal.  For a damper that returns its goal
    for a time step of [SETTLING_TIME], and a goal that consists of numbers
    with a safe polar angle: after [jumpToGoal] the current spherical state
    and log-FOV equal the goal, which is as it was; the controller is
    stationary, so that further frame updates do nothing. *)
Theorem jumpToGoal_reaches_the_goal (s : SmoothControls) :
  damper_settles ->
  is_number (theta (goalSpherical s)) ->
  safe_polar (phi (goalSpherical s)) ->
  is_number (radius (goalSpherical s)) ->
  is_number (goalLogFov s) ->
  let s' := exec jumpToGoal s in
  spherical s' = goalSpherical s /\
  logFov s' = goalLogFov s /\
  goalSpherical s' = goalSpherical s /\
  goalLogFov s' = goalLogFov s /\
  isStationary s' = true /\
  forall time delta, update time delta s' = (Normal tt, s').
Proof.
  intros Hs NT SP NR NL. now apply jumpToGoal_settles.
Qed.

End Frame.

(* ------------------------------------------------------------------ *)
(** ** The theorems above on a new controller *)

Lemma setOrbit_goal_within_bounds_witness :
  let s := constructed true in
  let call := setOrbit (Some (Fin 7)) (Some (Fin 0)) (Some (Fin (-1))) in
  exists changed : bool,
    result call s = Normal changed /\
    within NegInf (theta (goalSpherical (exec call s))) PosInf /\
    within (Fin 0) (radius (goalSpherical (exec call s))) PosInf.
Proof.
  destruct (constructed_fields true) as (Ho & Hg & _). cbv zeta in Ho, Hg.
  cbv zeta.
  destruct (@setOrbit_goal_within_bounds snapDamper
              (Some (Fin 7)) (Some (Fin 0)) (Some (Fin (-1)))
              (constructed true))
    as (b & Hres & HT & HR & _).
  - rewrite Ho. exact I.
  - rewrite Ho. cbn. pose proof PI_bounds. lra.
  - rewrite Ho. exact I.
  - discriminate.
  - discriminate.
  - discriminate.
  - exists b. rewrite Ho in HT, HR. auto.
Defined.

Lemma setRadius_clamps_witness :
  goalSpherical (exec (setRadius (Fin 5)) (constructed true))
    = mkSpherical (Fin 5) (Fin (PI / 2)) (Fin 0).
Proof.
  destruct (constructed_fields true) as (Ho & Hg & _). cbv zeta in Ho, Hg.
  pose proof PI_bounds as Hpi.
  destruct (@setRadius_clamps snapDamper (Fin 5) (constructed true))
    as (c & _ & G & _ & Hc & _).
  - rewrite Ho, Hg. split; exact I.
  - rewrite Ho, Hg. split; cbn; lra.
  - rewrite Hg. exists (PI / 2). split; [reflexivity|]. unfold EPS. lra.
  - rewrite Ho. exact I.
  - discriminate.
  - rewrite G, Hg, Hc; [reflexivity|].
    rewrite Ho. split; cbn; [lra|exact I].
Defined.

Lemma setFieldOfView_goal_within_bounds_witness :
  Math_exp (goalLogFov (exec (setFieldOfView (Fin 30)) (constructed true)))
    = Fin 30.
Proof.
  destruct (constructed_fields true) as (Ho & _). cbv zeta in Ho.
  destruct (@setFieldOfView_goal_within_bounds snapDamper (Fin 30)
              (constructed true) 10 45)
    as (_ & (v & _ & _ & Hv & Hid) & _).
  - now rewrite Ho.
  - now rewrite Ho.
  - lra.
  - discriminate.
  - rewrite Hv. symmetry. apply Hid. split; cbn; lra.
Defined.

Lemma applyOptions_keeps_goal_witness :
  let s := constructed true in
  let s' := exec (applyOptions radius_up_to_2) s in
  result (applyOptions radius_up_to_2) s = Normal tt /\
  goalSpherical s' = goalSpherical s /\
  goalLogFov s' = goalLogFov s.
Proof.
  destruct (constructed_fields true) as (Ho & Hg & _ & Hl & _).
  cbv zeta in Ho, Hg, Hl. cbv zeta.
  pose proof PI_bounds as Hpi. pose proof ln_10_lt_ln_45 as Hln.
  destruct (@applyOptions_keeps_goal_within_bounds snapDamper radius_up_to_2
              (constructed true) 10 45 (ln 45))
    as (H1 & _ & H3 & H4 & _).
  - rewrite Ho, Hg. split; exact I.
  - rewrite Ho, Hg. split; cbn; lra.
  - rewrite Ho, Hg. split; cbn; lra.
  - now rewrite Ho.
  - now rewrite Ho.
  - lra.
  - exact Hl.
  - lra.
  - auto.
Defined.

Lemma adjustOrbit_subtracts_deltas_witness :
  goalSpherical (exec (adjustOrbit (Fin 1) (Fin (1 / 2)) (Fin 0))
                      (constructed true))
    = mkSpherical (Fin 1) (Fin (PI / 2 - 1 / 2)) (Fin (0 - 1)).
Proof.
  destruct (constructed_fields true) as (Ho & Hg & Hc & _).
  cbv zeta in Ho, Hg, Hc.
  pose proof PI_bounds as Hpi.
  apply (@adjustOrbit_subtracts_deltas snapDamper (constructed true)
           0 0 (PI / 2) 1 1 (1 / 2)).
  - now rewrite Hc.
  - exact Hg.
  - rewrite Rabs_pos_eq; lra.
  - rewrite Ho. split; exact I.
  - rewrite Ho. split; cbn; lra.
  - unfold EPS. lra.
  - rewrite Ho. split; cbn; [lra|exact I].
Defined.

Lemma adjustOrbit_zoom_direction_witness :
  let s := exec (applyOptions radius_up_to_2) (constructed true) in
  let s' := exec (adjustOrbit (Fin 0) (Fin 0) (Fin (-1))) s in
  exists r' l' : R,
    radius (goalSpherical s') = Fin r' /\
    goalLogFov s' = Fin l' /\
    0 <= r' <= 1 /\ ln 10 <= l' <= ln 45.
Proof.
  destruct radius_up_to_2_fields as (Ho & Hr & Hl). cbv zeta in Ho, Hr, Hl.
  cbv zeta.
  pose proof ln_10_lt_ln_45 as Hln.
  destruct (@adjustOrbit_zoom_direction snapDamper
              (exec (applyOptions radius_up_to_2) (constructed true))
              (Fin 0) (Fin 0) 1 (ln 45) (-1) 0 2 10 45)
    as (_ & r' & l' & H1 & H2 & H3 & H4 & _ & H6).
  - rewrite Ho. exact I.
  - rewrite Ho. cbn. pose proof PI_bounds. lra.
  - now rewrite Ho.
  - now rewrite Ho.
  - now rewrite Ho.
  - now rewrite Ho.
  - exact Hr.
  - exact Hl.
  - lra.
  - lra.
  - lra.
  - exists r', l'. destruct H6 as [H6 H7]; [lra|].
    repeat split; try assumption; lra.
Defined.

Lemma adjustOrbit_zoom_out_without_maximum_radius_witness :
  radius (goalSpherical
            (exec (adjustOrbit (Fin 0) (Fin 0) (Fin (4 / 100)))
                  (constructed true)))
    = PosInf.
Proof.
  destruct (constructed_fields true) as (Ho & Hg & _). cbv zeta in Ho, Hg.
  apply (@adjustOrbit_zoom_out_without_maximum_radius snapDamper
           (constructed true) (Fin 0) (Fin 0) 1 (4 / 100) 0).
  - rewrite Ho. exact I.
  - rewrite Ho. cbn. pose proof PI_bounds. lra.
  - now rewrite Ho.
  - now rewrite Ho.
  - now rewrite Hg.
  - lra.
Defined.

Lemma snapDamper_settles : @damper_settles snapDamper.
Proof. intros d x g sc. reflexivity. Qed.

Lemma jumpToGoal_reaches_the_goal_witness :
  let s' := exec jumpToGoal across_the_seam in
  spherical s' = mkSpherical (Fin 1) (Fin (PI / 2)) (Fin (-3)) /\
  isStationary s' = true.
Proof.
  destruct (constructed_fields true) as (_ & _ & _ & Hl & _). cbv zeta in Hl.
  cbv zeta.
  destruct (@jumpToGoal_reaches_the_goal snapDamper across_the_seam
              snapDamper_settles)
    as (H1 & _ & _ & _ & H5 & _).
  - discriminate.
  - exists (PI / 2). split; [reflexivity|].
    pose proof PI_bounds. unfold EPS. lra.
  - discriminate.
  - change (goalLogFov across_the_seam) with (goalLogFov (constructed true)).
    rewrite Hl. discriminate.
  - split; [exact H1|exact H5].
Defined.

(* ------------------------------------------------------------------ *)
(** ** User input *)

Section Input.

Context {damper : DamperClass}.

Lemma setOrbit_log (gT gP gR : option num) : preserves log (setOrbit gT gP gR).
Proof. unfold setOrbit. frame. Qed.

Lemma setFieldOfView_log (f : num) : preserves log (setFieldOfView f).
Proof. unfold setFieldOfView. frame. Qed.

#[local] Hint Resolve setOrbit_log setFieldOfView_log : frame.

Lemma adjustOrbit_log (dT dP dZ : num) : preserves log (adjustOrbit dT dP dZ).
Proof. unfold adjustOrbit. frame. Qed.

(** How [userAdjustOrbit] completes. *)
Lemma userAdjustOrbit_outcome (dT dP dZ : num) (s : SmoothControls) :
  let k := sensitivity s in
  match adjustOrbit (dT * k)%js (dP * k)%js dZ s with
  | (Normal _, s1) =>
      userAdjustOrbit dT dP dZ s =
      (Normal tt,
       set_log (change USER_INTERACTION :: log s) (set_isUserChange true s1))
  | (Throw e, s1) => userAdjustOrbit dT dP dZ s = (Throw e, s1)
  end /\
  log (exec (adjustOrbit (dT * k)%js (dP * k)%js dZ) s) = log s.
Proof.
  cbv zeta. split; [|apply adjustOrbit_log].
  pose proof (adjustOrbit_log (dT * sensitivity s)%js (dP * sensitivity s)%js
                dZ s) as Hl.
  unfold exec in Hl.
  unfold userAdjustOrbit, emit, bind, gets, modify. cbv beta iota.
  destruct (adjustOrbit _ _ _ s) as [[u|e] s1]; cbn [snd] in Hl; [|reflexivity].
  cbv beta iota. change (log (set_isUserChange true s1)) with (log s1).
  now rewrite Hl.
Qed.

(** X17: a change that comes from the user is marked.  When
    [userAdjustOrbit] returns, it has adjusted the orbit as [adjustOrbit]
    does for the deltas scaled by the sensitivity, it has marked the change
    as the user's and dispatched one [change] event with the source
    user-interaction (also when the goal did not move), and the next frame
    update that finds the controller in motion dispatches its [change]
    event with the source user-interaction, too.  When it throws, it has
    dispatched nothing. *)
Theorem userAdjustOrbit_marks_the_change
    (dT dP dZ : num) (s : SmoothControls) :
  let k := sensitivity s in
  let s' := exec (userAdjustOrbit dT dP dZ) s in
  match result (userAdjustOrbit dT dP dZ) s with
  | Normal _ =>
      orbit s' = orbit (exec (adjustOrbit (dT * k)%js (dP * k)%js dZ) s) /\
      isUserChange s' = true /\
      log s' = change USER_INTERACTION :: log s /\
      (isStationary s' = false ->
       forall time delta,
         log (exec (update time delta) s') =
         change USER_INTERACTION :: change USER_INTERACTION :: log s)
  | Throw _ => log s' = log s
  end.
Proof.
  cbv zeta.
  destruct (userAdjustOrbit_outcome dT dP dZ s) as [H Hl].
  unfold exec, result in *.
  destruct (adjustOrbit _ _ _ s) as [[u|e] s1]; rewrite H; cbn [fst snd] in *.
  - repeat split.
    intros Hst time delta.
    destruct (@update_in_motion _ time delta _ Hst)
      as (_ & _ & _ & _ & _ & _ & _ & L).
    unfold exec in L. rewrite L. reflexivity.
  - exact Hl.
Qed.

(** X18: the keyboard handler.  For a key it does not respond to,
    [onKeyDown] does nothing at all: the controller is unchanged and the
    default handling of the key is not prevented.  For a key it responds to
    (the four arrows, page up and page down), when the adjustment returns,
    it has dispatched a [change] event with the source user-interaction and
    then, only if the event is cancelable, called [preventDefault] once;
    when the adjustment throws, it has dispatched nothing and not prevented
    the default. *)
Theorem onKeyDown_effects (ev : Event) (s : SmoothControls) :
  let s' := exec (onKeyDown ev) s in
  if relevant_key (keyCode ev)
  then match result (onKeyDown ev) s with
       | Normal _ =>
           log s' = (if cancelable ev then [preventDefault] else [])
                    ++ change USER_INTERACTION :: log s /\
           isUserChange s' = true
       | Throw _ => log s' = log s
       end
  else onKeyDown ev s = (Normal tt, s).
Proof.
  cbv zeta.
  assert (K : forall dT dP dZ,
    let m := (userAdjustOrbit dT dP dZ ;; ret true) >>= fun relevantKey =>
             when (relevantKey && cancelable ev) (emit preventDefault) in
    match result m s with
    | Normal _ =>
        log (exec m s) = (if cancelable ev then [preventDefault] else [])
                         ++ change USER_INTERACTION :: log s /\
        isUserChange (exec m s) = true
    | Throw _ => log (exec m s) = log s
    end).
  { intros dT dP dZ. cbv zeta.
    destruct (userAdjustOrbit_outcome dT dP dZ s) as [H Hl].
    unfold exec, result in *. unfold bind.
    destruct (adjustOrbit _ _ _ s) as [[u|e] s1]; rewrite H;
      cbn [fst snd] in *; [|exact Hl].
    unfold ret, when, emit, modify. cbn [andb].
    destruct (cancelable ev); cbn; split; reflexivity. }
  unfold onKeyDown, relevant_key.
  destruct (keyCode ev =? KeyCode.PAGE_UP)%Z; [apply K|].
  destruct (keyCode ev =? KeyCode.PAGE_DOWN)%Z; [apply K|].
  destruct (keyCode ev =? KeyCode.UP)%Z; [apply K|].
  destruct (keyCode ev =? KeyCode.DOWN)%Z; [apply K|].
  destruct (keyCode ev =? KeyCode.LEFT)%Z; [apply K|].
  destruct (keyCode ev =? KeyCode.RIGHT)%Z; [apply K|].
  reflexivity.
Qed.

(* ------------------------------------------------------------------ *)
(** *** The events of a gesture *)

Lemma setOrbit_tally (gT gP gR : option num) :
  preserves tally_state (setOrbit gT gP gR).
Proof. unfold setOrbit. frame. Qed.

Lemma setFieldOfView_tally (f : num) : preserves tally_state (setFieldOfView f).
Proof. unfold setFieldOfView. frame. Qed.

#[local] Hint Resolve setOrbit_tally setFieldOfView_tally : frame.

Lemma adjustOrbit_tally (dT dP dZ : num) :
  preserves tally_state (adjustOrbit dT dP dZ).
Proof. unfold adjustOrbit. frame. Qed.

#[local] Hint Resolve adjustOrbit_tally : frame.

Lemma userAdjustOrbit_tally (dT dP dZ : num) :
  preserves tally_state (userAdjustOrbit dT dP dZ).
Proof. unfold userAdjustOrbit, emit. frame. Qed.

Lemma preventDefault_tally (ev : Event) :
  preserves tally_state (preventDefault_if_cancelable ev).
Proof. unfold preventDefault_if_cancelable, emit. frame. Qed.

#[local] Hint Resolve userAdjustOrbit_tally preventDefault_tally : frame.

Lemma keeps_bind {A B} (P : SmoothControls -> Prop)
    (m : Method A) (k : A -> Method B) :
  keeps P m -> (forall a, keeps P (k a)) -> keeps P (bind m k).
Proof.
  intros Hm Hk s Hs. specialize (Hm s Hs). unfold exec, bind in *.
  destruct (m s) as [[a|e] s1]; cbn [snd] in *; [now apply Hk|assumption].
Qed.

Lemma preserves_keeps {B} (n e : nat) (m : Method B) :
  preserves tally_state m -> keeps (pointing_tally n e) m.
Proof.
  intros H s [H1 H2]. specialize (H s). unfold tally_state in H.
  injection H as Ha Hb Hc. unfold pointing_tally.
  now rewrite Ha, Hb, Hc.
Qed.

Lemma handleSinglePointerMove_keeps (n e : nat) (p : option Pointer) :
  keeps (pointing_tally n e) (handleSinglePointerMove p).
Proof.
  destruct p as [p|]; [|intros s Hs; exact Hs].
  intros s [H1 H2].
  assert (E : exists dT dP s2,
             handleSinglePointerMove (Some p) s = userAdjustOrbit dT dP (Fin 0) s2
             /\ pointing_tally n e s2).
  { unfold handleSinglePointerMove, pixelLengthToSphericalAngle, emit, when,
      bind, gets, modify, ret. cbv beta iota.
    cbn [isUserPointing set_lastPointerPosition].
    destruct (isUserPointing s) eqn:Hp; cbn [negb]; cbv beta iota.
    - do 3 eexists. split; [reflexivity|].
      split; cbn; [now rewrite Hp|assumption].
    - do 3 eexists. split; [reflexivity|].
      split; cbn; [rewrite H1; lia|assumption]. }
  destruct E as (dT & dP & s2 & E & H).
  unfold exec. rewrite E.
  now apply (@preserves_keeps _ n e _ (userAdjustOrbit_tally dT dP (Fin 0))).
Qed.

Ltac keep_step :=
  first
    [ apply handleSinglePointerMove_keeps
    | apply preserves_keeps; solve [frame]
    | apply keeps_bind; [|intros]
    | match goal with
      | |- keeps _ (if ?b then _ else _) => destruct b
      | |- keeps _ (match ?x with _ => _ end) => destruct x
      end
    | progress cbv zeta ].

Lemma onPointerMove_keeps (n e : nat) (ev : Event) :
  keeps (pointing_tally n e) (onPointerMove ev).
Proof. unfold onPointerMove. repeat keep_step. Qed.

Lemma handle_all_keeps (n e : nat) (moves : list Event) (s : SmoothControls) :
  pointing_tally n e s ->
  pointing_tally n e (handle_all onPointerMove moves s).
Proof.
  revert s. induction moves as [|ev moves IH]; intros s Hs; [exact Hs|].
  cbn. apply IH. now apply onPointerMove_keeps.
Qed.

Lemma onPointerDown_tally (ev : Event) (s : SmoothControls) :
  pointing_tally (count_starts (log s)) (count_ends (log s))
    (exec (onPointerDown ev) s).
Proof.
  unfold onPointerDown. rewrite !exec_bind_modify.
  match goal with
  | |- pointing_tally ?n ?e (exec ?m ?s1) =>
      assert (H : preserves tally_state m)
        by (unfold handleSinglePointerDown; frame);
      apply (@preserves_keeps _ n e m H s1)
  end.
  split; cbn; [lia|reflexivity].
Qed.

(** X19: the events of a gesture pair up.  Over a whole gesture (a pointer
    or touches go down, any movements follow, the pointer goes up), the
    controller dispatches at most one [pointer-change-start] event, namely
    when a movement first made the user point, and [onPointerUp] dispatches
    a [pointer-change-end] event exactly if a start event was dispatched in
    the gesture; this holds also when a handler throws on the way. *)
Theorem pointer_change_events_pair_up
    (down up : Event) (moves : list Event) (s : SmoothControls) :
  let s2 := handle_all onPointerMove moves (exec (onPointerDown down) s) in
  let s3 := gesture down moves up s in
  let started := if isUserPointing s2 then 1%nat else 0%nat in
  count_starts (log s3) = (count_starts (log s) + started)%nat /\
  count_ends (log s3) = (count_ends (log s) + started)%nat.
Proof.
  cbv zeta. unfold gesture.
  pose proof (handle_all_keeps moves (onPointerDown_tally down s)) as [H1 H2].
  set (s2 := handle_all onPointerMove moves (exec (onPointerDown down) s)) in *.
  unfold onPointerUp, emit, exec, bind, modify, gets, when, ret.
  cbv beta iota. cbn [isUserPointing set_pointerIsDown set_element].
  destruct (isUserPointing s2); cbn; rewrite H1, H2; split; lia.
Qed.

(** X20: two fingers.  A touch start with two touches makes the gesture a
    zoom, or a scroll when zoom is disabled; it changes neither the orbit
    nor what was dispatched.  When zoom is disabled, every touch movement
    that follows leaves the controller as it is: the gesture is left to the
    page. *)
Theorem two_finger_touch_start
    (c : bool) (p q : Pointer) (moves : list (bool * list Pointer))
    (s : SmoothControls) :
  let s1 := exec (onPointerDown (touch_event touchstart c [p; q])) s in
  touchMode s1 = (if _disableZoom s then scroll else zoom) /\
  orbit s1 = orbit s /\
  log s1 = log s /\
  (_disableZoom s = true ->
   handle_all onPointerMove (touch_moves moves) s1 = s1).
Proof.
  cbv zeta.
  assert (Hm : touchMode (exec (onPointerDown (touch_event touchstart c [p; q]))
                               s)
               = if _disableZoom s then scroll else zoom).
  { unfold onPointerDown, exec, bind, modify, gets. cbn. reflexivity. }
  split; [exact Hm|]. split; [apply onPointerDown_orbit|].
  split.
  { unfold onPointerDown, exec, bind, modify, gets. cbn. reflexivity. }
  intros Hz. apply handle_all_scroll. now rewrite Hm, Hz.
Qed.

End Input.

(* ------------------------------------------------------------------ *)
(** ** Angles *)

(** X21: [wrapAngle] has the period 2 pi and is idempotent on real angles,
    and it has no value ([NaN]) for an angle that is not finite. *)
Theorem wrapAngle_periodic (x : R) (k : Z) :
  wrapAngle (Fin (x + 2 * PI * IZR k)) = wrapAngle (Fin x) /\
  wrapAngle (wrapAngle (Fin x)) = wrapAngle (Fin x) /\
  wrapAngle PosInf = NaN /\ wrapAngle NegInf = NaN /\ wrapAngle NaN = NaN.
Proof.
  pose proof PI_bounds as Hpi.
  split; [|split].
  - rewrite !wrapAngle_Fin. f_equal.
    replace ((x + 2 * PI * IZR k + PI) / (2 * PI))
      with ((x + PI) / (2 * PI) + IZR k) by (field; lra).
    rewrite Zfloor_addz, plus_IZR. lra.
  - rewrite wrapAngle_Fin. apply wrapAngle_id. apply wrapAngle_range.
  - repeat split; now apply wrapAngle_not_finite.
Qed.

(* ------------------------------------------------------------------ *)
(** ** The arrow keys *)

Section Keys.

Context {damper : DamperClass}.

(** A key that turns the camera about the vertical axis: the handler's
    [userAdjustOrbit(d, 0, 0)] followed by [preventDefault]. *)
Lemma azimuth_key (s : SmoothControls) (cancel : bool) (c g q r k d : R) :
  let o := _options s in
  sensitivity s = Fin k ->
  theta (spherical s) = Fin c ->
  goalSpherical s = mkSpherical (Fin r) (Fin q) (Fin g) ->
  Rabs (c - (g - d * k)) <= PI - 1 / 1000 ->
  within (minimumAzimuthalAngle o) (Fin (g - d * k)) (maximumAzimuthalAngle o) ->
  within (minimumPolarAngle o) (Fin q) (maximumPolarAngle o) ->
  EPS <= q <= PI - EPS ->
  within (minimumRadius o) (Fin r) (maximumRadius o) ->
  let m := (userAdjustOrbit (Fin d) (Fin 0) (Fin 0) ;; ret true) >>=
           fun relevantKey =>
             when (relevantKey && cancel) (emit preventDefault) in
  let s' := exec m s in
  goalSpherical s' = mkSpherical (Fin r) (Fin q) (Fin (g - d * k)) /\
  theta (spherical s') = Fin c /\
  _options s' = _options s /\
  sensitivity s' = Fin k.
Proof.
  cbv zeta. intros Hk Hc Hg Hx WT WP SP WR.
  destruct (@userAdjustOrbit_outcome _ (Fin d) (Fin 0) (Fin 0) s) as [H _].
  rewrite Hk in H.
  change (Fin d * Fin k)%js with (Fin (d * k)) in H.
  change (Fin 0 * Fin k)%js with (Fin (0 * k)) in H.
  assert (Hq : q - 0 * k = q) by lra.
  destruct (@adjustOrbit_in_reach _ s c g q r (d * k) (0 * k))
    as (R1 & R2 & _ & R4 & R5); try assumption;
    try (rewrite Hq; assumption).
  pose proof (@adjustOrbit_input _ (Fin (d * k)) (Fin (0 * k)) (Fin 0) s) as Hi.
  unfold input_state in Hi. injection Hi as _ Hsens _ _ _ _ _ _ _ _ _.
  unfold exec, result in *. unfold bind.
  destruct (adjustOrbit _ _ _ s) as [[u|e] s1]; [|discriminate].
  rewrite H. cbn [fst snd] in *.
  unfold ret, when, emit, modify. cbn [andb].
  rewrite Hq in R2.
  destruct cancel; cbn [snd]; (split; [exact R2|]); (split; [exact R4|]);
    (split; [exact R5|]); cbn; congruence.
Qed.

(** X22: the left and right arrow keys undo each other.  On a controller
    with sensitivity [k], whose goal lies within its bounds with a safe
    polar angle, when both the goal azimuth and the goal azimuth plus
    [k pi / 8] are within [pi - 0.001] of the current azimuth and within the
    azimuth bounds: the left arrow key raises the goal azimuth by
    [k pi / 8] and leaves the rest of the goal alone, and the right arrow
    key after it restores the goal. *)
Theorem left_then_right_restores_the_goal
    (s : SmoothControls) (left right : Event) (c g q r k : R) :
  let o := _options s in
  let a := PI / 8 * k in
  keyCode left = KeyCode.LEFT -> keyCode right = KeyCode.RIGHT ->
  sensitivity s = Fin k ->
  theta (spherical s) = Fin c ->
  goalSpherical s = mkSpherical (Fin r) (Fin q) (Fin g) ->
  Rabs (c - g) <= PI - 1 / 1000 ->
  Rabs (c - (g + a)) <= PI - 1 / 1000 ->
  within (minimumAzimuthalAngle o) (Fin g) (maximumAzimuthalAngle o) ->
  within (minimumAzimuthalAngle o) (Fin (g + a)) (maximumAzimuthalAngle o) ->
  within (minimumPolarAngle o) (Fin q) (maximumPolarAngle o) ->
  EPS <= q <= PI - EPS ->
  within (minimumRadius o) (Fin r) (maximumRadius o) ->
  let s1 := exec (onKeyDown left) s in
  let s2 := exec (onKeyDown right) s1 in
  goalSpherical s1 = mkSpherical (Fin r) (Fin q) (Fin (g + a)) /\
  goalSpherical s2 = goalSpherical s.
Proof.
  cbv zeta. intros HL HR Hk Hc Hg Hx0 Hx1 WT0 WT1 WP SP WR.
  assert (E1 : g - - (PI / 8) * k = g + PI / 8 * k) by lra.
  assert (EL : onKeyDown left =
               (userAdjustOrbit (Fin (- (PI / 8))) (Fin 0) (Fin 0) ;; ret true)
               >>= fun relevantKey =>
                 when (relevantKey && cancelable left) (emit preventDefault)).
  { unfold onKeyDown. rewrite HL. reflexivity. }
  assert (ER : onKeyDown right =
               (userAdjustOrbit (Fin (PI / 8)) (Fin 0) (Fin 0) ;; ret true)
               >>= fun relevantKey =>
                 when (relevantKey && cancelable right) (emit preventDefault)).
  { unfold onKeyDown. rewrite HR. reflexivity. }
  rewrite EL, ER.
  destruct (@azimuth_key s (cancelable left) c g q r k (- (PI / 8)))
    as (A1 & A2 & A3 & A4); try assumption; try (rewrite E1; assumption).
  rewrite E1 in A1.
  split; [exact A1|].
  assert (E2 : g + PI / 8 * k - PI / 8 * k = g) by lra.
  match goal with
  | |- goalSpherical (exec _ ?s1) = _ =>
      destruct (@azimuth_key s1 (cancelable right) c (g + PI / 8 * k) q r k
                  (PI / 8))
        as (B1 & _); try assumption; try (rewrite ?A3, ?E2; assumption)
  end.
  rewrite B1, E2, Hg. reflexivity.
Qed.

End Keys.

Lemma left_then_right_witness :
  let s := constructed true in
  let s1 := exec (onKeyDown (key_event KeyCode.LEFT)) s in
  let s2 := exec (onKeyDown (key_event KeyCode.RIGHT)) s1 in
  goalSpherical s1 = mkSpherical (Fin 1) (Fin (PI / 2)) (Fin (0 + PI / 8 * 1)) /\
  goalSpherical s2 = goalSpherical s.
Proof.
  destruct (constructed_fields true) as (Ho & Hg & Hc & _ & _ & Hk & _).
  cbv zeta in Ho, Hg, Hc, Hk. cbv zeta.
  pose proof PI_bounds as Hpi.
  apply (@left_then_right_restores_the_goal snapDamper (constructed true)
           (key_event KeyCode.LEFT) (key_event KeyCode.RIGHT)
           0 0 (PI / 2) 1 1).
  - reflexivity.
  - reflexivity.
  - exact Hk.
  - now rewrite Hc.
  - exact Hg.
  - rewrite Rabs_pos_eq; lra.
  - rewrite Rabs_left1; lra.
  - rewrite Ho. split; exact I.
  - rewrite Ho. split; exact I.
  - rewrite Ho. split; cbn; lra.
  - unfold EPS. lra.
  - rewrite Ho. split; cbn; [lra|exact I].
Defined.

(* ------------------------------------------------------------------ *)
(** ** Construction *)

Section Construction.

Context {damper : DamperClass}.

Lemma bind_result {St A B} (m : M St A) (k : A -> M St B) (s : St) (a : A) :
  result m s = Normal a -> bind m k s = k a (exec m s).
Proof.
  unfold result, exec, bind.
  destruct (m s) as [[a'|e] s1]; cbn; intros H;
    [injection H as ->; reflexivity | discriminate].
Qed.

Lemma setOrbit_bindings (gT gP gR : option num) :
  preserves bindings (setOrbit gT gP gR).
Proof. unfold setOrbit. frame. Qed.

Lemma moveCamera_bindings : preserves bindings moveCamera.
Proof. unfold moveCamera, emit. frame. Qed.

Lemma update_bindings (time delta : num) : preserves bindings (update time delta).
Proof.
  intros s. unfold exec. rewrite update_eq.
  destruct (isStationary s); [reflexivity|].
  pose proof (moveCamera_bindings
                (damped (_options s) delta (long_path_corrected s))) as H.
  unfold exec in H. rewrite H. clear H.
  unfold damped.
  repeat match goal with
  | |- context [Damper_update ?d ?x ?g ?t ?sc] =>
      destruct (Damper_update d x g t sc); cbn
  end.
  unfold long_path_corrected. now destruct (_ && _ && _).
Qed.

Lemma setOrbit_keeps_unmarked (gT gP gR : option num) (s : SmoothControls) :
  isUserChange s = false ->
  isUserChange (exec (setOrbit gT gP gR) s) = false.
Proof.
  intros H. unfold exec. rewrite setOrbit_eq. cbv zeta.
  destruct (clamp (or_default gT _) _ _) as [nT|e]; cbn [snd]; [|exact H].
  destruct (rewrap_fields (_options s) nT s) as (_ & F & _). rewrite H in F.
  destruct (clamp (or_default gP _) _ _); cbn [snd]; [|exact F].
  destruct (clamp (or_default gR _) _ _); cbn [snd]; [|exact F].
  destruct (_ && _ && _); cbn [snd]; [exact F|reflexivity].
Qed.

(** X23: what the constructor establishes.  For a damper that returns its
    goal for a time step of [SETTLING_TIME], [new SmoothControls(camera,
    element)] returns a controller with the default options, whose goal is
    radius 1, polar angle pi/2 and azimuth 0 with a field of view of 45
    degrees (the 100 degrees that the constructor asks for are clamped to
    the default maximum); the camera has jumped there, so the controller is
    stationary and the camera's field of view is 45; one [change] event was
    dispatched, with the source none; interaction is not enabled. *)
Theorem constructor_establishes (camera0 : Camera) (element0 : Element) :
  damper_settles ->
  let s := snd (constructor camera0 element0) in
  fst (constructor camera0 element0) = Normal tt /\
  _options s = DEFAULT_OPTIONS /\
  goalSpherical s = mkSpherical (Fin 1) (Fin (PI / 2)) (Fin 0) /\
  spherical s = goalSpherical s /\
  goalLogFov s = Fin (ln 45) /\
  logFov s = goalLogFov s /\
  isStationary s = true /\
  fov (camera s) = Fin 45 /\
  log s = [change NONE] /\
  bindings s = (false, false, element0, Fin 1).
Proof.
  intros Hs. cbv zeta.
  pose proof PI_bounds as Hpi.
  set (s0 := fresh camera0 element0).
  set (call := setOrbit (Some (Fin 0)) (Some (Fin (PI / 2))) (Some (Fin 1))).
  (* setOrbit(0, Math.PI / 2, 1) *)
  destruct (@setOrbit_post _ (Some (Fin 0)) (Some (Fin (PI / 2))) (Some (Fin 1))
              s0 (Fin 0) (Fin (PI / 2)) (Fin 1))
    as (b & Hres & Ht & Hr & Hp & Hb & _ & Hgl & _ & Hop).
  { apply clamp_unbounded. }
  { apply clamp_id. split; cbn; lra. }
  { apply clamp_id. split; cbn; [lra|exact I]. }
  fold call in Hres, Ht, Hr, Hp, Hgl, Hop.
  assert (b = true).
  { destruct b; [reflexivity|]. specialize (Hb eq_refl). cbn in Hb.
    injection Hb as Hb. lra. }
  subst b.
  assert (Hsafe : safe_polar (Fin (PI / 2))).
  { exists (PI / 2). split; [reflexivity|]. unfold EPS. lra. }
  rewrite makeSafe_id in Hp by exact Hsafe. cbn [phi] in Hp.
  destruct (setOrbit_current_frame (Some (Fin 0)) (Some (Fin (PI / 2)))
              (Some (Fin 1)) s0) as (Hcp & _ & Hcl).
  fold call in Hcp, Hcl.
  pose proof (setOrbit_keeps_unmarked (Some (Fin 0)) (Some (Fin (PI / 2)))
                (Some (Fin 1)) s0 eq_refl) as Hu.
  pose proof (@setOrbit_log _ (Some (Fin 0)) (Some (Fin (PI / 2)))
                (Some (Fin 1)) s0) as Hlog.
  pose proof (setOrbit_bindings (Some (Fin 0)) (Some (Fin (PI / 2)))
                (Some (Fin 1)) s0) as Hbind.
  fold call in Hu, Hlog, Hbind.
  set (s1 := exec call s0) in *.
  (* setFieldOfView(100) *)
  assert (Hfov : setFieldOfView (Fin 100) s1
                 = (Normal tt, set_goalLogFov (Fin (ln 45)) s1)).
  { rewrite setFieldOfView_eq, Hop. change (_options s0) with DEFAULT_OPTIONS.
    cbn [minimumFieldOfView maximumFieldOfView DEFAULT_OPTIONS].
    rewrite clamp_Fin by lra. rewrite clampR_hi by lra.
    rewrite Math_log_Fin by lra. reflexivity. }
  set (s2 := set_goalLogFov (Fin (ln 45)) s1) in *.
  (* jumpToGoal() *)
  assert (Hg2 : goalSpherical s2 = mkSpherical (Fin 1) (Fin (PI / 2)) (Fin 0)).
  { apply spherical_ext; assumption. }
  assert (Hst : isStationary s2 = false).
  { unfold isStationary.
    change (phi (goalSpherical s2)) with (phi (goalSpherical s1)).
    change (phi (spherical s2)) with (phi (spherical s1)).
    rewrite Hp, Hcp. cbn [phi spherical s0 fresh new_Spherical strict_eq].
    rewrite (proj2 (Reqb_false (PI / 2) 0)) by lra.
    now rewrite andb_false_r. }
  destruct (@jumpToGoal_settles _ s2 Hs) as (J1 & J2 & J3 & J4 & J5 & _).
  { rewrite Hg2. discriminate. }
  { rewrite Hg2. exact Hsafe. }
  { rewrite Hg2. discriminate. }
  { discriminate. }
  destruct (@update_in_motion _ (Fin 0) SETTLING_TIME s2 Hst)
    as (U1 & _ & _ & U4 & _ & _ & U7 & U8).
  pose proof (update_bindings (Fin 0) SETTLING_TIME s2) as Ub.
  fold jumpToGoal in U1, U4, U7, U8, Ub.
  assert (E : constructor camera0 element0 = jumpToGoal s2).
  { unfold constructor. fold s0. fold call.
    rewrite (@bind_result _ _ _ call _ s0 true Hres).
    change (exec call s0) with s1.
    unfold bind. now rewrite Hfov. }
  rewrite E. unfold exec, result in *.
  split; [exact U1|]. split; [now rewrite U4|].
  split; [now rewrite J3|]. split; [now rewrite J1, J3|].
  split; [now rewrite J4|]. split; [now rewrite J2, J4|].
  split; [exact J5|].
  split; [rewrite U7, J2; cbn; now rewrite exp_ln by lra|].
  split.
  - rewrite U8. change (isUserChange s2) with (isUserChange s1).
    change (log s2) with (log s1). now rewrite Hu, Hlog.
  - rewrite Ub. change (bindings s2) with (bindings s1). now rewrite Hbind.
Qed.

End Construction.

Lemma constructor_establishes_witness :
  let s := constructed true in
  goalSpherical s = mkSpherical (Fin 1) (Fin (PI / 2)) (Fin 0) /\
  isStationary s = true /\
  fov (camera s) = Fin 45 /\
  log s = [change NONE].
Proof.
  cbv zeta.
  destruct (@constructor_establishes snapDamper sample_camera
              (sample_element true) snapDamper_settles)
    as (_ & _ & H3 & _ & _ & _ & H7 & H8 & H9 & _).
  repeat split; assumption.
Defined.

(* ------------------------------------------------------------------ *)
(** ** Zooming and turning by wheel, pinch and drag *)

Section Gestures.

Context {damper : DamperClass}.

(** A zoom step that comes from the user. *)
Lemma userAdjustOrbit_zoom
    (s : SmoothControls) (r l z minR maxR minF maxF : R) :
  let o := _options s in
  ordered (minimumAzimuthalAngle o) (maximumAzimuthalAngle o) ->
  ordered (minimumPolarAngle o) (maximumPolarAngle o) ->
  minimumRadius o = Fin minR -> maximumRadius o = Fin maxR ->
  minimumFieldOfView o = Fin minF -> maximumFieldOfView o = Fin maxF ->
  radius (goalSpherical s) = Fin r -> goalLogFov s = Fin l ->
  minR <= r <= maxR -> 0 < minF <= maxF -> ln minF <= l <= ln maxF ->
  exists (s' : SmoothControls) (r' l' : R),
    userAdjustOrbit (Fin 0) (Fin 0) (Fin z) s = (Normal tt, s') /\
    radius (goalSpherical s') = Fin r' /\
    goalLogFov s' = Fin l' /\
    minR <= r' <= maxR /\
    ln minF <= l' <= ln maxF /\
    (0 <= z -> r <= r' /\ l <= l') /\
    (z <= 0 -> r' <= r /\ l' <= l) /\
    log s' = change USER_INTERACTION :: log s.
Proof.
  intros o HA HP HminR HmaxR HminF HmaxF Hr Hl HR HF HL.
  destruct (@userAdjustOrbit_outcome _ (Fin 0) (Fin 0) (Fin z) s) as [H Hlog].
  destruct (@adjustOrbit_zoom_step _ s (Fin 0 * sensitivity s)%js
              (Fin 0 * sensitivity s)%js r l z minR maxR minF maxF)
    as (Hres & r' & l' & Z1 & Z2 & Z3 & Z4 & Z5 & Z6); try assumption.
  unfold exec, result in *.
  destruct (adjustOrbit _ _ _ s) as [[u|e] s1]; cbn [fst snd] in *;
    [|discriminate].
  eexists. exists r', l'.
  refine (conj H (conj Z1 (conj Z2 (conj Z3 (conj Z4 (conj Z5 (conj Z6 _))))))).
  reflexivity.
Qed.

(** X24: the direction of the wheel.  While interaction is allowed, with
    finite bounds in order and the goal radius and goal log-FOV within them,
    [onWheel] returns and keeps both within their bounds; turning the wheel
    down ([deltaY >= 0]) lowers neither (it zooms out), turning it up
    raises neither.  It dispatches one [change] event with the source
    user-interaction and then, if the event is cancelable, prevents the
    default. *)
Theorem wheel_zoom_direction
    (ev : Event) (s : SmoothControls) (y r l minR maxR minF maxF : R) :
  let o := _options s in
  canInteract s = true ->
  deltaY ev = Fin y ->
  ordered (minimumAzimuthalAngle o) (maximumAzimuthalAngle o) ->
  ordered (minimumPolarAngle o) (maximumPolarAngle o) ->
  minimumRadius o = Fin minR -> maximumRadius o = Fin maxR ->
  minimumFieldOfView o = Fin minF -> maximumFieldOfView o = Fin maxF ->
  radius (goalSpherical s) = Fin r -> goalLogFov s = Fin l ->
  minR <= r <= maxR -> 0 < minF <= maxF -> ln minF <= l <= ln maxF ->
  let s' := exec (onWheel ev) s in
  result (onWheel ev) s = Normal tt /\
  (exists r' l' : R,
     radius (goalSpherical s') = Fin r' /\
     goalLogFov s' = Fin l' /\
     minR <= r' <= maxR /\
     ln minF <= l' <= ln maxF /\
     (0 <= y -> r <= r' /\ l <= l') /\
     (y <= 0 -> r' <= r /\ l' <= l)) /\
  log s' = (if cancelable ev then [preventDefault] else [])
           ++ change USER_INTERACTION :: log s.
Proof.
  intros o Hcan Hy HA HP HminR HmaxR HminF HmaxF Hr Hl HR HF HL.
  cbv zeta.
  assert (Hz : exists z : R,
             (deltaY ev * (if (deltaMode ev =? 1)%Z then Fin 18 else Fin 1)
              * ZOOM_SENSITIVITY / Fin 30)%js = Fin z /\
             (0 <= y -> 0 <= z) /\ (y <= 0 -> z <= 0)).
  { rewrite Hy. unfold ZOOM_SENSITIVITY.
    destruct (deltaMode ev =? 1)%Z; cbn; decide_reals;
      eexists; (split; [reflexivity|]); split; intros; lra. }
  destruct Hz as (z & Ez & Hup & Hdn).
  destruct (@userAdjustOrbit_zoom s r l z minR maxR minF maxF)
    as (s1 & r' & l' & U & Z1 & Z2 & Z3 & Z4 & Z5 & Z6 & Z7); try assumption.
  unfold exec, result, onWheel, bind, gets. cbv beta iota.
  rewrite Hcan. cbn [negb]. rewrite Ez, U.
  unfold preventDefault_if_cancelable, when, emit, modify, ret.
  destruct (cancelable ev); cbn [fst snd app];
    (split; [reflexivity|]); (split; [|cbn; now rewrite Z7]);
    exists r', l';
    refine (conj Z1 (conj Z2 (conj Z3 (conj Z4
              (conj (fun h => Z5 (Hup h)) (fun h => Z6 (Hdn h))))))).
Qed.

Lemma twoTouchDistance_Fin (x0 y0 x1 y1 : R) :
  twoTouchDistance (mkPointer (Fin x0) (Fin y0)) (mkPointer (Fin x1) (Fin y1))
  = Fin (sqrt ((x1 - x0) * (x1 - x0) + (y1 - y0) * (y1 - y0))).
Proof.
  unfold twoTouchDistance. cbn.
  rewrite (proj2 (Rltb_false _ _)); [reflexivity|].
  pose proof (Rle_0_sqr (x1 + - x0)). pose proof (Rle_0_sqr (y1 + - y0)).
  unfold Rsqr in *. lra.
Qed.

(** X25: the direction of a pinch.  In a zoom gesture (two touches went
    down), while interaction is allowed, with finite bounds in order and the
    goal radius and goal log-FOV within them: a movement of the two touches
    returns, keeps both within their bounds and remembers the touches; when
    the touches have come closer to each other it lowers neither the goal
    radius nor the goal log-FOV (pinching zooms out), when they have moved
    apart it raises neither (spreading zooms in). *)
Theorem pinch_zoom_direction
    (s : SmoothControls) (c : bool)
    (x0 y0 x1 y1 u0 v0 u1 v1 r l minR maxR minF maxF : R) :
  let o := _options s in
  let before := sqrt ((x1 - x0) * (x1 - x0) + (y1 - y0) * (y1 - y0)) in
  let now := sqrt ((u1 - u0) * (u1 - u0) + (v1 - v0) * (v1 - v0)) in
  let moved := [mkPointer (Fin u0) (Fin v0); mkPointer (Fin u1) (Fin v1)] in
  pointerIsDown s = true -> canInteract s = true -> touchMode s = zoom ->
  lastTouches s
    = Some [mkPointer (Fin x0) (Fin y0); mkPointer (Fin x1) (Fin y1)] ->
  ordered (minimumAzimuthalAngle o) (maximumAzimuthalAngle o) ->
  ordered (minimumPolarAngle o) (maximumPolarAngle o) ->
  minimumRadius o = Fin minR -> maximumRadius o = Fin maxR ->
  minimumFieldOfView o = Fin minF -> maximumFieldOfView o = Fin maxF ->
  radius (goalSpherical s) = Fin r -> goalLogFov s = Fin l ->
  minR <= r <= maxR -> 0 < minF <= maxF -> ln minF <= l <= ln maxF ->
  let ev := touch_event touchmove c moved in
  let s' := exec (onPointerMove ev) s in
  result (onPointerMove ev) s = Normal tt /\
  (exists r' l' : R,
     radius (goalSpherical s') = Fin r' /\
     goalLogFov s' = Fin l' /\
     minR <= r' <= maxR /\
     ln minF <= l' <= ln maxF /\
     (now <= before -> r <= r' /\ l <= l') /\
     (before <= now -> r' <= r /\ l' <= l)) /\
  lastTouches s' = Some moved.
Proof.
  intros o before now moved Hdown Hcan Hmode Hlast
         HA HP HminR HmaxR HminF HmaxF Hr Hl HR HF HL.
  cbv zeta.
  set (z := 4 / 100 * (before - now) / 10).
  destruct (@userAdjustOrbit_zoom s r l z minR maxR minF maxF)
    as (s1 & r' & l' & U & Z1 & Z2 & Z3 & Z4 & Z5 & Z6 & Z7); try assumption.
  assert (E : onPointerMove (touch_event touchmove c moved) s =
              (userAdjustOrbit (Fin 0) (Fin 0) (Fin z) ;;
               modify (set_lastTouches (Some moved)) ;;
               preventDefault_if_cancelable (touch_event touchmove c moved)) s).
  { unfold onPointerMove. unfold bind at 1. unfold gets at 1. cbv beta iota.
    rewrite Hdown, Hcan, Hmode, Hlast. cbn [negb orb].
    change (TOUCH_EVENT_RE_test (type (touch_event touchmove c moved)))
      with true. cbv iota.
    change (touches (touch_event touchmove c moved)) with moved.
    unfold moved at 1. cbv iota.
    rewrite !twoTouchDistance_Fin. fold before now.
    assert (Ez : (ZOOM_SENSITIVITY * (Fin before - Fin now) / Fin 10)%js
                 = Fin z).
    { unfold ZOOM_SENSITIVITY, z. cbn. decide_reals. reflexivity. }
    now rewrite Ez. }
  unfold exec, result. rewrite E. unfold bind. rewrite U.
  unfold preventDefault_if_cancelable, when, emit, modify.
  change (cancelable (touch_event touchmove c moved)) with c.
  destruct c; cbn [fst snd];
    (split; [reflexivity|]); (split; [|reflexivity]);
    exists r', l';
    refine (conj Z1 (conj Z2 (conj Z3 (conj Z4
              (conj (fun h => Z5 _) (fun h => Z6 _))))));
    unfold z; lra.
Qed.

(** The first part of [handleSinglePointerMove]: the pointer is
    remembered and the start of pointing is announced. *)
Lemma handleSinglePointerMove_eq (p : Pointer) (s : SmoothControls) :
  exists s2 : SmoothControls,
    handleSinglePointerMove (Some p) s =
    userAdjustOrbit
      (Fin 2 * Math_PI * (clientX p - clientX (lastPointerPosition s))
       / clientHeight (element s))%js
      (Fin 2 * Math_PI * (clientY p - clientY (lastPointerPosition s))
       / clientHeight (element s))%js
      (Fin 0) s2 /\
    orbit s2 = orbit s /\ _options s2 = _options s /\
    sensitivity s2 = sensitivity s /\
    lastPointerPosition s2 = mkPointer (clientX p) (clientY p) /\
    isUserPointing s2 = true.
Proof.
  unfold handleSinglePointerMove, pixelLengthToSphericalAngle, emit, when,
    bind, gets, modify, ret. cbv beta iota.
  cbn [isUserPointing set_lastPointerPosition].
  destruct (isUserPointing s) eqn:Hp; cbn [negb]; cbv beta iota;
    eexists; (split; [reflexivity|]); cbn; repeat split; assumption.
Qed.

(** X26: dragging turns the goal.  While the pointer is down and
    interaction is allowed, on an element of height [h] and with sensitivity
    [k], a mouse movement from [(x0, y0)] to [(x1, y1)] subtracts
    [2 pi k (x1 - x0) / h] from the goal azimuth and
    [2 pi k (y1 - y0) / h] from the goal polar angle (a drag by the
    element's height is a full turn), provided the new goal is within
    [pi - 0.001] of the current azimuth, within the bounds and safe.  The
    pointer position is remembered, and the user counts as pointing. *)
Theorem drag_turns_the_goal
    (s : SmoothControls) (cancel : bool)
    (x0 y0 x1 y1 h k c g q r : R) :
  let o := _options s in
  let dTheta := 2 * PI * (x1 - x0) / h * k in
  let dPhi := 2 * PI * (y1 - y0) / h * k in
  pointerIsDown s = true -> canInteract s = true ->
  clientHeight (element s) = Fin h -> h <> 0 ->
  sensitivity s = Fin k ->
  lastPointerPosition s = mkPointer (Fin x0) (Fin y0) ->
  theta (spherical s) = Fin c ->
  goalSpherical s = mkSpherical (Fin r) (Fin q) (Fin g) ->
  Rabs (c - (g - dTheta)) <= PI - 1 / 1000 ->
  within (minimumAzimuthalAngle o) (Fin (g - dTheta))
         (maximumAzimuthalAngle o) ->
  within (minimumPolarAngle o) (Fin (q - dPhi)) (maximumPolarAngle o) ->
  EPS <= q - dPhi <= PI - EPS ->
  within (minimumRadius o) (Fin r) (maximumRadius o) ->
  let ev := mouse_event mousemove cancel (mkPointer (Fin x1) (Fin y1)) in
  let s' := exec (onPointerMove ev) s in
  result (onPointerMove ev) s = Normal tt /\
  goalSpherical s' = mkSpherical (Fin r) (Fin (q - dPhi)) (Fin (g - dTheta)) /\
  lastPointerPosition s' = mkPointer (Fin x1) (Fin y1) /\
  isUserPointing s' = true /\
  isUserChange s' = true.
Proof.
  intros o dTheta dPhi Hdown Hcan Hh Hh0 Hk Hlast Hc Hg Hx WT WP SP WR.
  cbv zeta.
  set (p := mkPointer (Fin x1) (Fin y1)).
  destruct (handleSinglePointerMove_eq p s)
    as (s2 & E & Horb & Hopt & Hsens & Hlp & Hup).
  rewrite Hlast, Hh in E.
  assert (EdT : (Fin 2 * Math_PI *
                 (clientX p - clientX (mkPointer (Fin x0) (Fin y0))) / Fin h)%js
                = Fin (2 * PI * (x1 - x0) / h)).
  { cbn. now rewrite (proj2 (Reqb_false h 0)). }
  assert (EdP : (Fin 2 * Math_PI *
                 (clientY p - clientY (mkPointer (Fin x0) (Fin y0))) / Fin h)%js
                = Fin (2 * PI * (y1 - y0) / h)).
  { cbn. now rewrite (proj2 (Reqb_false h 0)). }
  rewrite EdT, EdP in E.
  destruct (@userAdjustOrbit_outcome _ (Fin (2 * PI * (x1 - x0) / h))
              (Fin (2 * PI * (y1 - y0) / h)) (Fin 0) s2) as [H _].
  rewrite Hsens, Hk in H.
  change (Fin (2 * PI * (x1 - x0) / h) * Fin k)%js with (Fin dTheta) in H.
  change (Fin (2 * PI * (y1 - y0) / h) * Fin k)%js with (Fin dPhi) in H.
  unfold orbit in Horb. injection Horb as Hg2 Hs2 _ _.
  destruct (@adjustOrbit_in_reach _ s2 c g q r dTheta dPhi)
    as (R1 & R2 & _);
    try (rewrite ?Hopt, ?Hg2, ?Hs2; assumption).
  pose proof (@adjustOrbit_input _ (Fin dTheta) (Fin dPhi) (Fin 0) s2) as Hi.
  unfold input_state in Hi. injection Hi as _ _ _ _ Hpt Hlp' _ _ _ _ _.
  assert (EM : onPointerMove
                 (mouse_event mousemove cancel p) s =
               (handleSinglePointerMove (Some p) ;;
                preventDefault_if_cancelable (mouse_event mousemove cancel p))
                 s).
  { unfold onPointerMove. unfold bind at 1. unfold gets at 1. cbv beta iota.
    now rewrite Hdown, Hcan. }
  unfold exec, result in *. rewrite EM. unfold bind. rewrite E.
  destruct (adjustOrbit _ _ _ s2) as [[u|e] s3]; [|discriminate].
  rewrite H. cbn [fst snd] in *.
  unfold preventDefault_if_cancelable, when, emit, modify, ret.
  change (cancelable (mouse_event mousemove cancel p)) with cancel.
  destruct cancel; cbn [fst snd]; (split; [reflexivity|]); cbn;
    rewrite R2, Hlp', Hpt, Hlp, Hup; repeat split.
Qed.

End Gestures.

Lemma wheel_zoom_direction_witness :
  let s := exec (applyOptions radius_up_to_2) (constructed true) in
  let s' := exec (onWheel (wheel_event (Fin 100))) s in
  result (onWheel (wheel_event (Fin 100))) s = Normal tt /\
  exists r' l' : R,
    radius (goalSpherical s') = Fin r' /\ goalLogFov s' = Fin l' /\
    1 <= r' <= 2 /\ ln 45 <= l'.
Proof.
  destruct radius_up_to_2_fields as (Ho & Hr & Hl). cbv zeta in Ho, Hr, Hl.
  cbv zeta.
  pose proof ln_10_lt_ln_45 as Hln. pose proof PI_bounds as Hpi.
  destruct (@wheel_zoom_direction snapDamper (wheel_event (Fin 100))
              (exec (applyOptions radius_up_to_2) (constructed true))
              100 1 (ln 45) 0 2 10 45)
    as (H1 & (r' & l' & H2 & H3 & H4 & H5 & H6 & _) & _).
  - unfold canInteract. now rewrite Ho.
  - reflexivity.
  - rewrite Ho. exact I.
  - rewrite Ho. cbn. lra.
  - now rewrite Ho.
  - now rewrite Ho.
  - now rewrite Ho.
  - now rewrite Ho.
  - exact Hr.
  - exact Hl.
  - lra.
  - lra.
  - lra.
  - split; [exact H1|]. exists r', l'.
    destruct H6 as [H6 H7]; [lra|]. repeat split; try assumption; lra.
Defined.

Lemma pinch_zoom_direction_witness :
  let s0 := exec (applyOptions radius_up_to_2) (constructed true) in
  let s := set_lastTouches
             (Some [mkPointer (Fin 0) (Fin 0); mkPointer (Fin 0) (Fin 10)])
             (set_touchMode zoom (set_pointerIsDown true s0)) in
  let ev := touch_event touchmove true
              [mkPointer (Fin 0) (Fin 0); mkPointer (Fin 0) (Fin 20)] in
  let s' := exec (onPointerMove ev) s in
  result (onPointerMove ev) s = Normal tt /\
  exists r' l' : R,
    radius (goalSpherical s') = Fin r' /\ goalLogFov s' = Fin l' /\
    r' <= 1 /\ l' <= ln 45.
Proof.
  destruct radius_up_to_2_fields as (Ho & Hr & Hl). cbv zeta in Ho, Hr, Hl.
  cbv zeta.
  pose proof ln_10_lt_ln_45 as Hln. pose proof PI_bounds as Hpi.
  set (s0 := exec (applyOptions radius_up_to_2) (constructed true)) in *.
  set (s := set_lastTouches _ _).
  assert (Hopt : _options s = Object_assign DEFAULT_OPTIONS radius_up_to_2)
    by exact Ho.
  destruct (@pinch_zoom_direction snapDamper s true
              0 0 0 10 0 0 0 20 1 (ln 45) 0 2 10 45)
    as (H1 & (r' & l' & H2 & H3 & _ & _ & _ & H6) & _).
  - reflexivity.
  - unfold canInteract. now rewrite Hopt.
  - reflexivity.
  - reflexivity.
  - rewrite Hopt. exact I.
  - rewrite Hopt. cbn. lra.
  - now rewrite Hopt.
  - now rewrite Hopt.
  - now rewrite Hopt.
  - now rewrite Hopt.
  - exact Hr.
  - exact Hl.
  - lra.
  - lra.
  - lra.
  - split; [exact H1|]. exists r', l'.
    destruct H6 as [H6 H7]; [apply sqrt_le_1_alt; lra|].
    repeat split; assumption.
Defined.

Lemma drag_turns_the_goal_witness :
  let s := set_lastPointerPosition (mkPointer (Fin 0) (Fin 0))
             (set_pointerIsDown true (constructed true)) in
  let ev := mouse_event mousemove true (mkPointer (Fin 30) (Fin 15)) in
  goalSpherical (exec (onPointerMove ev) s)
    = mkSpherical (Fin 1) (Fin (PI / 2 - 2 * PI * (15 - 0) / 300 * 1))
                  (Fin (0 - 2 * PI * (30 - 0) / 300 * 1)).
Proof.
  destruct (constructed_fields true) as (Ho & Hg & Hc & _ & _ & Hk & He).
  cbv zeta in Ho, Hg, Hc, Hk, He. cbv zeta.
  pose proof PI_bounds as Hpi.
  set (s := set_lastPointerPosition _ _).
  assert (Hopt : _options s = DEFAULT_OPTIONS) by exact Ho.
  apply (@drag_turns_the_goal snapDamper s true 0 0 30 15 300 1 0 0 (PI / 2) 1).
  - reflexivity.
  - unfold canInteract. now rewrite Hopt.
  - change (element s) with (element (constructed true)). now rewrite He.
  - lra.
  - exact Hk.
  - reflexivity.
  - change (spherical s) with (spherical (constructed true)). now rewrite Hc.
  - exact Hg.
  - rewrite Rabs_pos_eq; lra.
  - rewrite Hopt. split; exact I.
  - rewrite Hopt. split; cbn; lra.
  - unfold EPS. lra.
  - rewrite Hopt. split; cbn; [lra|exact I].
Defined.

(* ------------------------------------------------------------------ *)
(** ** Omitted arguments *)

(** X27: the arguments of [setOrbit] default to the goal.  A call that
    gives only the azimuth, on a controller whose goal polar angle and
    radius are within their bounds (the polar angle safe), leaves the goal
    polar angle and radius as they are, sets the goal azimuth to the
    clamped request, and returns [true] exactly if that differs from the
    goal azimuth before. *)
Theorem setOrbit_omitted_arguments_default_to_the_goal
    {damper : DamperClass} (t : num) (s : SmoothControls) :
  let g := goalSpherical s in
  let o := _options s in
  ordered (minimumAzimuthalAngle o) (maximumAzimuthalAngle o) ->
  is_number t ->
  within (minimumPolarAngle o) (phi g) (maximumPolarAngle o) ->
  safe_polar (phi g) ->
  within (minimumRadius o) (radius g) (maximumRadius o) ->
  let s' := exec (setOrbit (Some t) None None) s in
  exists nT : num,
    clamp t (minimumAzimuthalAngle o) (maximumAzimuthalAngle o) = Normal nT /\
    result (setOrbit (Some t) None None) s
      = Normal (negb (nT === theta g)%js) /\
    goalSpherical s' = mkSpherical (radius g) (phi g) nT.
Proof.
  cbv zeta. intros OA NT WP SP WR.
  destruct (@clamp_spec _ _ _ OA NT) as (nT & C1 & _).
  exists nT. split; [exact C1|].
  unfold exec, result. rewrite setOrbit_eq. cbv zeta. cbn [or_default].
  rewrite C1, (@clamp_id _ _ _ WP), (@clamp_id _ _ _ WR).
  rewrite (@strict_eq_refl (phi (goalSpherical s)))
    by apply (@le_numbers _ _ (proj2 WP)).
  rewrite (@strict_eq_refl (radius (goalSpherical s)))
    by apply (@le_numbers _ _ (proj2 WR)).
  rewrite !andb_true_r.
  destruct (rewrap_fields (_options s) nT s) as (F1 & _).
  destruct (nT === theta (goalSpherical s))%js eqn:E; cbn [fst snd negb].
  - split; [reflexivity|]. rewrite F1.
    apply strict_eq_true in E. subst nT. now destruct (goalSpherical s).
  - split; [reflexivity|]. cbn [goalSpherical set_isUserChange set_goalSpherical].
    now rewrite makeSafe_id.
Qed.

Lemma setOrbit_omitted_arguments_witness :
  let call := setOrbit (Some (Fin 2)) None None in
  result call (constructed true) = Normal true /\
  goalSpherical (exec call (constructed true))
    = mkSpherical (Fin 1) (Fin (PI / 2)) (Fin 2).
Proof.
  destruct (constructed_fields true) as (Ho & Hg & _). cbv zeta in Ho, Hg.
  cbv zeta. pose proof PI_bounds as Hpi.
  destruct (@setOrbit_omitted_arguments_default_to_the_goal snapDamper (Fin 2)
              (constructed true))
    as (nT & C & R & G).
  - rewrite Ho. exact I.
  - discriminate.
  - rewrite Ho, Hg. split; cbn; lra.
  - rewrite Hg. exists (PI / 2). split; [reflexivity|]. unfold EPS. lra.
  - rewrite Ho, Hg. split; cbn; [lra|exact I].
  - rewrite Ho in C. rewrite clamp_unbounded in C. injection C as <-.
    rewrite Hg in R, G. split; [|exact G].
    rewrite R. cbn [theta strict_eq].
    now rewrite (proj2 (Reqb_false 2 0)) by lra.
Defined.
